(** * snyk-insights: the record model, the CSV ingestor and the aggregator

    A shallow embedding of [src/snyk_insights.py] and [src/html_report.py],
    and the properties of their specification.

    Conventions of the embedding.
    - A Python [str] is a Rocq [string]: the UTF-8 bytes of the text.  The
      source only compares strings for equality, concatenates them and sorts
      them; on UTF-8 all three agree with Python's code-point semantics.
    - A Python [dict] (and [defaultdict]) keeps its keys in insertion order;
      it is an association list with one entry per key, a new key going to
      the end and an existing key keeping its place.
    - A Python [set] of strings is a [gset string]; the source only ever
      reads it back through [sorted].
    - Counters ([len], [+= 1], [sum]) are natural numbers.
    - An exception is a value of a sum type: [inl] is the raised error.
    - Library code is not part of the source.  [sorted] and [json.loads] are
      modelled ([sorted_with], [Json.loads]), the decoder with the two
      limits of the interpreter that make it raise on JSON text: the
      longest integer literal it converts and the depth to which it
      recurses.  [datetime.strptime], the validation of an [int] and of a
      [datetime] field, [str] of an exception, the file system, the import
      of a module and the template engine are parameters of the
      definitions that call them. *)

From Stdlib Require Import ZArith Lia Ascii String DecimalString.
From stdpp Require Import base list strings gmap sets.

Open Scope string_scope.
Open Scope list_scope.
Open Scope nat_scope.
Set Warnings "-register-all,-clear-no-such-hyp".

(** ** Python runtime: ordered dictionaries *)

Section Dict.
Context {K V : Type} `{EqDecision K}.

(** [d.get(k)] *)
Fixpoint dict_get (k : K) (d : list (K * V)) : option V :=
  match d with
  | [] => None
  | (k', v) :: d' => if decide (k = k') then Some v else dict_get k d'
  end.

(** [d[k] = v] *)
Fixpoint dict_set (k : K) (v : V) (d : list (K * V)) : list (K * V) :=
  match d with
  | [] => [(k, v)]
  | (k', v') :: d' =>
      if decide (k = k') then (k', v) :: d' else (k', v') :: dict_set k v d'
  end.

(** [d[k]] on a [defaultdict(factory)] followed by an in-place change [f]
    of the value found there: a missing key is first bound to the
    factory's value, at the end of the dictionary. *)
Fixpoint dd_modify (factory : V) (f : V → V) (k : K) (d : list (K * V))
  : list (K * V) :=
  match d with
  | [] => [(k, f factory)]
  | (k', v) :: d' =>
      if decide (k = k') then (k', f v) :: d'
      else (k', v) :: dd_modify factory f k d'
  end.
End Dict.

(** ** Python runtime: [sorted]

    [sorted] is a stable sort.  [lt a b] is the strict comparison the sort
    is driven by ("[a] goes before [b]"); an element only ever moves past
    the elements that are strictly before it, so equal elements keep their
    input order. *)

Section Sorted.
Context {A : Type} (lt : A → A → bool).

Fixpoint sorted_insert (x : A) (l : list A) : list A :=
  match l with
  | [] => [x]
  | y :: l' => if lt y x then y :: sorted_insert x l' else x :: y :: l'
  end.

Fixpoint sorted_with (l : list A) : list A :=
  match l with
  | [] => []
  | x :: l' => sorted_insert x (sorted_with l')
  end.
End Sorted.

(** [sorted(xs)] on strings *)
Definition sorted_str (l : list string) : list string :=
  sorted_with String.ltb l.

(** [<] on 2-tuples of strings: the first differing component decides. *)
Definition tuple_ltb (a b : string * string) : bool :=
  if decide (a.1 = b.1) then String.ltb a.2 b.2 else String.ltb a.1 b.1.

(** [sorted(d.items())] for a dictionary from strings to strings *)
Definition sorted_items (l : list (string * string)) : list (string * string) :=
  sorted_with tuple_ltb l.

(** [sorted(xs, key=key, reverse=True)] with a numeric key *)
Definition sorted_by_key_reverse {A : Type} (key : A → nat) (l : list A) : list A :=
  sorted_with (λ a b, Nat.ltb (key b) (key a)) l.

(** ** The record model ([SnykIssue], its fields) *)

Record datetime := {
  year : Z; month : Z; day : Z;
  hour : Z; minute : Z; second : Z; microsecond : Z
}.

Record SnykIssue := {
  issue_severity_rank : Z;
  issue_severity : string;
  score : Z;
  problem_title : string;
  cve : list string;
  cve_url : list string;
  cwe : list string;
  project_name : string;
  project_url : string;
  exploit_maturity : option string;
  computed_fixability : string;
  first_introduced : option datetime;
  product_name : option string;
  issue_url : string;
  issue_status_indicator : string;
  issue_type : string
}.

(** ** [html_report.py]: the aggregator *)

(** The accumulator that [prepare_data_cve_cwe] keeps per (cve, cwe) key. *)
Module CveCweAcc.
Record t := {
  issues : list SnykIssue;
  severity_counts : list (string * nat);
  projects : list (string * string);
  problem_titles : gset string;
  fixable_count : nat
}.
End CveCweAcc.

(** The accumulator that [prepare_data_project] keeps per project key. *)
Module ProjectAcc.
Record t := {
  issues : list SnykIssue;
  severity_counts : list (string * nat);
  cve_cwe_pairs : gset string;
  problem_titles : gset string;
  fixable_count : nat
}.
End ProjectAcc.

(** An entry [{'name': name, 'url': url}] of a group's project list *)
Record project_entry := { name : string; url : string }.

(** A group of the cve-cwe report *)
Module CveCweGroup.
Record t := {
  cve : string;
  cwe : string;
  total_issues : nat;
  fixable_count : nat;
  severity_counts : list (string * nat);
  problem_titles : list string;
  projects : list project_entry
}.
End CveCweGroup.

(** A group of the project report *)
Module ProjectGroup.
Record t := {
  project_name : string;
  project_url : string;
  total_issues : nat;
  fixable_count : nat;
  severity_counts : list (string * nat);
  problem_titles : list string;
  cve_cwe_pairs : list string
}.
End ProjectGroup.

(** The list [groups] holds the groups of one of the two strategies. *)
Inductive report_groups :=
  | CveCweGroups (gs : list CveCweGroup.t)
  | ProjectGroups (gs : list ProjectGroup.t).

(** [len(groups)] *)
Definition len_groups (g : report_groups) : nat :=
  match g with
  | CveCweGroups gs => length gs
  | ProjectGroups gs => length gs
  end.

(** The dictionary [prepare_data] returns *)
Module Report.
Record t := {
  total_issues : nat;
  total_groups : nat;
  severity_counts : list (string * nat);
  fixable_count : nat;
  groups : report_groups;
  group_by : string
}.
End Report.

(** [issue.cve if issue.cve else ['No CVE']] *)
Definition cves_of (issue : SnykIssue) : list string :=
  match cve issue with [] => ["No CVE"] | _ => cve issue end.

(** [issue.cwe if issue.cwe else ['No CWE']] *)
Definition cwes_of (issue : SnykIssue) : list string :=
  match cwe issue with [] => ["No CWE"] | _ => cwe issue end.

(** [d[sev] += 1] on a [defaultdict(int)] *)
Definition count_severity (sev : string) (d : list (string * nat))
  : list (string * nat) :=
  dd_modify 0 S sev d.

(** [issue.computed_fixability == "Fixable"] *)
Definition is_fixable (issue : SnykIssue) : bool :=
  bool_decide (computed_fixability issue = "Fixable").

Module CveCwe.
Import CveCweAcc.

(** The factory of the [defaultdict] of groups *)
Definition new_group : t :=
  {| issues := []; severity_counts := []; projects := [];
     problem_titles := ∅; fixable_count := 0 |}.

(** The five statements of the innermost loop body, as changes of the
    group found at [cve_cwe_groups[key]]. *)
Definition append_issue (issue : SnykIssue) (d : t) : t :=
  {| issues := issues d ++ [issue];
     severity_counts := severity_counts d; projects := projects d;
     problem_titles := problem_titles d; fixable_count := fixable_count d |}.

Definition incr_severity (issue : SnykIssue) (d : t) : t :=
  {| issues := issues d;
     severity_counts := count_severity (issue_severity issue) (severity_counts d);
     projects := projects d;
     problem_titles := problem_titles d; fixable_count := fixable_count d |}.

Definition set_project (issue : SnykIssue) (d : t) : t :=
  {| issues := issues d; severity_counts := severity_counts d;
     projects := dict_set (project_name issue)
                          (project_url issue) (projects d);
     problem_titles := problem_titles d; fixable_count := fixable_count d |}.

Definition add_title (issue : SnykIssue) (d : t) : t :=
  {| issues := issues d; severity_counts := severity_counts d;
     projects := projects d;
     problem_titles := problem_titles d ∪ {[ problem_title issue ]};
     fixable_count := fixable_count d |}.

Definition incr_fixable (d : t) : t :=
  {| issues := issues d; severity_counts := severity_counts d;
     projects := projects d; problem_titles := problem_titles d;
     fixable_count := S (fixable_count d) |}.

(** The body of [for cwe in cwes] for one key *)
Definition accumulate (issue : SnykIssue) (key : string * string)
    (cve_cwe_groups : list (string * string * t)) : list (string * string * t) :=
  let g := dd_modify new_group (append_issue issue) key cve_cwe_groups in
  let g := dd_modify new_group (incr_severity issue) key g in
  let g := dd_modify new_group (set_project issue) key g in
  let g := dd_modify new_group (add_title issue) key g in
  if is_fixable issue then dd_modify new_group incr_fixable key g else g.

(** The body of [for issue in issues]: the two nested loops *)
Definition accumulate_issue (cve_cwe_groups : list (string * string * t))
    (issue : SnykIssue) : list (string * string * t) :=
  foldl (λ g cve,
           foldl (λ g cwe, accumulate issue (cve, cwe) g) g (cwes_of issue))
        cve_cwe_groups (cves_of issue).

(** The first loop of [prepare_data_cve_cwe] *)
Definition cve_cwe_groups (issues : list SnykIssue) : list (string * string * t) :=
  foldl accumulate_issue [] issues.

(** One element of the list [groups] *)
Definition make_group (item : string * string * t) : CveCweGroup.t :=
  let '((cve, cwe), data) := item in
  {| CveCweGroup.cve := cve;
     CveCweGroup.cwe := cwe;
     CveCweGroup.total_issues := length (issues data);
     CveCweGroup.fixable_count := fixable_count data;
     CveCweGroup.severity_counts := severity_counts data;
     CveCweGroup.problem_titles := sorted_str (elements (problem_titles data));
     CveCweGroup.projects :=
       map (λ item, {| name := item.1; url := item.2 |})
           (sorted_items (projects data)) |}.

Definition sorted_groups (issues : list SnykIssue) : list (string * string * t) :=
  sorted_by_key_reverse (λ x, length (CveCweAcc.issues x.2)) (cve_cwe_groups issues).

Definition prepare_data_cve_cwe (issues : list SnykIssue) : list CveCweGroup.t :=
  map make_group (sorted_groups issues).
End CveCwe.

Module Project.
Import ProjectAcc.

(** The factory of the [defaultdict] of groups *)
Definition new_group : t :=
  {| issues := []; severity_counts := []; cve_cwe_pairs := ∅;
     problem_titles := ∅; fixable_count := 0 |}.

Definition append_issue (issue : SnykIssue) (d : t) : t :=
  {| issues := issues d ++ [issue];
     severity_counts := severity_counts d; cve_cwe_pairs := cve_cwe_pairs d;
     problem_titles := problem_titles d; fixable_count := fixable_count d |}.

Definition incr_severity (issue : SnykIssue) (d : t) : t :=
  {| issues := issues d;
     severity_counts := count_severity (issue_severity issue) (severity_counts d);
     cve_cwe_pairs := cve_cwe_pairs d;
     problem_titles := problem_titles d; fixable_count := fixable_count d |}.

Definition add_title (issue : SnykIssue) (d : t) : t :=
  {| issues := issues d; severity_counts := severity_counts d;
     cve_cwe_pairs := cve_cwe_pairs d;
     problem_titles := problem_titles d ∪ {[ problem_title issue ]};
     fixable_count := fixable_count d |}.

(** The f-string [f"{cve} + {cwe}"] *)
Definition pair_label (cve cwe : string) : string :=
  cve +:+ " + " +:+ cwe.

Definition add_pair (cve cwe : string) (d : t) : t :=
  {| issues := issues d; severity_counts := severity_counts d;
     cve_cwe_pairs := cve_cwe_pairs d ∪ {[ pair_label cve cwe ]};
     problem_titles := problem_titles d; fixable_count := fixable_count d |}.

Definition incr_fixable (d : t) : t :=
  {| issues := issues d; severity_counts := severity_counts d;
     cve_cwe_pairs := cve_cwe_pairs d; problem_titles := problem_titles d;
     fixable_count := S (fixable_count d) |}.

(** The two nested loops that track the CVE-CWE pairs of a project *)
Definition track_pairs (issue : SnykIssue) (key : string * string)
    (project_groups : list (string * string * t)) : list (string * string * t) :=
  foldl (λ g cve,
           foldl (λ g cwe, dd_modify new_group (add_pair cve cwe) key g)
                 g (cwes_of issue))
        project_groups (cves_of issue).

(** The body of [for issue in issues] *)
Definition accumulate_issue (project_groups : list (string * string * t))
    (issue : SnykIssue) : list (string * string * t) :=
  let key := (project_name issue, project_url issue) in
  let g := dd_modify new_group (append_issue issue) key project_groups in
  let g := dd_modify new_group (incr_severity issue) key g in
  let g := dd_modify new_group (add_title issue) key g in
  let g := track_pairs issue key g in
  if is_fixable issue then dd_modify new_group incr_fixable key g else g.

(** The first loop of [prepare_data_project] *)
Definition project_groups (issues : list SnykIssue) : list (string * string * t) :=
  foldl accumulate_issue [] issues.

(** One element of the list [groups] *)
Definition make_group (item : string * string * t) : ProjectGroup.t :=
  let '((project_name, project_url), data) := item in
  {| ProjectGroup.project_name := project_name;
     ProjectGroup.project_url := project_url;
     ProjectGroup.total_issues := length (issues data);
     ProjectGroup.fixable_count := fixable_count data;
     ProjectGroup.severity_counts := severity_counts data;
     ProjectGroup.problem_titles := sorted_str (elements (problem_titles data));
     ProjectGroup.cve_cwe_pairs := sorted_str (elements (cve_cwe_pairs data)) |}.

Definition sorted_groups (issues : list SnykIssue) : list (string * string * t) :=
  sorted_by_key_reverse (λ x, length (ProjectAcc.issues x.2)) (project_groups issues).

Definition prepare_data_project (issues : list SnykIssue) : list ProjectGroup.t :=
  map make_group (sorted_groups issues).
End Project.

(** [sum(1 for i in issues if i.computed_fixability == "Fixable")]: the
    generator yields a 1 for each record that passes the test and [sum]
    adds them up from 0. *)
Definition sum_fixable (issues : list SnykIssue) : nat :=
  foldl (λ acc i, if is_fixable i then acc + 1 else acc) 0 issues.

Definition prepare_data (issues : list SnykIssue) (group_by : string) : Report.t :=
  let severity_counts :=
    foldl (λ d issue, count_severity (issue_severity issue) d) [] issues in
  let fixable_count := sum_fixable issues in
  let groups :=
    if decide (group_by = "project")
    then ProjectGroups (Project.prepare_data_project issues)
    else CveCweGroups (CveCwe.prepare_data_cve_cwe issues) in
  {| Report.total_issues := length issues;
     Report.total_groups := len_groups groups;
     Report.severity_counts := severity_counts;
     Report.fixable_count := fixable_count;
     Report.groups := groups;
     Report.group_by := group_by |}.

(** ** Python runtime: values

    The values the validators of [SnykIssue] can be handed and can return.
    A number is kept as its text (the source never computes with one), and
    a dictionary as its items. *)

Inductive pyval :=
  | PNone
  | PBool (b : bool)
  | PNum (text : string)
  | PStr (s : string)
  | PList (items : list pyval)
  | PDict (items : list (string * pyval))
  | PDatetime (d : datetime).

(** [str(n)] and [f"{n}"] for a number that is not negative *)
Definition str_of_nat (n : nat) : string :=
  NilZero.string_of_uint (Nat.to_uint n).

(** ** Python runtime: [json.loads]

    The decoder of the standard library (its scanner in C, [scanstring],
    the loops of the arrays and of the objects), on the UTF-8 image of its
    input.  It returns a value or raises: [json.JSONDecodeError] for a text
    that is not JSON, and, for a text that may well be JSON, what the
    interpreter raises at its limits, a [ValueError] when the text of an
    integer has more digits than [int] converts and a [RecursionError]
    when arrays and objects are nested deeper than the interpreter
    recurses.  The two limits are settings of the interpreter and are
    parameters of the model. *)

Module Json.
(** What [json.loads] raises *)
Inductive error :=
  | JSONDecodeError
  | ValueError (msg : string)
  | RecursionError.

(** [sys.get_int_max_str_digits()] (0 lifts the limit), and the number of
    arrays and objects that can be entered inside an open one before the
    interpreter raises [RecursionError]: the interpreter that runs the
    decoder has room for the outermost one. *)
Record limits := {
  int_max_str_digits : nat;
  recursion_room : nat
}.

(** A value, or what was raised (on the left) *)
Definition result (A : Type) : Type := error + A.

#[global] Instance result_bind : MBind result :=
  λ A B f x, match x with inr a => f a | inl e => inl e end.

(** A scanner that finds no match: [JSONDecodeError] *)
Definition decoded {A : Type} (x : option A) : result A :=
  match x with
  | Some a => inr a
  | None => inl JSONDecodeError
  end.

Definition quote : ascii := "034"%char.
Definition backslash : ascii := "092"%char.

(** The whitespace of JSON: space, tab, line feed, carriage return *)
Definition is_ws (c : ascii) : bool :=
  match c with
  | " "%char | "009"%char | "010"%char | "013"%char => true
  | _ => false
  end.

Fixpoint skip_ws (s : string) : string :=
  match s with
  | String c r => if is_ws c then skip_ws r else s
  | EmptyString => s
  end.

Definition is_digit (c : ascii) : bool :=
  let n := N_of_ascii c in ((48 <=? n) && (n <=? 57))%N.

Definition hex_digit (c : ascii) : option N :=
  let n := N_of_ascii c in
  if ((48 <=? n) && (n <=? 57))%N then Some (n - 48)%N
  else if ((65 <=? n) && (n <=? 70))%N then Some (n - 55)%N
  else if ((97 <=? n) && (n <=? 102))%N then Some (n - 87)%N
  else None.

(** The four hexadecimal digits of a [\uXXXX] escape *)
Definition decode_uXXXX (a b c d : ascii) : option N :=
  x3 ← hex_digit a; x2 ← hex_digit b; x1 ← hex_digit c; x0 ← hex_digit d;
  Some (x3 * 4096 + x2 * 256 + x1 * 16 + x0)%N.

Definition byte (n : N) : ascii := ascii_of_N n.

(** [chr(uni)], as UTF-8 (a lone surrogate is written like any other
    code point of its range) *)
Definition chr (uni : N) : string :=
  if (uni <? 128)%N then String (byte uni) ""
  else if (uni <? 2048)%N then
    String (byte (192 + uni / 64)) (String (byte (128 + uni mod 64)) "")
  else if (uni <? 65536)%N then
    String (byte (224 + uni / 4096))
      (String (byte (128 + (uni / 64) mod 64))
         (String (byte (128 + uni mod 64)) ""))
  else
    String (byte (240 + uni / 262144))
      (String (byte (128 + (uni / 4096) mod 64))
         (String (byte (128 + (uni / 64) mod 64))
            (String (byte (128 + uni mod 64)) ""))).

Definition is_high_surrogate (uni : N) : bool :=
  ((55296 <=? uni) && (uni <=? 56319))%N.
Definition is_low_surrogate (uni : N) : bool :=
  ((56320 <=? uni) && (uni <=? 57343))%N.
Definition join_surrogates (uni uni2 : N) : N :=
  (65536 + ((uni - 55296) * 1024 + (uni2 - 56320)))%N.

(** The one-letter escapes of a string literal *)
Definition simple_escape (e : ascii) : option ascii :=
  match e with
  | "034"%char => Some "034"%char
  | "092"%char => Some "092"%char
  | "/"%char => Some "/"%char
  | "b"%char => Some "008"%char
  | "f"%char => Some "012"%char
  | "n"%char => Some "010"%char
  | "r"%char => Some "013"%char
  | "t"%char => Some "009"%char
  | _ => None
  end.

(** [scanstring], from just after the opening quote: the decoded string
    and what follows the closing quote.  A [\uXXXX] escape of a high
    surrogate joins with a [\uXXXX] escape of a low surrogate that follows
    it; any other escaped code point stands alone. *)
Fixpoint scanstring (s : string) : option (string * string) :=
  match s with
  | EmptyString => None
  | String c r =>
      if decide (c = quote) then Some ("", r)
      else if decide (c = backslash) then
        match r with
        | EmptyString => None
        | String e r1 =>
            if decide (e = "u"%char) then
              match r1 with
              | String h1 (String h2 (String h3 (String h4 r'))) =>
                  uni ← decode_uXXXX h1 h2 h3 h4;
                  let alone :=
                    '(t, rest) ← scanstring r'; Some (chr uni +:+ t, rest) in
                  if is_high_surrogate uni then
                    match r' with
                    | String b (String u r2) =>
                        if decide (b = backslash ∧ u = "u"%char) then
                          match r2 with
                          | String g1 (String g2 (String g3 (String g4 r3))) =>
                              uni2 ← decode_uXXXX g1 g2 g3 g4;
                              if is_low_surrogate uni2 then
                                '(t, rest) ← scanstring r3;
                                Some (chr (join_surrogates uni uni2) +:+ t, rest)
                              else alone
                          | _ => None
                          end
                        else alone
                    | _ => alone
                    end
                  else alone
              | _ => None
              end
            else
              ch ← simple_escape e;
              '(t, rest) ← scanstring r1;
              Some (String ch t, rest)
        end
      else if (N_of_ascii c <? 32)%N then None
      else
        '(t, rest) ← scanstring r;
        Some (String c t, rest)
  end.

(** A maximal run of decimal digits and what follows it *)
Fixpoint span_digits (s : string) : string * string :=
  match s with
  | EmptyString => ("", "")
  | String c r =>
      if is_digit c then
        let '(d, rest) := span_digits r in (String c d, rest)
      else ("", s)
  end.

(** The integer part of a number: an optional minus sign, then either
    a single 0 or a digit from 1 to 9 and a run of digits *)
Definition scan_int (s : string) : option (string * string) :=
  match s with
  | EmptyString => None
  | String c r =>
      let '(sign, s1) := if decide (c = "-"%char) then ("-", r) else ("", s) in
      match s1 with
      | EmptyString => None
      | String d r1 =>
          if decide (d = "0"%char) then Some (sign +:+ "0", r1)
          else if is_digit d then
            let '(ds, rest) := span_digits s1 in Some (sign +:+ ds, rest)
          else None
      end
  end.

(** The optional fraction: a dot and at least one digit *)
Definition scan_frac (s : string) : string * string :=
  match s with
  | EmptyString => ("", s)
  | String c r =>
      if decide (c = "."%char) then
        match span_digits r with
        | (EmptyString, _) => ("", s)
        | (d, rest) => (String c d, rest)
        end
      else ("", s)
  end.

(** The optional exponent: e or E, an optional sign and at least one
    digit *)
Definition scan_exp (s : string) : string * string :=
  match s with
  | EmptyString => ("", s)
  | String e r =>
      if decide (e = "e"%char ∨ e = "E"%char) then
        let '(sign, r1) :=
          match r with
          | EmptyString => ("", r)
          | String c r1 =>
              if decide (c = "-"%char) then ("-", r1)
              else if decide (c = "+"%char) then ("+", r1)
              else ("", r)
          end in
        match span_digits r1 with
        | (EmptyString, _) => ("", s)
        | (d, rest) => (String e (sign +:+ d), rest)
        end
      else ("", s)
  end.

(** The digits of the text of an integer *)
Fixpoint count_digits (s : string) : nat :=
  match s with
  | EmptyString => 0
  | String c r => if is_digit c then S (count_digits r) else count_digits r
  end.

(** [int(text)] refuses a text of more digits than the limit; texts of up
    to 640 digits are never checked. *)
Definition exceeds_int_limit (lim : limits) (i : string) : bool :=
  (640 <? count_digits i) && (0 <? int_max_str_digits lim)
  && (int_max_str_digits lim <? count_digits i).

Definition int_limit_message (lim : limits) (i : string) : string :=
  "Exceeds the limit (" +:+ str_of_nat (int_max_str_digits lim)
  +:+ " digits) for integer string conversion: value has "
  +:+ str_of_nat (count_digits i)
  +:+ " digits; use sys.set_int_max_str_digits() to increase the limit".

(** A number: with a fraction or an exponent it is converted by [float],
    without by [int]. *)
Definition scan_number (lim : limits) (s : string) : result (string * string) :=
  '(i, r) ← decoded (scan_int s);
  let '(f, r) := scan_frac r in
  let '(e, r) := scan_exp r in
  match f, e with
  | EmptyString, EmptyString =>
      if exceeds_int_limit lim i then inl (ValueError (int_limit_message lim i))
      else inr (i, r)
  | _, _ => inr (i +:+ f +:+ e, r)
  end.

(** [s[idx:idx + len(p)] == p]: what follows the prefix [p] *)
Fixpoint strip_prefix (p s : string) : option string :=
  match p, s with
  | EmptyString, _ => Some s
  | String a p', String b s' =>
      if decide (a = b) then strip_prefix p' s' else None
  | String _ _, EmptyString => None
  end.

(** The literals and the numbers, in the order [scan_once] tries them *)
Definition scan_atom (lim : limits) (s : string) : result (pyval * string) :=
  match strip_prefix "null" s with
  | Some r => inr (PNone, r)
  | None =>
  match strip_prefix "true" s with
  | Some r => inr (PBool true, r)
  | None =>
  match strip_prefix "false" s with
  | Some r => inr (PBool false, r)
  | None =>
  match scan_number lim s with
  | inr (n, r) => inr (PNum n, r)
  | inl (ValueError msg) => inl (ValueError msg)
  | inl RecursionError => inl RecursionError
  | inl JSONDecodeError =>
  match strip_prefix "NaN" s with
  | Some r => inr (PNum "NaN", r)
  | None =>
  match strip_prefix "Infinity" s with
  | Some r => inr (PNum "Infinity", r)
  | None =>
  match strip_prefix "-Infinity" s with
  | Some r => inr (PNum "-Infinity", r)
  | None => inl JSONDecodeError
  end end end end end end end.

(** [dict(pairs)]: a repeated name keeps its first place and its last
    value. *)
Definition dict_of_pairs (pairs : list (string * pyval)) : list (string * pyval) :=
  foldl (λ d kv, dict_set kv.1 kv.2 d) [] pairs.

(** [scan_once], with the loops of the arrays ([scan_items], from the
    first value on) and of the objects ([scan_members], from just after the
    opening quote of a name on).  Entering an array or an object takes one
    of the [room] levels that are left, and raises [RecursionError] when
    none is.  Every call costs one unit of [fuel]; [loads] gives more than
    the input can use. *)
Fixpoint scan_once (lim : limits) (fuel room : nat) (s : string)
  : result (pyval * string) :=
  match fuel with
  | O => inl JSONDecodeError
  | S fuel =>
      match s with
      | EmptyString => inl JSONDecodeError
      | String c r =>
          if decide (c = quote) then
            '(str, rest) ← decoded (scanstring r); inr (PStr str, rest)
          else if decide (c = "{"%char) then
            match room with
            | O => inl RecursionError
            | S room =>
                match skip_ws r with
                | EmptyString => inl JSONDecodeError
                | String c1 r1 =>
                    if decide (c1 = "}"%char) then inr (PDict [], r1)
                    else if decide (c1 = quote) then
                      '(pairs, rest) ← scan_members lim fuel room r1;
                      inr (PDict (dict_of_pairs pairs), rest)
                    else inl JSONDecodeError
                end
            end
          else if decide (c = "["%char) then
            match room with
            | O => inl RecursionError
            | S room =>
                match skip_ws r with
                | EmptyString => inl JSONDecodeError
                | String c1 r1 =>
                    if decide (c1 = "]"%char) then inr (PList [], r1)
                    else
                      '(values, rest) ← scan_items lim fuel room (String c1 r1);
                      inr (PList values, rest)
                end
            end
          else scan_atom lim s
      end
  end
with scan_items (lim : limits) (fuel room : nat) (s : string)
  : result (list pyval * string) :=
  match fuel with
  | O => inl JSONDecodeError
  | S fuel =>
      '(value, r) ← scan_once lim fuel room s;
      match skip_ws r with
      | EmptyString => inl JSONDecodeError
      | String c r1 =>
          if decide (c = ","%char) then
            '(values, rest) ← scan_items lim fuel room (skip_ws r1);
            inr (value :: values, rest)
          else if decide (c = "]"%char) then inr ([value], r1)
          else inl JSONDecodeError
      end
  end
with scan_members (lim : limits) (fuel room : nat) (s : string)
  : result (list (string * pyval) * string) :=
  match fuel with
  | O => inl JSONDecodeError
  | S fuel =>
      '(key, r) ← decoded (scanstring s);
      match skip_ws r with
      | EmptyString => inl JSONDecodeError
      | String c r1 =>
          if decide (c = ":"%char) then
            '(value, r2) ← scan_once lim fuel room (skip_ws r1);
            match skip_ws r2 with
            | EmptyString => inl JSONDecodeError
            | String c2 r3 =>
                if decide (c2 = "}"%char) then inr ([(key, value)], r3)
                else if decide (c2 = ","%char) then
                  match skip_ws r3 with
                  | EmptyString => inl JSONDecodeError
                  | String c4 r4 =>
                      if decide (c4 = quote) then
                        '(pairs, rest) ← scan_members lim fuel room r4;
                        inr ((key, value) :: pairs, rest)
                      else inl JSONDecodeError
                  end
                else inl JSONDecodeError
            end
          else inl JSONDecodeError
      end
  end.

(** [json.loads(s)]: one value, with whitespace around it and nothing
    else. *)
Definition loads (lim : limits) (s : string) : result pyval :=
  '(obj, r) ← scan_once lim (S (2 * String.length s)) (S (recursion_room lim))
                (skip_ws s);
  match skip_ws r with
  | EmptyString => inr obj
  | _ => inl JSONDecodeError
  end.

(** *** The JSON text of a list of strings

    What the exporter of the CSV writes into a list-valued cell, such as
    [["CVE-2021-1234","CVE-2021-5678"]]: the literals of the strings
    between brackets, separated by a comma and the padding [pad]. *)

Definition hex_char (n : N) : ascii :=
  if (n <? 10)%N then ascii_of_N (48 + n) else ascii_of_N (87 + n).

(** One character of a string literal: the quote, the backslash and the
    control characters are escaped. *)
Definition escape_char (c : ascii) : string :=
  if decide (c = quote) then String backslash (String quote "")
  else if decide (c = backslash) then String backslash (String backslash "")
  else if decide (c = "010"%char) then String backslash "n"
  else if decide (c = "013"%char) then String backslash "r"
  else if decide (c = "009"%char) then String backslash "t"
  else if decide (c = "008"%char) then String backslash "b"
  else if decide (c = "012"%char) then String backslash "f"
  else if (N_of_ascii c <? 32)%N then
    String backslash
      (String "u" (String "0" (String "0"
         (String (hex_char (N_of_ascii c / 16))
            (String (hex_char (N_of_ascii c mod 16)) "")))))
  else String c "".

Fixpoint escape (s : string) : string :=
  match s with
  | EmptyString => ""
  | String c r => escape_char c +:+ escape r
  end.

Definition string_literal (s : string) : string :=
  String quote (escape s +:+ String quote "").

Fixpoint join_literals (pad : string) (l : list string) : string :=
  match l with
  | [] => ""
  | [x] => string_literal x
  | x :: l' => string_literal x +:+ "," +:+ pad +:+ join_literals pad l'
  end.

Definition dumps (pad : string) (l : list string) : string :=
  "[" +:+ join_literals pad l +:+ "]".
End Json.

(** ** [snyk_insights.py]: the record model *)

(** An exception: what the validators and the constructor of the model
    raise *)
Inductive exn :=
  | TypeError (msg : string)
  | ValidationError (errors : list (string * string))
  | ValueError (msg : string)
  | RecursionError.

(** The validator of the fields [cve], [cve_url] and [cwe]: of what
    [json.loads] raises only [json.JSONDecodeError] is caught. *)
Definition parse_json_array (lim : Json.limits) (v : pyval) : exn + pyval :=
  match v with
  | PStr s =>
      match Json.loads lim s with
      | inr parsed =>
          inr (match parsed with PList _ => parsed | _ => PList [] end)
      | inl Json.JSONDecodeError => inr (PList [])
      | inl (Json.ValueError msg) => inl (ValueError msg)
      | inl Json.RecursionError => inl RecursionError
      end
  | PList _ => inr v
  | _ => inr (PList [])
  end.

(** What the validation of a field gives: its value, its errors, or an
    exception of a validator that is not a [ValueError] and ends the
    validation of the record at once. *)
Inductive validated (A : Type) :=
  | Valid (a : A)
  | Invalid (errors : list (string * string))
  | Raises (e : exn).
Arguments Valid {A} a.
Arguments Invalid {A} errors.
Arguments Raises {A} e.

(** The fields are validated in the order of the class and their errors
    are collected; an exception ends the validation. *)
Definition ap {A B : Type} (f : validated (A → B)) (x : validated A)
  : validated B :=
  match f, x with
  | Raises e, _ => Raises e
  | _, Raises e => Raises e
  | Valid g, Valid a => Valid (g a)
  | Invalid e1, Invalid e2 => Invalid (e1 ++ e2)
  | Invalid e, Valid _ => Invalid e
  | Valid _, Invalid e => Invalid e
  end.

Section RecordModel.
(** [datetime.strptime(v, format)]; [None] stands for its [ValueError]. *)
Variable strptime : string → string → option datetime.

(** The validator of the field [first_introduced]; [inl msg] stands for
    [raise ValueError(msg)]. *)
Definition parse_datetime (v : pyval) : string + pyval :=
  match v with
  | PNone => inr PNone
  | PStr s =>
      if decide (s = "") then inr PNone
      else
        match strptime s "%Y-%m-%d %H:%M:%S.%f" with
        | Some d => inr (PDatetime d)
        | None =>
            match strptime s "%Y-%m-%d %H:%M:%S" with
            | Some d => inr (PDatetime d)
            | None => inl ("Unable to parse datetime: " +:+ s)
            end
        end
  | _ => inr v
  end.

(** *** The constructor: [SnykIssue] called with the row as keyword
    arguments

    The fields, their aliases, their defaults and their validators are
    those of the class.  What the validation library does with the value of
    a plain [int] field, and with a value of the timestamp field that its
    validator hands on as it is, are the parameters [validate_int] and
    [validate_datetime]: the value of the field, or the message of the
    error.  [limits] are the limits of the interpreter that [json.loads]
    meets. *)
Variable validate_int : pyval → string + Z.
Variable validate_datetime : pyval → string + datetime.
Variable limits : Json.limits.

(** [populate_by_name]: a field is given under its alias or its name. *)
Definition lookup_field (alias field : string) (kwargs : list (string * pyval))
  : option pyval :=
  match dict_get alias kwargs with
  | Some v => Some v
  | None => dict_get field kwargs
  end.

Definition int_field (alias field : string) (kwargs : list (string * pyval))
  : validated Z :=
  match lookup_field alias field kwargs with
  | None => Invalid [(alias, "Field required")]
  | Some v =>
      match validate_int v with
      | inr n => Valid n
      | inl msg => Invalid [(alias, msg)]
      end
  end.

Definition str_field (alias field : string) (kwargs : list (string * pyval))
  : validated string :=
  match lookup_field alias field kwargs with
  | None => Invalid [(alias, "Field required")]
  | Some (PStr s) => Valid s
  | Some _ => Invalid [(alias, "Input should be a valid string")]
  end.

Definition optional_str_field (alias field : string)
    (kwargs : list (string * pyval)) : validated (option string) :=
  match lookup_field alias field kwargs with
  | None | Some PNone => Valid None
  | Some (PStr s) => Valid (Some s)
  | Some _ => Invalid [(alias, "Input should be a valid string")]
  end.

(** The items of a [List[str]] *)
Fixpoint str_items (alias : string) (l : list pyval) : validated (list string) :=
  match l with
  | [] => Valid []
  | v :: l' =>
      ap (match v with
          | PStr s => Valid (cons s)
          | _ => Invalid [(alias, "Input should be a valid string")]
          end)
         (str_items alias l')
  end.

(** A list field: a [ValueError] of its validator is an error of the
    field, any other exception leaves the constructor. *)
Definition list_field (alias field : string) (kwargs : list (string * pyval))
  : validated (list string) :=
  match lookup_field alias field kwargs with
  | None => Valid []
  | Some v =>
      match parse_json_array limits v with
      | inr (PList l) => str_items alias l
      | inr _ => Invalid [(alias, "Input should be a valid list")]
      | inl (ValueError msg) => Invalid [(alias, "Value error, " +:+ msg)]
      | inl e => Raises e
      end
  end.

Definition datetime_field (alias field : string)
    (kwargs : list (string * pyval)) : validated (option datetime) :=
  match lookup_field alias field kwargs with
  | None => Valid None
  | Some v =>
      match parse_datetime v with
      | inl msg => Invalid [(alias, "Value error, " +:+ msg)]
      | inr PNone => Valid None
      | inr (PDatetime d) => Valid (Some d)
      | inr v' =>
          match validate_datetime v' with
          | inr d => Valid (Some d)
          | inl msg => Invalid [(alias, msg)]
          end
      end
  end.

(** The keyword arguments of a call: every key has to be a string. *)
Fixpoint keywords (row : list (option string * pyval))
  : option (list (string * pyval)) :=
  match row with
  | [] => Some []
  | (Some k, v) :: row' => kw ← keywords row'; Some ((k, v) :: kw)
  | (None, _) :: _ => None
  end.

Definition SnykIssue_init (row : list (option string * pyval)) : exn + SnykIssue :=
  match keywords row with
  | None => inl (TypeError "keywords must be strings")
  | Some kwargs =>
      let fields :=
        ap (ap (ap (ap (ap (ap (ap (ap (ap (ap (ap (ap (ap (ap (ap (ap
          (Valid Build_SnykIssue)
          (int_field "ISSUE_SEVERITY_RANK" "issue_severity_rank" kwargs))
          (str_field "ISSUE_SEVERITY" "issue_severity" kwargs))
          (int_field "SCORE" "score" kwargs))
          (str_field "PROBLEM_TITLE" "problem_title" kwargs))
          (list_field "CVE" "cve" kwargs))
          (list_field "CVE_URL" "cve_url" kwargs))
          (list_field "CWE" "cwe" kwargs))
          (str_field "PROJECT_NAME" "project_name" kwargs))
          (str_field "PROJECT_URL" "project_url" kwargs))
          (optional_str_field "EXPLOIT_MATURITY" "exploit_maturity" kwargs))
          (str_field "COMPUTED_FIXABILITY" "computed_fixability" kwargs))
          (datetime_field "FIRST_INTRODUCED" "first_introduced" kwargs))
          (optional_str_field "PRODUCT_NAME" "product_name" kwargs))
          (str_field "ISSUE_URL" "issue_url" kwargs))
          (str_field "ISSUE_STATUS_INDICATOR" "issue_status_indicator" kwargs))
          (str_field "ISSUE_TYPE" "issue_type" kwargs) in
      match fields with
      | Valid issue => inr issue
      | Invalid errors => inl (ValidationError errors)
      | Raises e => inl e
      end
  end.
End RecordModel.

(** ** [snyk_insights.py]: the CSV ingestor

    [rows] are the dictionaries the [csv.DictReader] yields after the header
    row; the second component of the result is what was printed to
    [sys.stderr], one entry per call of [print]. *)

Section Ingestor.
Context {Row Exn : Type}.
(** The constructor of [SnykIssue] on a row, and [str(e)] of what it
    raises *)
Variable construct : Row → Exn + SnykIssue.
Variable str_of_exn : Exn → string.

(** [enumerate(reader, start=n)] *)
Fixpoint enumerate (start : nat) (rows : list Row) : list (nat * Row) :=
  match rows with
  | [] => []
  | row :: rows' => (start, row) :: enumerate (S start) rows'
  end.

(** The body of the loop: [try] ... [except Exception as e] *)
Definition read_row (state : list SnykIssue * list string) (item : nat * Row)
  : list SnykIssue * list string :=
  let '(issues, stderr) := state in
  let '(row_num, row) := item in
  match construct row with
  | inr issue => (issues ++ [issue], stderr)
  | inl e =>
      (issues,
       (stderr ++ ["Warning: Failed to parse row " +:+ str_of_nat row_num
                   +:+ ": " +:+ str_of_exn e])%list)
  end.

Definition read_csv_to_models (rows : list Row) : list SnykIssue * list string :=
  foldl read_row ([], []) (enumerate 2 rows).
End Ingestor.

(** ** The command line program: [main], [generate_html_report] and
    [HTMLReportGenerator.generate]

    A run is what it does to the outside, in order, and how it ends.  The
    outside (the paths, the file system, the CSV reader, the constructor of
    the record, the import system and the template engine) is a record of
    functions; each of its operations that can raise says so with an
    error.  The events are the calls the source makes: what a library does
    inside such a call (the files an import reads, the templates a template
    pulls in) is the library's and is not listed. *)

Inductive event (Path : Type) :=
  | Stdout (line : string)
  | Stderr (line : string)
  | Mkdir (p : Path) (parents : bool)
  | OpenRead (p : Path)
  | Import (module : string)
  | LoadTemplate (name : string)
  | OpenWrite (p : Path)
  | WriteFile (p : Path) (content : string).
Arguments Stdout {Path} line.
Arguments Stderr {Path} line.
Arguments Mkdir {Path} p parents.
Arguments OpenRead {Path} p.
Arguments Import {Path} module.
Arguments LoadTemplate {Path} name.
Arguments OpenWrite {Path} p.
Arguments WriteFile {Path} p content.

(** How a run ends before its last statement: [sys.exit(code)] or an
    exception nobody catches *)
Inductive stop :=
  | Exit (code : Z)
  | Raised (e : string).

Definition io (Path A : Type) : Type := list (event Path) * (stop + A).

Definition io_ret {Path A : Type} (a : A) : io Path A := ([], inr a).

Definition io_bind {Path A B : Type} (m : io Path A) (k : A → io Path B)
  : io Path B :=
  let '(trace, result) := m in
  match result with
  | inl s => (trace, inl s)
  | inr a => let '(trace', result') := k a in (trace ++ trace', result')
  end.

(** One effect: it raises, or it happens *)
Definition effect {Path : Type} (error : option string) (ev : event Path)
  : io Path unit :=
  match error with
  | Some e => ([], inl (Raised e))
  | None => ([ev], inr tt)
  end.

(** [print(line)] and [print(line, file=sys.stderr)] *)
Definition print {Path : Type} (line : string) : io Path unit :=
  ([Stdout line], inr tt).
Definition print_stderr {Path : Type} (line : string) : io Path unit :=
  ([Stderr line], inr tt).

Record outside (Path Row Exn : Type) := {
  (** [str(path)], [Path(text)], [path / name], [path.parent] *)
  str_of_path : Path → string;
  path_of : string → Path;
  joinpath : Path → string → Path;
  parent : Path → Path;
  (** [path.exists()] *)
  path_exists : Path → bool;
  (** what [path.mkdir(parents=parents, exist_ok=True)] raises *)
  mkdir_error : Path → bool → option string;
  (** [open(path, 'r')] and the rows of the [csv.DictReader]: what [open]
      raises, or the rows the reader yields and what it raises after them *)
  read_csv : Path → string + (list Row * option string);
  (** the constructor of [SnykIssue] and [str] of what it raises *)
  row_constructor : Row → Exn + SnykIssue;
  exn_text : Exn → string;
  (** what the import of a module raises *)
  import_error : string → option string;
  (** what [env.get_template(name)] raises, and [template.render(data)]
      for the template of that name, or what it raises *)
  get_template_error : string → option string;
  render_template : string → Report.t → string + string;
  (** what [open(path, 'w')] and [f.write(content)] raise *)
  open_error : Path → option string;
  write_error : Path → string → option string
}.
Arguments str_of_path {Path Row Exn} o p.
Arguments path_of {Path Row Exn} o text.
Arguments joinpath {Path Row Exn} o p name.
Arguments parent {Path Row Exn} o p.
Arguments path_exists {Path Row Exn} o p.
Arguments mkdir_error {Path Row Exn} o p parents.
Arguments read_csv {Path Row Exn} o p.
Arguments row_constructor {Path Row Exn} o row.
Arguments exn_text {Path Row Exn} o e.
Arguments import_error {Path Row Exn} o module.
Arguments get_template_error {Path Row Exn} o name.
Arguments render_template {Path Row Exn} o name data.
Arguments open_error {Path Row Exn} o p.
Arguments write_error {Path Row Exn} o p content.

(** The parsed command line *)
Record arguments (Path : Type) := {
  csv_file : Path;
  output_file : option Path;
  group_by : string
}.
Arguments csv_file {Path} a.
Arguments output_file {Path} a.
Arguments group_by {Path} a.

Section Program.
Context {Path Row Exn : Type} (o : outside Path Row Exn).

(** [read_csv_to_models], with the file and the diagnostic stream *)
Definition read_csv_file (csv_path : Path) : io Path (list SnykIssue) :=
  match read_csv o csv_path with
  | inl e => ([], inl (Raised e))
  | inr (rows, failure) =>
      let result := read_csv_to_models (row_constructor o) (exn_text o) rows in
      (OpenRead csv_path :: (Stderr <$> result.2),
       match failure with
       | Some e => inl (Raised e)
       | None => inr result.1
       end)
  end.

(** The template [generate] selects *)
Definition template_name (group_by : string) : string :=
  if decide (group_by = "project") then "report_project.html"
  else "report_cve_cwe.html".

(** [HTMLReportGenerator.generate] *)
Definition generate (issues : list SnykIssue) (output_path : Path)
    (group_by : string) : io Path unit :=
  let data := prepare_data issues group_by in
  io_bind (effect (get_template_error o (template_name group_by))
                  (LoadTemplate (template_name group_by))) (λ _,
  match render_template o (template_name group_by) data with
  | inl e => ([], inl (Raised e))
  | inr html_content =>
      io_bind (effect (open_error o output_path) (OpenWrite output_path)) (λ _,
      effect (write_error o output_path html_content)
             (WriteFile output_path html_content))
  end).

(** [generate_html_report]: the import of the module of the generator, and
    a generator with the default templates *)
Definition generate_html_report (issues : list SnykIssue) (output_path : Path)
    (group_by : string) : io Path unit :=
  io_bind (effect (import_error o "html_report") (Import "html_report")) (λ _,
  generate issues output_path group_by).

(** The part of [main] that determines the output path *)
Definition resolve_output (args : arguments Path) : io Path Path :=
  match output_file args with
  | None =>
      let output_dir := path_of o "output" in
      io_bind (effect (mkdir_error o output_dir false) (Mkdir output_dir false)) (λ _,
      io_ret (if decide (group_by args = "project")
              then joinpath o output_dir "report_project.html"
              else joinpath o output_dir "report_cve_cwe.html"))
  | Some output_path =>
      io_bind (effect (mkdir_error o (parent o output_path) true)
                      (Mkdir (parent o output_path) true)) (λ _,
      io_ret output_path)
  end.

(** [main], from the parsed command line on: what [parser.parse_args()]
    does with a malformed command line is the argument parser's and is not
    modelled; [args] is what it returns (any strategy name is allowed for,
    the parser admits two). *)
Definition main (args : arguments Path) : io Path unit :=
  if negb (path_exists o (csv_file args)) then
    io_bind (print_stderr ("Error: File not found: " +:+ str_of_path o (csv_file args)))
      (λ _, ([], inl (Exit 1)))
  else
    io_bind (resolve_output args) (λ output_path,
    io_bind (print ("Reading CSV file: " +:+ str_of_path o (csv_file args))) (λ _,
    io_bind (read_csv_file (csv_file args)) (λ issues,
    io_bind (print ("Successfully parsed " +:+ str_of_nat (length issues)
                    +:+ " issues")) (λ _,
    io_bind (generate_html_report issues output_path (group_by args)) (λ _,
    print ("HTML report generated: " +:+ str_of_path o output_path)))))).
End Program.

(** ** Notions the properties are stated with *)

(** The keys the two nested loops over [cves] and [cwes] visit, in the
    order of the visits *)
Definition cve_cwe_keys (issue : SnykIssue) : list (string * string) :=
  cve ← cves_of issue; cwe ← cwes_of issue; [(cve, cwe)].

(** The position at which [x] first occurs in [l] *)
Definition first_index {A : Type} `{EqDecision A} (x : A) (l : list A)
  : option nat :=
  fst <$> list_find (λ y, y = x) l.

(** [x] stands before [y] in [l] *)
Definition stands_before {A : Type} (x y : A) (l : list A) : Prop :=
  ∃ l1 l2 l3, l = l1 ++ x :: l2 ++ y :: l3.

(** The sum of the values of a histogram *)
Definition sum_values (d : list (string * nat)) : nat :=
  sum_list (d.*2).

(** The count a histogram holds for a label (0 when it has none) *)
Definition count_of (label : string) (d : list (string * nat)) : nat :=
  default 0 (dict_get label d).

(** The five statements of the loop body of [prepare_data_cve_cwe] as one
    change of the group *)
Definition cve_cwe_add_issue (issue : SnykIssue) (d : CveCweAcc.t) : CveCweAcc.t :=
  let d := CveCwe.add_title issue
             (CveCwe.set_project issue
                (CveCwe.incr_severity issue (CveCwe.append_issue issue d))) in
  if is_fixable issue then CveCwe.incr_fixable d else d.

(** The records accumulated into the group of [key], in the order of their
    accumulation: a record comes once for each visit of [key] in its loops. *)
Definition cve_cwe_members (key : string * string) (issues : list SnykIssue)
  : list SnykIssue :=
  issue ← issues; k ← cve_cwe_keys issue; if decide (k = key) then [issue] else [].

(** The key of a record in the project strategy *)
Definition project_key (issue : SnykIssue) : string * string :=
  (project_name issue, project_url issue).

(** The loop body of [prepare_data_project] as one change of the group *)
Definition project_add_issue (issue : SnykIssue) (d : ProjectAcc.t) : ProjectAcc.t :=
  let d := Project.add_title issue
             (Project.incr_severity issue (Project.append_issue issue d)) in
  let d := foldl (λ d cve, foldl (λ d cwe, Project.add_pair cve cwe d) d (cwes_of issue))
                 d (cves_of issue) in
  if is_fixable issue then Project.incr_fixable d else d.

(** The records of the project [key], in input order *)
Definition project_members (key : string * string) (issues : list SnykIssue)
  : list SnykIssue :=
  filter (λ issue, project_key issue = key) issues.

(** The label strings of the pairs of a record *)
Definition pair_labels (issue : SnykIssue) : list string :=
  (λ k, Project.pair_label k.1 k.2) <$> cve_cwe_keys issue.

(** A loop of accesses to a [defaultdict]: each visit [(k, i)] changes the
    value at [k] by [step i]. *)
Definition dd_run {K I V : Type} `{EqDecision K} (factory : V)
    (step : I → V → V) (d : list (K * V)) (visits : list (K * I)) : list (K * V) :=
  foldl (λ d visit, dd_modify factory (step visit.2) visit.1 d) d visits.

(** The visits of the loops of [prepare_data_cve_cwe] over a list of
    records: the keys of each record, with the record *)
Definition cve_cwe_visits (issues : list SnykIssue)
  : list (string * string * SnykIssue) :=
  issue ← issues; (λ k, (k, issue)) <$> cve_cwe_keys issue.

(** A group after the records [ms] were accumulated into it, one by one *)
Definition cve_cwe_fold (d : CveCweAcc.t) (ms : list SnykIssue) : CveCweAcc.t :=
  foldl (λ d issue, cve_cwe_add_issue issue d) d ms.

Definition project_fold (d : ProjectAcc.t) (ms : list SnykIssue) : ProjectAcc.t :=
  foldl (λ d issue, project_add_issue issue d) d ms.

(** ** Sample records *)

Definition sample_issue (severity title : string) (cves cwes : list string)
    (project url fixability : string) : SnykIssue :=
  {| issue_severity_rank := 1; issue_severity := severity; score := 0;
     problem_title := title; cve := cves; cve_url := []; cwe := cwes;
     project_name := project; project_url := url; exploit_maturity := None;
     computed_fixability := fixability; first_introduced := None;
     product_name := None; issue_url := ""; issue_status_indicator := "Open";
     issue_type := "Vulnerability" |}.

(** A record with two CVEs and one CWE *)
Definition sample_record : SnykIssue :=
  sample_issue "high" "Injection" ["CVE-1"; "CVE-2"] ["CWE-A"]
    "web" "https://snyk.example/web" "Fixable".

(** A record whose CVE list names one CVE twice *)
Definition repeated_cve_record : SnykIssue :=
  sample_issue "high" "Injection" ["CVE-1"; "CVE-1"] ["CWE-A"]
    "web" "https://snyk.example/web" "Fixable".

(** A record with no CVE and no CWE *)
Definition sample_bare_record : SnykIssue :=
  sample_issue "medium" "Leak" [] [] "web" "https://snyk.example/web" "Fixable".

(** Four records: the pair (CVE-2, CWE-A) is met second and holds two of
    them, the pairs (CVE-1, CWE-A) and (CVE-3, CWE-B) hold one each. *)
Definition sample_issues : list SnykIssue :=
  [ sample_issue "high" "Injection" ["CVE-1"; "CVE-2"] ["CWE-A"]
      "web" "https://snyk.example/web" "Fixable";
    sample_issue "low" "Overflow" ["CVE-3"] ["CWE-B"]
      "api" "https://snyk.example/api" "Partially Fixable";
    sample_issue "high" "Injection" ["CVE-2"] ["CWE-A"]
      "api" "https://snyk.example/api" "fixable";
    sample_issue "medium" "Leak" [] []
      "web" "https://snyk.example/web" "Fixable" ].

(** Two records of one (cve, cwe) pair, of a project of one name under two
    URLs *)
Definition two_url_issues : list SnykIssue :=
  [ sample_issue "high" "Injection" ["CVE-1"] ["CWE-A"]
      "web" "https://snyk.example/old" "Fixable";
    sample_issue "high" "Injection" ["CVE-1"] ["CWE-A"]
      "web" "https://snyk.example/new" "Fixable" ].

(** The entry of a record's project in a group's project list *)
Definition project_entry_of (issue : SnykIssue) : project_entry :=
  {| name := project_name issue; url := project_url issue |}.

(** The dictionary [projects] of a group after the records [ms] *)
Definition projects_of (ms : list SnykIssue) : list (string * string) :=
  foldl (λ p i, dict_set (project_name i) (project_url i) p) [] ms.

(** What follows the literal of the first string of a list *)
Definition after_first (pad : string) (l : list string) (tl : string) : string :=
  match l with
  | [] => tl
  | _ => String ","%char (pad +:+ Json.join_literals pad l +:+ tl)
  end.

(** ** Sample rows

    The library functions the record model is parametrised by, in a form
    small enough to run the examples: a [strptime] that knows two
    timestamps, an integer validation that reads plain decimal numerals,
    and a rendering of an exception. *)

Definition sample_strptime (s format : string) : option datetime :=
  if decide (s = "2024-03-01 10:20:30.500000" ∧ format = "%Y-%m-%d %H:%M:%S.%f")
  then Some {| year := 2024; month := 3; day := 1;
               hour := 10; minute := 20; second := 30; microsecond := 500000 |}
  else if decide (s = "2024-03-01 10:20:30" ∧ format = "%Y-%m-%d %H:%M:%S")
  then Some {| year := 2024; month := 3; day := 1;
               hour := 10; minute := 20; second := 30; microsecond := 0 |}
  else None.

Fixpoint decimal_digits (acc : Z) (s : string) : option Z :=
  match s with
  | EmptyString => Some acc
  | String c r =>
      if Json.is_digit c
      then decimal_digits (10 * acc + Z.of_N (N_of_ascii c - 48)) r
      else None
  end.

Definition decimal_int (v : pyval) : string + Z :=
  match v with
  | PStr (String c r) =>
      match decimal_digits 0 (String c r) with
      | Some n => inr n
      | None =>
          inl "Input should be a valid integer, unable to parse string as an integer"
      end
  | PStr EmptyString =>
      inl "Input should be a valid integer, unable to parse string as an integer"
  | _ => inl "Input should be a valid integer"
  end.

(** A validation of timestamps that accepts nothing but a timestamp *)
Definition no_datetime (v : pyval) : string + datetime :=
  inl "Input should be a valid datetime".

(** The limits of an interpreter with its default settings, called with a
    few frames on its stack *)
Definition sample_limits : Json.limits :=
  {| Json.int_max_str_digits := 4300; Json.recursion_room := 990 |}.



Definition sample_str_of_exn (e : exn) : string :=
  match e with
  | TypeError msg => msg
  | ValidationError errors =>
      foldr (λ error text, error.1 +:+ ": " +:+ error.2 +:+ "; " +:+ text) "" errors
  | ValueError msg => msg
  | RecursionError => "maximum recursion depth exceeded"
  end.

(** A row of the CSV, with the cells of the columns CVE and FIRST_INTRODUCED
    and, when [issue_url] is given, of the column ISSUE_URL *)
Definition sample_row (cve_cell first_introduced : string)
    (issue_url : option string) : list (option string * pyval) :=
  [ (Some "ISSUE_SEVERITY_RANK", PStr "2"); (Some "ISSUE_SEVERITY", PStr "high");
    (Some "SCORE", PStr "700"); (Some "PROBLEM_TITLE", PStr "Injection");
    (Some "CVE", PStr cve_cell); (Some "CVE_URL", PStr "[]");
    (Some "CWE", PStr "not-json");
    (Some "PROJECT_NAME", PStr "web"); (Some "PROJECT_URL", PStr "https://snyk.example/web");
    (Some "EXPLOIT_MATURITY", PStr "Mature");
    (Some "COMPUTED_FIXABILITY", PStr "Fixable");
    (Some "FIRST_INTRODUCED", PStr first_introduced);
    (Some "PRODUCT_NAME", PStr "Snyk Open Source") ]
  ++ match issue_url with
     | Some u => [(Some "ISSUE_URL", PStr u)]
     | None => []
     end
  ++ [ (Some "ISSUE_STATUS_INDICATOR", PStr "Open");
       (Some "ISSUE_TYPE", PStr "Vulnerability") ].

(** Three rows: the second has no ISSUE_URL. *)
Definition sample_rows : list (list (option string * pyval)) :=
  [ sample_row (Json.dumps "" ["CVE-1"; "CVE-2"]) "2024-03-01 10:20:30"
      (Some "https://snyk.example/issue/1");
    sample_row "[]" "" None;
    sample_row "[]" "2024-03-01 10:20:30.500000"
      (Some "https://snyk.example/issue/3") ].

(** A row with the ten columns that have no default, and no other *)
Definition minimal_row : list (option string * pyval) :=
  [ (Some "ISSUE_SEVERITY_RANK", PStr "2"); (Some "ISSUE_SEVERITY", PStr "high");
    (Some "SCORE", PStr "700"); (Some "PROBLEM_TITLE", PStr "Injection");
    (Some "PROJECT_NAME", PStr "web"); (Some "PROJECT_URL", PStr "https://snyk.example/web");
    (Some "COMPUTED_FIXABILITY", PStr "Fixable");
    (Some "ISSUE_URL", PStr "https://snyk.example/issue/1");
    (Some "ISSUE_STATUS_INDICATOR", PStr "Open");
    (Some "ISSUE_TYPE", PStr "Vulnerability") ].

(** The line the ingestor prints for the row [row_num] that raised [e] *)
Definition warning (row_num : nat) (message : string) : string :=
  "Warning: Failed to parse row " +:+ str_of_nat row_num +:+ ": " +:+ message.

(** ** Notions of the further properties *)


(** The columns the record model declares with a default *)
Definition optional_columns : list (string * string) :=
  [ ("CVE", "cve"); ("CVE_URL", "cve_url"); ("CWE", "cwe");
    ("EXPLOIT_MATURITY", "exploit_maturity");
    ("FIRST_INTRODUCED", "first_introduced");
    ("PRODUCT_NAME", "product_name") ].

(** The columns of the list fields *)
Definition list_columns : list (string * string) :=
  [ ("CVE", "cve"); ("CVE_URL", "cve_url"); ("CWE", "cwe") ].

(** The errors of a validated field, and the exception that ended its
    validation *)
Definition errors_of {A : Type} (x : validated A) : list (string * string) :=
  match x with
  | Invalid e => e
  | _ => []
  end.

Definition raise_of {A : Type} (x : validated A) : option exn :=
  match x with
  | Raises e => Some e
  | _ => None
  end.

(** The errors of the sixteen fields on the keyword arguments of a call, in
    the order of the class *)
Definition field_errors (strptime : string → string → option datetime)
    (validate_int : pyval → string + Z)
    (validate_datetime : pyval → string + datetime) (lim : Json.limits)
    (kwargs : list (string * pyval))
  : list (string * string) :=
  errors_of (int_field validate_int "ISSUE_SEVERITY_RANK" "issue_severity_rank" kwargs)
  ++ errors_of (str_field "ISSUE_SEVERITY" "issue_severity" kwargs)
  ++ errors_of (int_field validate_int "SCORE" "score" kwargs)
  ++ errors_of (str_field "PROBLEM_TITLE" "problem_title" kwargs)
  ++ errors_of (list_field lim "CVE" "cve" kwargs)
  ++ errors_of (list_field lim "CVE_URL" "cve_url" kwargs)
  ++ errors_of (list_field lim "CWE" "cwe" kwargs)
  ++ errors_of (str_field "PROJECT_NAME" "project_name" kwargs)
  ++ errors_of (str_field "PROJECT_URL" "project_url" kwargs)
  ++ errors_of (optional_str_field "EXPLOIT_MATURITY" "exploit_maturity" kwargs)
  ++ errors_of (str_field "COMPUTED_FIXABILITY" "computed_fixability" kwargs)
  ++ errors_of (datetime_field strptime validate_datetime
                  "FIRST_INTRODUCED" "first_introduced" kwargs)
  ++ errors_of (optional_str_field "PRODUCT_NAME" "product_name" kwargs)
  ++ errors_of (str_field "ISSUE_URL" "issue_url" kwargs)
  ++ errors_of (str_field "ISSUE_STATUS_INDICATOR" "issue_status_indicator" kwargs)
  ++ errors_of (str_field "ISSUE_TYPE" "issue_type" kwargs).

(** The validator of a list field raises [RecursionError] on the cell of
    one of the three list columns. *)
Definition list_cell_overflows (lim : Json.limits)
    (kwargs : list (string * pyval)) : Prop :=
  ∃ alias field v,
    (alias, field) ∈ list_columns
    ∧ lookup_field alias field kwargs = Some v
    ∧ parse_json_array lim v = inl RecursionError.


(** The number of times [x] occurs in [l] *)
Definition occurrences {A : Type} `{EqDecision A} (x : A) (l : list A) : nat :=
  length (filter (λ y, y = x) l).

(** The group of a key in the list [groups] of a report *)
Definition cve_cwe_group_at (key : string * string) (gs : list CveCweGroup.t)
  : option CveCweGroup.t :=
  head (filter (λ g, (CveCweGroup.cve g, CveCweGroup.cwe g) = key) gs).

Definition project_group_at (key : string * string) (gs : list ProjectGroup.t)
  : option ProjectGroup.t :=
  head (filter (λ g, (ProjectGroup.project_name g, ProjectGroup.project_url g) = key)
               gs).

(** The path [main] hands to the report generator, and the directory it
    creates first, with the flag [parents] of the call *)
Definition output_path_of {Path Row Exn : Type} (o : outside Path Row Exn)
    (args : arguments Path) : Path :=
  match output_file args with
  | None => joinpath o (path_of o "output") (template_name (group_by args))
  | Some output_path => output_path
  end.

Definition output_dir_of {Path Row Exn : Type} (o : outside Path Row Exn)
    (args : arguments Path) : Path * bool :=
  match output_file args with
  | None => (path_of o "output", false)
  | Some output_path => (parent o output_path, true)
  end.

(** The events that make or change something: a directory, a file *)
Definition is_change {Path : Type} (ev : event Path) : bool :=
  match ev with
  | Mkdir _ _ | OpenWrite _ | WriteFile _ _ => true
  | _ => false
  end.

Definition is_write {Path : Type} (ev : event Path) : bool :=
  match ev with
  | WriteFile _ _ => true
  | _ => false
  end.

(** What reading the rows [rows] gives: the records and the warnings *)
Definition records_of {Path Row Exn : Type} (o : outside Path Row Exn)
    (rows : list Row) : list SnykIssue :=
  (read_csv_to_models (row_constructor o) (exn_text o) rows).1.

Definition warnings_of {Path Row Exn : Type} (o : outside Path Row Exn)
    (rows : list Row) : list string :=
  (read_csv_to_models (row_constructor o) (exn_text o) rows).2.

(** ** A sample outside

    Paths are their text; the only file is issues.csv, which holds the
    sample rows; nothing fails; a template renders to its name and the
    totals of the report. *)

Fixpoint dirname (s : string) : option string :=
  match s with
  | EmptyString => None
  | String c r =>
      match dirname r with
      | Some d => Some (String c d)
      | None => if decide (c = "/"%char) then Some EmptyString else None
      end
  end.

Definition sample_outside
  : outside string (list (option string * pyval)) exn :=
  {| str_of_path := λ p, p;
     path_of := λ text, text;
     joinpath := λ p name, p +:+ "/" +:+ name;
     parent := λ p, default "." (dirname p);
     path_exists := λ p, bool_decide (p = "issues.csv");
     mkdir_error := λ _ _, None;
     read_csv := λ _, inr (sample_rows, None);
     row_constructor := SnykIssue_init sample_strptime decimal_int no_datetime sample_limits;
     exn_text := sample_str_of_exn;
     import_error := λ _, None;
     get_template_error := λ _, None;
     render_template := λ name data,
       inr (name +:+ ": " +:+ str_of_nat (Report.total_issues data) +:+ " issues in "
            +:+ str_of_nat (Report.total_groups data) +:+ " groups");
     open_error := λ _, None;
     write_error := λ _ _, None |}.

Definition sample_arguments : arguments string :=
  {| csv_file := "issues.csv"; output_file := None; group_by := "project" |}.

(** * Facts about the runtime model *)

Section DictFacts.
Context {K V : Type} `{EqDecision K}.
Implicit Types (k : K) (v : V) (d : list (K * V)).

Lemma dict_get_None k d : dict_get k d = None ↔ k ∉ d.*1.
Proof.
  induction d as [|[k' v'] d IH]; simpl.
  - split; [intros _; apply not_elem_of_nil | done].
  - case_decide as E; rewrite not_elem_of_cons.
    + split; [done | intros [? _]; done].
    + rewrite IH. tauto.
Qed.

Lemma dict_get_Some_elem k v d : dict_get k d = Some v → (k, v) ∈ d.
Proof.
  induction d as [|[k' v'] d IH]; simpl; [done|].
  case_decide as E.
  - intros [= <-]. subst. left.
  - intros. right. auto.
Qed.

Lemma dict_get_elem k v d : NoDup d.*1 → (k, v) ∈ d → dict_get k d = Some v.
Proof.
  induction d as [|[k' v'] d IH]; simpl.
  - intros _ Hin. by apply elem_of_nil in Hin.
  - rewrite NoDup_cons. intros [Hk Hd] Hin.
    apply elem_of_cons in Hin as [[= -> ->]|Hin].
    + by rewrite decide_True.
    + rewrite decide_False; [auto|].
      intros ->. apply Hk. apply list_elem_of_fmap. by exists (k', v).
Qed.

Lemma dd_modify_get fac f k d :
  dict_get k (dd_modify fac f k d) = Some (f (default fac (dict_get k d))).
Proof.
  induction d as [|[k' v'] d IH]; simpl.
  - by rewrite decide_True.
  - case_decide as E; simpl.
    + by rewrite decide_True.
    + by rewrite decide_False.
Qed.

Lemma dd_modify_get_ne fac f k k' d :
  k ≠ k' → dict_get k' (dd_modify fac f k d) = dict_get k' d.
Proof.
  intros Hne. induction d as [|[k0 v0] d IH]; simpl.
  - by rewrite decide_False.
  - case_decide as E; simpl.
    + subst. rewrite !decide_False; [done | by intros -> ..].
    + by rewrite IH.
Qed.

Lemma dd_modify_keys fac f k d :
  (dd_modify fac f k d).*1 = if decide (k ∈ d.*1) then d.*1 else d.*1 ++ [k].
Proof.
  induction d as [|[k' v'] d IH]; [done|].
  cbn [dd_modify dict_set fmap list_fmap fst].
  destruct (decide (k = k')) as [->|E]; cbn [fmap list_fmap fst].
  - rewrite decide_True; [done | left].
  - fold (fmap (M:=list) (@fst K V)). rewrite IH.
    destruct (decide (k ∈ d.*1)) as [E2|E2].
    + rewrite decide_True; [done | by right].
    + rewrite decide_False; [done|].
      rewrite not_elem_of_cons. done.
Qed.

Lemma dd_modify_twice fac f g k d :
  dd_modify fac g k (dd_modify fac f k d) = dd_modify fac (g ∘ f) k d.
Proof.
  induction d as [|[k' v'] d IH]; simpl.
  - by rewrite decide_True.
  - case_decide as E; simpl.
    + by rewrite decide_True.
    + rewrite decide_False; [|done]. by rewrite IH.
Qed.

Lemma dd_modify_ext fac f g k d :
  (∀ x, f x = g x) → dd_modify fac f k d = dd_modify fac g k d.
Proof.
  intros Hfg. induction d as [|[k' v'] d IH]; simpl.
  - by rewrite Hfg.
  - case_decide; [by rewrite Hfg | by rewrite IH].
Qed.

Lemma dd_modify_NoDup fac f k d : NoDup d.*1 → NoDup (dd_modify fac f k d).*1.
Proof.
  intros Hnd. rewrite dd_modify_keys. case_decide as E; [done|].
  apply NoDup_app. split_and!; [done | | apply NoDup_singleton].
  intros x Hx ->%list_elem_of_singleton. done.
Qed.

Lemma dict_set_get k v d : dict_get k (dict_set k v d) = Some v.
Proof.
  induction d as [|[k' v'] d IH]; simpl.
  - by rewrite decide_True.
  - case_decide as E; simpl.
    + by rewrite decide_True.
    + by rewrite decide_False.
Qed.

Lemma dict_set_get_ne k k' v d :
  k ≠ k' → dict_get k' (dict_set k v d) = dict_get k' d.
Proof.
  intros Hne. induction d as [|[k0 v0] d IH]; simpl.
  - by rewrite decide_False.
  - case_decide as E; simpl.
    + subst. by rewrite !decide_False.
    + by rewrite IH.
Qed.

Lemma dict_set_keys k v d :
  (dict_set k v d).*1 = if decide (k ∈ d.*1) then d.*1 else d.*1 ++ [k].
Proof.
  induction d as [|[k' v'] d IH]; [done|].
  cbn [dd_modify dict_set fmap list_fmap fst].
  destruct (decide (k = k')) as [->|E]; cbn [fmap list_fmap fst].
  - rewrite decide_True; [done | left].
  - fold (fmap (M:=list) (@fst K V)). rewrite IH.
    destruct (decide (k ∈ d.*1)) as [E2|E2].
    + rewrite decide_True; [done | by right].
    + rewrite decide_False; [done|].
      rewrite not_elem_of_cons. done.
Qed.

Lemma dict_set_NoDup k v d : NoDup d.*1 → NoDup (dict_set k v d).*1.
Proof.
  intros Hnd. rewrite dict_set_keys. case_decide as E; [done|].
  apply NoDup_app. split_and!; [done | | apply NoDup_singleton].
  intros x Hx ->%list_elem_of_singleton. done.
Qed.
End DictFacts.

Section OrderFacts.
Context {A : Type}.
Implicit Types (x y z : A) (l : list A).

Lemma stands_before_nil x y : ¬ stands_before x y [].
Proof. intros (l1 & l2 & l3 & E). by destruct l1. Qed.

Lemma stands_before_cons x y z l :
  stands_before x y (z :: l) ↔ (z = x ∧ y ∈ l) ∨ stands_before x y l.
Proof.
  split.
  - intros (l1 & l2 & l3 & E). destruct l1 as [|a l1]; simplify_eq/=.
    + left. split; [done|]. set_solver.
    + right. by exists l1, l2, l3.
  - intros [[-> Hy]|(l1 & l2 & l3 & ->)].
    + apply list_elem_of_split in Hy as (l2 & l3 & ->). by exists [], l2, l3.
    + by exists (z :: l1), l2, l3.
Qed.

Lemma stands_before_snoc x y z l :
  stands_before x y (l ++ [z]) ↔ stands_before x y l ∨ (x ∈ l ∧ y = z).
Proof.
  induction l as [|a l IH]; simpl.
  - rewrite stands_before_cons. split.
    + intros [[_ H]|H]; [by apply elem_of_nil in H | by apply stands_before_nil in H].
    + intros [H|[H _]]; [by apply stands_before_nil in H | by apply elem_of_nil in H].
  - rewrite !stands_before_cons, IH, elem_of_app, list_elem_of_singleton, elem_of_cons.
    naive_solver.
Qed.

Lemma stands_before_elem x y l : stands_before x y l → x ∈ l ∧ y ∈ l.
Proof. intros (l1 & l2 & l3 & ->). set_solver. Qed.

Lemma stands_before_lookup x y l :
  stands_before x y l ↔ ∃ i j, i < j ∧ l !! i = Some x ∧ l !! j = Some y.
Proof.
  induction l as [|a l IH].
  - split; [by intros ?%stands_before_nil | by intros (i & j & _ & ? & _)].
  - rewrite stands_before_cons, IH. split.
    + intros [[-> Hy]|(i & j & Hij & Hi & Hj)].
      * apply list_elem_of_lookup in Hy as [j Hj]. exists 0, (S j). split_and!; [lia|done..].
      * exists (S i), (S j). split_and!; [lia|done..].
    + intros (i & j & Hij & Hi & Hj). destruct j as [|j]; [lia|].
      destruct i as [|i]; simplify_eq/=.
      * left. split; [done|]. by eapply list_elem_of_lookup_2.
      * right. exists i, j. split_and!; [lia|done..].
Qed.

Lemma stands_before_fmap {B} (f : A → B) x y l :
  stands_before x y l → stands_before (f x) (f y) (f <$> l).
Proof.
  intros (l1 & l2 & l3 & ->). exists (f <$> l1), (f <$> l2), (f <$> l3).
  by rewrite !fmap_app, !fmap_cons, !fmap_app, !fmap_cons.
Qed.

Context `{EqDecision A}.

Lemma first_index_Some x l i :
  first_index x l = Some i ↔ l !! i = Some x ∧ ∀ j, j < i → l !! j ≠ Some x.
Proof.
  unfold first_index. split.
  - intros H. apply fmap_Some in H as ([i' x'] & H & ->).
    apply list_find_Some in H as (Hl & -> & Hmin). split; [done|].
    intros j Hj Hlj. by apply (Hmin j x).
  - intros [Hl Hmin]. apply fmap_Some. exists (i, x). split; [|done].
    apply list_find_Some. split_and!; [done..|].
    intros j y Hlj Hj ->. by apply (Hmin j).
Qed.

Lemma first_index_elem x l : x ∈ l → ∃ i, first_index x l = Some i.
Proof.
  intros Hx. unfold first_index.
  destruct (list_find_elem_of (λ y, y = x) l x Hx eq_refl) as [[i y] ->].
  by exists i.
Qed.

Lemma first_index_lt x l i : first_index x l = Some i → i < length l.
Proof. intros [H _]%first_index_Some. by eapply lookup_lt_Some. Qed.

Lemma first_index_app_l x l l' i :
  first_index x l = Some i → first_index x (l ++ l') = Some i.
Proof.
  rewrite !first_index_Some. intros [Hl Hmin]. split.
  - by apply lookup_app_l_Some.
  - intros j Hj. rewrite lookup_app_l; [by apply Hmin|].
    apply lookup_lt_Some in Hl. lia.
Qed.

Lemma first_index_app_new x l : x ∉ l → first_index x (l ++ [x]) = Some (length l).
Proof.
  intros Hx. apply first_index_Some. split.
  - by rewrite list_lookup_middle.
  - intros j Hj. rewrite lookup_app_l by done.
    intros Hl. apply Hx. by eapply list_elem_of_lookup_2.
Qed.
End OrderFacts.

Section SortedFacts.
Context {A : Type} (lt : A → A → bool).
Implicit Types (x y z : A) (l : list A).

Lemma sorted_insert_perm x l : sorted_insert lt x l ≡ₚ x :: l.
Proof.
  induction l as [|y l IH]; simpl; [done|].
  destruct (lt y x); [|done].
  by rewrite IH, Permutation_swap.
Qed.

Lemma sorted_with_perm l : sorted_with lt l ≡ₚ l.
Proof.
  induction l as [|x l IH]; simpl; [done|].
  by rewrite sorted_insert_perm, IH.
Qed.

Lemma elem_of_sorted_with x l : x ∈ sorted_with lt l ↔ x ∈ l.
Proof. by rewrite sorted_with_perm. Qed.

Lemma length_sorted_with l : length (sorted_with lt l) = length l.
Proof. by rewrite sorted_with_perm. Qed.

(** An element that ends up behind another was behind it before, or is
    strictly after it in the order of the sort. *)
Lemma sorted_insert_before a x y l :
  stands_before x y (sorted_insert lt a l) →
  stands_before x y l ∨ (x = a ∧ y ∈ l) ∨ (y = a ∧ x ∈ l ∧ lt x a = true).
Proof.
  induction l as [|z l IH]; simpl.
  - intros H. apply stands_before_cons in H as [[_ H]|H].
    + by apply elem_of_nil in H.
    + by apply stands_before_nil in H.
  - destruct (lt z a) eqn:Hz; rewrite !stands_before_cons.
    + intros [[-> Hy]|H].
      * rewrite sorted_insert_perm in Hy. apply elem_of_cons in Hy as [->|Hy].
        -- right; right. split_and!; [done | left | done].
        -- left. by left.
      * destruct (IH H) as [?|[[-> ?]|(-> & ? & ?)]].
        -- left. by right.
        -- right; left. split; [done | by right].
        -- right; right. split_and!; [done | by right | done].
    + intros [[<- Hy]|H].
      * right; left. done.
      * left. done.
Qed.

Lemma sorted_with_stable x y l :
  stands_before x y (sorted_with lt l) → stands_before x y l ∨ lt x y = true.
Proof.
  revert x y. induction l as [|a l IH]; intros x y; simpl.
  - by intros ?%stands_before_nil.
  - intros H. apply sorted_insert_before in H as [H|[[-> H]|(-> & _ & H)]].
    + destruct (IH _ _ H) as [?|?]; [left | by right].
      apply stands_before_cons. by right.
    + left. apply stands_before_cons. left. split; [done|].
      by rewrite elem_of_sorted_with in H.
    + by right.
Qed.

Hypothesis lt_asym : ∀ x y, lt x y = true → lt y x = false.
Hypothesis lt_negtrans : ∀ x y z, lt y x = false → lt z y = false → lt z x = false.

Lemma sorted_insert_ordered a l :
  (∀ x y, stands_before x y l → lt y x = false) →
  ∀ x y, stands_before x y (sorted_insert lt a l) → lt y x = false.
Proof.
  induction l as [|z l IH]; intros Hl x y; simpl.
  - intros H. apply stands_before_cons in H as [[_ H]|H].
    + by apply elem_of_nil in H.
    + by apply stands_before_nil in H.
  - destruct (lt z a) eqn:Hz; rewrite !stands_before_cons.
    + intros [[-> Hy]|H].
      * rewrite sorted_insert_perm in Hy. apply elem_of_cons in Hy as [->|Hy].
        -- by apply lt_asym.
        -- apply Hl, stands_before_cons. by left.
      * revert H. apply IH. intros x' y' H'. apply Hl, stands_before_cons. by right.
    + intros [[<- Hy]|H].
      * apply elem_of_cons in Hy as [->|Hy]; [done|].
        apply (lt_negtrans _ z); [done|].
        apply Hl, stands_before_cons. by left.
      * apply Hl. by apply stands_before_cons.
Qed.

Lemma sorted_with_ordered l x y :
  stands_before x y (sorted_with lt l) → lt y x = false.
Proof.
  revert x y. induction l as [|a l IH]; simpl.
  - by intros x y ?%stands_before_nil.
  - by apply sorted_insert_ordered.
Qed.
End SortedFacts.

(** ** [sorted] is the stable sort

    On a list without repetitions there is one list that is a permutation
    of the input, ordered, and stable: whatever algorithm the runtime uses
    for [sorted], it computes [sorted_with]. *)

Lemma stands_before_NoDup {A} (x y : A) l :
  NoDup l → stands_before x y l → stands_before y x l → False.
Proof.
  intros Hnd (i & j & Hij & Hi & Hj)%stands_before_lookup
    (i' & j' & Hij' & Hi' & Hj')%stands_before_lookup.
  pose proof (NoDup_lookup _ _ _ _ Hnd Hi Hj').
  pose proof (NoDup_lookup _ _ _ _ Hnd Hj Hi'). lia.
Qed.

Lemma same_order_same_list {A} (R : A → A → Prop) (l1 l2 : list A) :
  l1 ≡ₚ l2 →
  (∀ x y, stands_before x y l1 → R x y) →
  (∀ x y, stands_before x y l2 → R x y) →
  (∀ x y, R x y → R y x → False) →
  l1 = l2.
Proof.
  intros Hperm H1 H2 Hasym. revert l2 Hperm H2.
  induction l1 as [|h t IH]; intros l2 Hperm H2.
  - by apply Permutation_nil_l in Hperm.
  - destruct l2 as [|h2 t2]; [by apply Permutation_nil_r in Hperm|].
    assert (h = h2 → h :: t = h2 :: t2) as Hsame.
    { intros <-. f_equal. apply IH.
      - intros x y Hxy. apply H1, stands_before_cons. by right.
      - by apply Permutation_cons_inv in Hperm.
      - intros x y Hxy. apply H2, stands_before_cons. by right. }
    assert (h2 ∈ h :: t) as [->|Hin2]%elem_of_cons by (rewrite Hperm; left); [auto|].
    assert (h ∈ h2 :: t2) as [->|Hin1]%elem_of_cons by (rewrite <-Hperm; left); [auto|].
    exfalso. apply (Hasym h h2).
    + apply H1, stands_before_cons. by left.
    + apply H2, stands_before_cons. by left.
Qed.

Lemma sorted_with_unique {A} (lt : A → A → bool) (l l' : list A) :
  (∀ x y, lt x y = true → lt y x = false) →
  (∀ x y z, lt y x = false → lt z y = false → lt z x = false) →
  NoDup l → l' ≡ₚ l →
  (∀ x y, stands_before x y l' → lt y x = false) →
  (∀ x y, stands_before x y l' → lt x y = false → stands_before x y l) →
  l' = sorted_with lt l.
Proof.
  intros Hasym Hneg Hnd Hperm Hord Hstable.
  apply (same_order_same_list
           (λ x y, lt y x = false ∧ (lt x y = false → stands_before x y l))).
  - by rewrite sorted_with_perm.
  - intros x y Hxy. split; [by apply Hord | by apply Hstable].
  - intros x y Hxy. split.
    + by eapply sorted_with_ordered.
    + intros Hlt. apply sorted_with_stable in Hxy as [?|?]; [done|congruence].
  - intros x y [Hyx Hxy] [Hxy' Hyx'].
    apply (stands_before_NoDup x y l Hnd); [by apply Hxy | by apply Hyx'].
Qed.

Section RunFacts.
Context {K I V : Type} `{EqDecision K} (fac : V) (step : I → V → V).
Implicit Types (k : K) (d : list (K * V)) (visits : list (K * I)).

Lemma dd_run_snoc d visits k i :
  dd_run fac step d (visits ++ [(k, i)])
  = dd_modify fac (step i) k (dd_run fac step d visits).
Proof. unfold dd_run. by rewrite foldl_app. Qed.

Lemma dd_run_app d visits1 visits2 :
  dd_run fac step d (visits1 ++ visits2)
  = dd_run fac step (dd_run fac step d visits1) visits2.
Proof. unfold dd_run. by rewrite foldl_app. Qed.

(** The value at a key is the factory's value (or what the key held
    before) changed by the visits of the key, in their order. *)
Lemma dd_run_get d visits k :
  dict_get k (dd_run fac step d visits)
  = match (filter (λ visit, visit.1 = k) visits).*2 with
    | [] => dict_get k d
    | ms => Some (foldl (λ v i, step i v) (default fac (dict_get k d)) ms)
    end.
Proof.
  revert d. induction visits as [|[k0 i0] visits IH]; intros d; [done|].
  change (dd_run fac step d ((k0, i0) :: visits))
    with (dd_run fac step (dd_modify fac (step i0) k0 d) visits).
  rewrite IH, filter_cons. cbn [fst].
  destruct (decide (k0 = k)) as [->|Hne].
  - rewrite dd_modify_get, fmap_cons. cbn [snd].
    by destruct ((filter _ visits).*2).
  - by rewrite dd_modify_get_ne.
Qed.

Lemma dd_run_NoDup d visits : NoDup d.*1 → NoDup (dd_run fac step d visits).*1.
Proof.
  revert d. induction visits as [|[k0 i0] visits IH]; intros d Hd; [done|].
  apply IH. by apply dd_modify_NoDup.
Qed.

Lemma dd_run_keys_elem visits k :
  k ∈ (dd_run fac step [] visits).*1 ↔ k ∈ visits.*1.
Proof.
  induction visits as [|[k0 i0] visits IH] using rev_ind.
  - done.
  - rewrite dd_run_snoc, dd_modify_keys, fmap_app, elem_of_app. simpl.
    rewrite list_elem_of_singleton, <-IH.
    case_decide as E; [|rewrite elem_of_app, list_elem_of_singleton; tauto].
    split; [tauto | intros [?| ->]; done].
Qed.

(** The keys stand in the dictionary in the order of their first visits. *)
Lemma dd_run_keys_order visits k1 k2 :
  stands_before k1 k2 (dd_run fac step [] visits).*1 →
  ∃ a b, first_index k1 visits.*1 = Some a ∧ first_index k2 visits.*1 = Some b ∧ a < b.
Proof.
  induction visits as [|[k0 i0] visits IH] using rev_ind.
  - by intros ?%stands_before_nil.
  - rewrite dd_run_snoc, dd_modify_keys, fmap_app. simpl.
    assert (stands_before k1 k2 (dd_run fac step [] visits).*1 →
            ∃ a b, first_index k1 (visits.*1 ++ [k0]) = Some a
                   ∧ first_index k2 (visits.*1 ++ [k0]) = Some b ∧ a < b) as Hold.
    { intros (a & b & Ha & Hb & Hab)%IH. exists a, b.
      split_and!; [by apply first_index_app_l.. | done]. }
    case_decide as E; [done|].
    intros [H|[H1 ->]]%stands_before_snoc; [auto|].
    apply dd_run_keys_elem in H1 as H1'.
    apply first_index_elem in H1' as [a Ha].
    exists a, (length visits.*1). split_and!.
    + by apply first_index_app_l.
    + apply first_index_app_new. by rewrite <-dd_run_keys_elem.
    + by eapply first_index_lt.
Qed.
End RunFacts.

(** * Facts about the aggregator *)

Lemma cve_cwe_accumulate_fused issue key g :
  CveCwe.accumulate issue key g
  = dd_modify CveCwe.new_group (cve_cwe_add_issue issue) key g.
Proof.
  unfold CveCwe.accumulate, cve_cwe_add_issue. cbv zeta.
  destruct (is_fixable issue);
    rewrite !(dd_modify_twice CveCwe.new_group _ _ key g);
    by apply dd_modify_ext.
Qed.

Lemma cve_cwe_accumulate_issue_run g issue :
  CveCwe.accumulate_issue g issue
  = dd_run CveCwe.new_group cve_cwe_add_issue g
      ((λ k, (k, issue)) <$> cve_cwe_keys issue).
Proof.
  unfold CveCwe.accumulate_issue, cve_cwe_keys.
  revert g. induction (cves_of issue) as [|c cs IH]; intros g; [done|].
  simpl. rewrite fmap_app, dd_run_app, IH. f_equal.
  clear IH. revert g. induction (cwes_of issue) as [|w ws IHw]; intros g; [done|].
  simpl. rewrite IHw. by rewrite cve_cwe_accumulate_fused.
Qed.

Lemma cve_cwe_groups_run issues :
  CveCwe.cve_cwe_groups issues
  = dd_run CveCwe.new_group cve_cwe_add_issue [] (cve_cwe_visits issues).
Proof.
  unfold CveCwe.cve_cwe_groups, cve_cwe_visits.
  generalize (@nil (string * string * CveCweAcc.t)).
  induction issues as [|issue issues IH]; intros g; [done|].
  rewrite bind_cons, dd_run_app. simpl. by rewrite IH, cve_cwe_accumulate_issue_run.
Qed.

Lemma cve_cwe_visits_keys issues :
  (cve_cwe_visits issues).*1 = issues ≫= cve_cwe_keys.
Proof.
  unfold cve_cwe_visits. induction issues as [|issue issues IH]; [done|].
  rewrite !bind_cons, fmap_app, IH. f_equal.
  rewrite <-list_fmap_compose. by rewrite list_fmap_id.
Qed.

Lemma cve_cwe_visits_members key issues :
  (filter (λ visit, visit.1 = key) (cve_cwe_visits issues)).*2
  = cve_cwe_members key issues.
Proof.
  unfold cve_cwe_visits, cve_cwe_members.
  induction issues as [|issue issues IH]; [done|].
  rewrite !bind_cons, filter_app, fmap_app, IH. f_equal.
  induction (cve_cwe_keys issue) as [|k ks IHk]; [done|].
  rewrite fmap_cons, filter_cons, bind_cons. cbn [fst].
  case_decide; [rewrite fmap_cons|]; by rewrite IHk.
Qed.

Lemma project_track_pairs_fused issue key f g :
  Project.track_pairs issue key (dd_modify Project.new_group f key g)
  = dd_modify Project.new_group
      (λ d, foldl (λ d cve, foldl (λ d cwe, Project.add_pair cve cwe d) d (cwes_of issue))
                  (f d) (cves_of issue))
      key g.
Proof.
  unfold Project.track_pairs.
  revert f. induction (cves_of issue) as [|c cs IH]; intros f; [done|].
  cbn [foldl].
  assert (∀ ws f,
    foldl (λ g cwe, dd_modify Project.new_group (Project.add_pair c cwe) key g)
          (dd_modify Project.new_group f key g) ws
    = dd_modify Project.new_group
        (λ d, foldl (λ d cwe, Project.add_pair c cwe d) (f d) ws) key g) as Hinner.
  { induction ws as [|w ws IHw]; intros f'; [done|].
    cbn [foldl]. rewrite (dd_modify_twice Project.new_group f' _ key g).
    by rewrite IHw. }
  by rewrite Hinner, IH.
Qed.

Lemma project_accumulate_issue_fused g issue :
  Project.accumulate_issue g issue
  = dd_modify Project.new_group (project_add_issue issue) (project_key issue) g.
Proof.
  unfold Project.accumulate_issue, project_add_issue, project_key. cbv zeta.
  rewrite !(dd_modify_twice Project.new_group _ _ _ g).
  rewrite project_track_pairs_fused.
  destruct (is_fixable issue);
    rewrite ?(dd_modify_twice Project.new_group _ _ _ g);
    by apply dd_modify_ext.
Qed.

Lemma project_groups_run issues :
  Project.project_groups issues
  = dd_run Project.new_group project_add_issue []
      ((λ issue, (project_key issue, issue)) <$> issues).
Proof.
  unfold Project.project_groups.
  generalize (@nil (string * string * ProjectAcc.t)).
  induction issues as [|issue issues IH]; intros g; [done|].
  simpl. by rewrite IH, project_accumulate_issue_fused.
Qed.

Lemma project_visits_keys issues :
  ((λ issue, (project_key issue, issue)) <$> issues).*1 = project_key <$> issues.
Proof. by rewrite <-list_fmap_compose. Qed.

Lemma project_visits_members key issues :
  (filter (λ visit, visit.1 = key)
          ((λ issue, (project_key issue, issue)) <$> issues)).*2
  = project_members key issues.
Proof.
  unfold project_members. induction issues as [|issue issues IH]; [done|].
  rewrite fmap_cons, !filter_cons. cbn [fst].
  case_decide; [rewrite fmap_cons|]; by rewrite IH.
Qed.

(** ** What a group holds after its members were accumulated *)

Lemma sum_values_count_severity sev d :
  sum_values (count_severity sev d) = S (sum_values d).
Proof.
  unfold sum_values, count_severity.
  induction d as [|[k n] d IH]; [done|].
  cbn [dd_modify]. case_decide; csimpl; [done|]. rewrite IH. lia.
Qed.

Lemma count_of_count_severity sev sev' d :
  count_of sev' (count_severity sev d)
  = if decide (sev = sev') then S (count_of sev' d) else count_of sev' d.
Proof.
  unfold count_of, count_severity. case_decide as E.
  - subst. rewrite dd_modify_get. by destruct (dict_get sev' d).
  - by rewrite dd_modify_get_ne.
Qed.

Section CveCweFold.
Import CveCweAcc.
Implicit Types (d : CveCweAcc.t) (ms : list SnykIssue).

Lemma cve_cwe_add_issue_issues i d :
  issues (cve_cwe_add_issue i d) = issues d ++ [i].
Proof. unfold cve_cwe_add_issue. by destruct (is_fixable i). Qed.

Lemma cve_cwe_add_issue_severity i d :
  severity_counts (cve_cwe_add_issue i d)
  = count_severity (issue_severity i) (severity_counts d).
Proof. unfold cve_cwe_add_issue. by destruct (is_fixable i). Qed.

Lemma cve_cwe_add_issue_projects i d :
  projects (cve_cwe_add_issue i d)
  = dict_set (project_name i) (project_url i) (projects d).
Proof. unfold cve_cwe_add_issue. by destruct (is_fixable i). Qed.

Lemma cve_cwe_add_issue_titles i d :
  problem_titles (cve_cwe_add_issue i d) = problem_titles d ∪ {[ problem_title i ]}.
Proof. unfold cve_cwe_add_issue. by destruct (is_fixable i). Qed.

Lemma cve_cwe_add_issue_fixable i d :
  fixable_count (cve_cwe_add_issue i d)
  = if is_fixable i then S (fixable_count d) else fixable_count d.
Proof. unfold cve_cwe_add_issue. by destruct (is_fixable i). Qed.

Lemma cve_cwe_fold_snoc d ms i :
  cve_cwe_fold d (ms ++ [i]) = cve_cwe_add_issue i (cve_cwe_fold d ms).
Proof. unfold cve_cwe_fold. by rewrite foldl_app. Qed.

Lemma cve_cwe_fold_issues d ms : issues (cve_cwe_fold d ms) = issues d ++ ms.
Proof.
  induction ms as [|i ms IH] using rev_ind; [by rewrite app_nil_r|].
  by rewrite cve_cwe_fold_snoc, cve_cwe_add_issue_issues, IH, app_assoc.
Qed.

Lemma cve_cwe_fold_sum d ms :
  sum_values (severity_counts (cve_cwe_fold d ms))
  = sum_values (severity_counts d) + length ms.
Proof.
  induction ms as [|i ms IH] using rev_ind; [simpl; lia|].
  rewrite cve_cwe_fold_snoc, cve_cwe_add_issue_severity,
    sum_values_count_severity, IH, length_app. simpl. lia.
Qed.

Lemma cve_cwe_fold_count d ms sev :
  count_of sev (severity_counts (cve_cwe_fold d ms))
  = count_of sev (severity_counts d)
    + length (filter (λ i, issue_severity i = sev) ms).
Proof.
  induction ms as [|i ms IH] using rev_ind; [simpl; lia|].
  rewrite cve_cwe_fold_snoc, cve_cwe_add_issue_severity,
    count_of_count_severity, IH, filter_app, length_app, filter_cons, filter_nil.
  case_decide; simpl; lia.
Qed.

Lemma cve_cwe_fold_fixable d ms :
  fixable_count (cve_cwe_fold d ms)
  = fixable_count d + length (filter (λ i, is_fixable i = true) ms).
Proof.
  induction ms as [|i ms IH] using rev_ind; [simpl; lia|].
  rewrite cve_cwe_fold_snoc, cve_cwe_add_issue_fixable, IH,
    filter_app, length_app, filter_cons, filter_nil.
  destruct (is_fixable i); case_decide; simpl; try done; lia.
Qed.

Lemma cve_cwe_fold_projects d ms :
  projects (cve_cwe_fold d ms)
  = foldl (λ p i, dict_set (project_name i) (project_url i) p) (projects d) ms.
Proof.
  induction ms as [|i ms IH] using rev_ind; [done|].
  by rewrite cve_cwe_fold_snoc, cve_cwe_add_issue_projects, IH, foldl_app.
Qed.

Lemma cve_cwe_fold_titles d ms :
  problem_titles (cve_cwe_fold d ms)
  = problem_titles d ∪ list_to_set (problem_title <$> ms).
Proof.
  induction ms as [|i ms IH] using rev_ind.
  - simpl. set_solver.
  - rewrite cve_cwe_fold_snoc, cve_cwe_add_issue_titles, IH, fmap_app,
      list_to_set_app_L. simpl. set_solver.
Qed.
End CveCweFold.

Section ProjectFold.
Import ProjectAcc.
Implicit Types (d : ProjectAcc.t) (ms : list SnykIssue).

Lemma project_pairs_loop d cs ws :
  let d' := foldl (λ d c, foldl (λ d w, Project.add_pair c w d) d ws) d cs in
  issues d' = issues d ∧ severity_counts d' = severity_counts d ∧
  problem_titles d' = problem_titles d ∧ fixable_count d' = fixable_count d ∧
  cve_cwe_pairs d'
  = cve_cwe_pairs d
    ∪ list_to_set ((λ k, Project.pair_label k.1 k.2) <$> (c ← cs; w ← ws; [(c, w)])).
Proof.
  revert d. induction cs as [|c cs IH]; intros d; cbn zeta.
  - split_and!; try done. simpl. set_solver.
  - cbn [foldl]. rewrite bind_cons, fmap_app, list_to_set_app_L.
    assert (∀ d0,
      let d1 := foldl (λ d w, Project.add_pair c w d) d0 ws in
      issues d1 = issues d0 ∧ severity_counts d1 = severity_counts d0 ∧
      problem_titles d1 = problem_titles d0 ∧ fixable_count d1 = fixable_count d0 ∧
      cve_cwe_pairs d1
      = cve_cwe_pairs d0
        ∪ list_to_set ((λ k, Project.pair_label k.1 k.2) <$> (w ← ws; [(c, w)])))
      as Hinner.
    { clear. induction ws as [|w ws IHw]; intros d0; cbn zeta.
      - split_and!; try done. simpl. set_solver.
      - cbn [foldl]. destruct (IHw (Project.add_pair c w d0)) as (-> & -> & -> & -> & ->).
        split_and!; try done. cbn [Project.add_pair cve_cwe_pairs].
        rewrite bind_cons, fmap_app, list_to_set_app_L.
        change ((λ k, Project.pair_label k.1 k.2) <$> [(c, w)])
          with [Project.pair_label c w].
        rewrite list_to_set_singleton_L. by rewrite (assoc_L (∪)). }
    destruct (IH (foldl (λ d w, Project.add_pair c w d) d ws)) as (-> & -> & -> & -> & ->).
    destruct (Hinner d) as (-> & -> & -> & -> & ->).
    split_and!; try done. by rewrite (assoc_L (∪)).
Qed.

Lemma project_add_issue_issues i d :
  issues (project_add_issue i d) = issues d ++ [i].
Proof.
  unfold project_add_issue. cbv zeta.
  destruct (project_pairs_loop
    (Project.add_title i (Project.incr_severity i (Project.append_issue i d)))
    (cves_of i) (cwes_of i)) as (H & _).
  destruct (is_fixable i); simpl; by rewrite H.
Qed.

Lemma project_add_issue_severity i d :
  severity_counts (project_add_issue i d)
  = count_severity (issue_severity i) (severity_counts d).
Proof.
  unfold project_add_issue. cbv zeta.
  destruct (project_pairs_loop
    (Project.add_title i (Project.incr_severity i (Project.append_issue i d)))
    (cves_of i) (cwes_of i)) as (_ & H & _).
  destruct (is_fixable i); simpl; by rewrite H.
Qed.

Lemma project_add_issue_titles i d :
  problem_titles (project_add_issue i d) = problem_titles d ∪ {[ problem_title i ]}.
Proof.
  unfold project_add_issue. cbv zeta.
  destruct (project_pairs_loop
    (Project.add_title i (Project.incr_severity i (Project.append_issue i d)))
    (cves_of i) (cwes_of i)) as (_ & _ & H & _).
  destruct (is_fixable i); simpl; by rewrite H.
Qed.

Lemma project_add_issue_fixable i d :
  fixable_count (project_add_issue i d)
  = if is_fixable i then S (fixable_count d) else fixable_count d.
Proof.
  unfold project_add_issue. cbv zeta.
  destruct (project_pairs_loop
    (Project.add_title i (Project.incr_severity i (Project.append_issue i d)))
    (cves_of i) (cwes_of i)) as (_ & _ & _ & H & _).
  destruct (is_fixable i); simpl; by rewrite H.
Qed.

Lemma project_add_issue_pairs i d :
  cve_cwe_pairs (project_add_issue i d)
  = cve_cwe_pairs d ∪ list_to_set (pair_labels i).
Proof.
  unfold project_add_issue, pair_labels, cve_cwe_keys. cbv zeta.
  destruct (project_pairs_loop
    (Project.add_title i (Project.incr_severity i (Project.append_issue i d)))
    (cves_of i) (cwes_of i)) as (_ & _ & _ & _ & H).
  destruct (is_fixable i); simpl; by rewrite H.
Qed.

Lemma project_fold_snoc d ms i :
  project_fold d (ms ++ [i]) = project_add_issue i (project_fold d ms).
Proof. unfold project_fold. by rewrite foldl_app. Qed.

Lemma project_fold_issues d ms : issues (project_fold d ms) = issues d ++ ms.
Proof.
  induction ms as [|i ms IH] using rev_ind; [by rewrite app_nil_r|].
  by rewrite project_fold_snoc, project_add_issue_issues, IH, app_assoc.
Qed.

Lemma project_fold_sum d ms :
  sum_values (severity_counts (project_fold d ms))
  = sum_values (severity_counts d) + length ms.
Proof.
  induction ms as [|i ms IH] using rev_ind; [simpl; lia|].
  rewrite project_fold_snoc, project_add_issue_severity,
    sum_values_count_severity, IH, length_app. simpl. lia.
Qed.

Lemma project_fold_fixable d ms :
  fixable_count (project_fold d ms)
  = fixable_count d + length (filter (λ i, is_fixable i = true) ms).
Proof.
  induction ms as [|i ms IH] using rev_ind; [simpl; lia|].
  rewrite project_fold_snoc, project_add_issue_fixable, IH,
    filter_app, length_app, filter_cons, filter_nil.
  destruct (is_fixable i); case_decide; simpl; try done; lia.
Qed.

Lemma project_fold_pairs d ms :
  cve_cwe_pairs (project_fold d ms)
  = cve_cwe_pairs d ∪ list_to_set (ms ≫= pair_labels).
Proof.
  induction ms as [|i ms IH] using rev_ind.
  - simpl. set_solver.
  - rewrite project_fold_snoc, project_add_issue_pairs, IH, bind_app,
      list_to_set_app_L. simpl. rewrite app_nil_r. by rewrite (assoc_L (∪)).
Qed.
End ProjectFold.

(** ** The dictionaries of groups *)

Lemma cve_cwe_groups_get key issues :
  dict_get key (CveCwe.cve_cwe_groups issues)
  = match cve_cwe_members key issues with
    | [] => None
    | ms => Some (cve_cwe_fold CveCwe.new_group ms)
    end.
Proof.
  rewrite cve_cwe_groups_run, dd_run_get, cve_cwe_visits_members.
  by destruct (cve_cwe_members key issues).
Qed.

Lemma cve_cwe_groups_NoDup issues : NoDup (CveCwe.cve_cwe_groups issues).*1.
Proof. rewrite cve_cwe_groups_run. apply dd_run_NoDup. constructor. Qed.

Lemma cve_cwe_groups_elem key d issues :
  (key, d) ∈ CveCwe.cve_cwe_groups issues →
  cve_cwe_members key issues ≠ []
  ∧ d = cve_cwe_fold CveCwe.new_group (cve_cwe_members key issues).
Proof.
  intros H. apply dict_get_elem in H; [|apply cve_cwe_groups_NoDup].
  rewrite cve_cwe_groups_get in H.
  destruct (cve_cwe_members key issues); [done|]. by simplify_eq.
Qed.

Lemma project_groups_get key issues :
  dict_get key (Project.project_groups issues)
  = match project_members key issues with
    | [] => None
    | ms => Some (project_fold Project.new_group ms)
    end.
Proof.
  rewrite project_groups_run, dd_run_get, project_visits_members.
  by destruct (project_members key issues).
Qed.

Lemma project_groups_NoDup issues : NoDup (Project.project_groups issues).*1.
Proof. rewrite project_groups_run. apply dd_run_NoDup. constructor. Qed.

Lemma project_groups_elem key d issues :
  (key, d) ∈ Project.project_groups issues →
  project_members key issues ≠ []
  ∧ d = project_fold Project.new_group (project_members key issues).
Proof.
  intros H. apply dict_get_elem in H; [|apply project_groups_NoDup].
  rewrite project_groups_get in H.
  destruct (project_members key issues); [done|]. by simplify_eq.
Qed.

Lemma elem_of_prepare_data_cve_cwe g issues :
  g ∈ CveCwe.prepare_data_cve_cwe issues ↔
  ∃ key d, (key, d) ∈ CveCwe.cve_cwe_groups issues ∧ g = CveCwe.make_group (key, d).
Proof.
  unfold CveCwe.prepare_data_cve_cwe, CveCwe.sorted_groups, sorted_by_key_reverse.
  rewrite list_elem_of_fmap. split.
  - intros ([key d] & -> & H). exists key, d. by rewrite elem_of_sorted_with in H.
  - intros (key & d & H & ->). exists (key, d). by rewrite elem_of_sorted_with.
Qed.

Lemma elem_of_prepare_data_project g issues :
  g ∈ Project.prepare_data_project issues ↔
  ∃ key d, (key, d) ∈ Project.project_groups issues ∧ g = Project.make_group (key, d).
Proof.
  unfold Project.prepare_data_project, Project.sorted_groups, sorted_by_key_reverse.
  rewrite list_elem_of_fmap. split.
  - intros ([key d] & -> & H). exists key, d. by rewrite elem_of_sorted_with in H.
  - intros (key & d & H & ->). exists (key, d). by rewrite elem_of_sorted_with.
Qed.

(** ** The order of strings *)

Lemma str_compare_refl s : String.compare s s = Eq.
Proof.
  induction s as [|a s IH]; [done|]. simpl.
  unfold Ascii.compare. by rewrite N.compare_refl.
Qed.

Lemma str_compare_lt_trans a b c :
  String.compare a b = Lt → String.compare b c = Lt → String.compare a c = Lt.
Proof.
  revert b c. induction a as [|x a IH]; intros [|y b] [|z c]; simpl; try done.
  unfold Ascii.compare.
  destruct (N.compare_spec (N_of_ascii x) (N_of_ascii y)) as [Exy|Lxy|Gxy]; [|clear IH|done].
  - rewrite Exy.
    destruct (N_of_ascii y ?= N_of_ascii z)%N; [by apply IH | done | done].
  - intros _.
    destruct (N.compare_spec (N_of_ascii y) (N_of_ascii z)) as [Eyz|Lyz|Gyz]; [| |done].
    + intros _. rewrite <-Eyz. by apply N.compare_lt_iff in Lxy as ->.
    + intros _.
      assert (N_of_ascii x < N_of_ascii z)%N as ->%N.compare_lt_iff by lia. done.
Qed.

Lemma str_ltb_asym a b : String.ltb a b = true → String.ltb b a = false.
Proof.
  unfold String.ltb. rewrite (String.compare_antisym b a).
  by destruct (String.compare a b).
Qed.

Lemma str_ltb_trichotomy a b : String.ltb a b = false → a ≠ b → String.ltb b a = true.
Proof.
  unfold String.ltb. rewrite (String.compare_antisym b a).
  destruct (String.compare a b) eqn:E; try done.
  by apply String.compare_eq_iff in E.
Qed.

Lemma str_ltb_irrefl a : String.ltb a a = false.
Proof. unfold String.ltb. by rewrite str_compare_refl. Qed.

Lemma str_ltb_trans a b c :
  String.ltb a b = true → String.ltb b c = true → String.ltb a c = true.
Proof.
  unfold String.ltb.
  destruct (String.compare a b) eqn:E1; try done.
  destruct (String.compare b c) eqn:E2; try done.
  by rewrite (str_compare_lt_trans a b c).
Qed.

Lemma str_ltb_negtrans x y z :
  String.ltb y x = false → String.ltb z y = false → String.ltb z x = false.
Proof.
  intros Hyx Hzy.
  destruct (decide (y = x)) as [->|Nyx]; [done|].
  destruct (decide (z = y)) as [->|Nzy]; [done|].
  apply str_ltb_trichotomy in Hyx; [|done].
  apply str_ltb_trichotomy in Hzy; [|done].
  apply str_ltb_asym. by apply (str_ltb_trans x y z).
Qed.

Lemma tuple_ltb_asym a b : tuple_ltb a b = true → tuple_ltb b a = false.
Proof.
  unfold tuple_ltb. destruct (decide (a.1 = b.1)) as [E|N].
  - rewrite decide_True by done. apply str_ltb_asym.
  - rewrite decide_False by done. apply str_ltb_asym.
Qed.

Lemma tuple_ltb_negtrans x y z :
  tuple_ltb y x = false → tuple_ltb z y = false → tuple_ltb z x = false.
Proof.
  unfold tuple_ltb.
  destruct (decide (y.1 = x.1)) as [E1|N1];
    destruct (decide (z.1 = y.1)) as [E2|N2].
  - rewrite decide_True by congruence. apply str_ltb_negtrans.
  - rewrite decide_False by congruence. rewrite E1. by intros _.
  - rewrite decide_False by congruence. rewrite E2. by intros ? _.
  - intros H1 H2. case_decide as E3.
    + apply str_ltb_trichotomy in H1; [|done].
      rewrite E3 in H2. congruence.
    + by apply (str_ltb_negtrans _ y.1).
Qed.

(** ** The order of the groups *)

Lemma sorted_by_key_reverse_ordered {A} (key : A → nat) l x y :
  stands_before x y (sorted_by_key_reverse key l) → key y ≤ key x.
Proof.
  intros H. apply sorted_with_ordered in H.
  - by apply Nat.ltb_ge in H.
  - intros a b ?%Nat.ltb_lt. apply Nat.ltb_ge. lia.
  - intros a b c ?%Nat.ltb_ge ?%Nat.ltb_ge. apply Nat.ltb_ge. lia.
Qed.

Lemma sorted_by_key_reverse_stable {A} (key : A → nat) l x y :
  stands_before x y (sorted_by_key_reverse key l) → key x = key y →
  stands_before x y l.
Proof.
  intros [H|H]%sorted_with_stable Heq; [done|].
  apply Nat.ltb_lt in H. lia.
Qed.

(** * The properties of the aggregator *)

Lemma sum_fixable_from n issues :
  foldl (λ acc i, if is_fixable i then acc + 1 else acc) n issues
  = n + length (filter (λ i, computed_fixability i = "Fixable") issues).
Proof.
  revert n. induction issues as [|i issues IH]; intros n; simpl; [lia|].
  rewrite IH, filter_cons. unfold is_fixable.
  case_bool_decide; rewrite ?decide_True, ?decide_False by done; simpl; lia.
Qed.

(** C3. The global [fixable_count] of the report is the number of records
    whose [computed_fixability] is the string "Fixable" itself, whatever the
    grouping strategy: records with any other string in the field, such as
    "fixable" or "Partially Fixable", are not counted. *)
Theorem fixable_count_exact (issues : list SnykIssue) (group_by : string) :
  Report.fixable_count (prepare_data issues group_by)
  = length (filter (λ i, computed_fixability i = "Fixable") issues).
Proof. unfold prepare_data. simpl. unfold sum_fixable. by rewrite sum_fixable_from. Qed.

(** C8. On the empty list of records the aggregator returns a report with
    no issue, no group, an empty severity histogram, no fixable issue and
    an empty list of groups, for any value of the strategy selector. *)
Theorem empty_report (group_by : string) :
  Report.total_issues (prepare_data [] group_by) = 0
  ∧ Report.total_groups (prepare_data [] group_by) = 0
  ∧ Report.severity_counts (prepare_data [] group_by) = []
  ∧ Report.fixable_count (prepare_data [] group_by) = 0
  ∧ Report.groups (prepare_data [] group_by)
    = (if decide (group_by = "project") then ProjectGroups [] else CveCweGroups [])
  ∧ Report.group_by (prepare_data [] group_by) = group_by.
Proof. unfold prepare_data. simpl. by case_decide. Qed.

Lemma cve_cwe_group_counts issues g :
  g ∈ CveCwe.prepare_data_cve_cwe issues →
  CveCweGroup.total_issues g = sum_values (CveCweGroup.severity_counts g)
  ∧ CveCweGroup.fixable_count g ≤ CveCweGroup.total_issues g
  ∧ 1 ≤ CveCweGroup.total_issues g
  ∧ CveCweGroup.total_issues g
    = length (cve_cwe_members (CveCweGroup.cve g, CveCweGroup.cwe g) issues).
Proof.
  intros ([c w] & d & Hin & ->)%elem_of_prepare_data_cve_cwe.
  apply cve_cwe_groups_elem in Hin as [Hne ->]. simpl.
  rewrite cve_cwe_fold_issues, cve_cwe_fold_sum, cve_cwe_fold_fixable. simpl.
  pose proof (length_filter (λ i, is_fixable i = true) (cve_cwe_members (c, w) issues)).
  destruct (cve_cwe_members (c, w) issues); [done|]. simpl in *.
  split_and!; lia.
Qed.

Lemma project_group_counts issues g :
  g ∈ Project.prepare_data_project issues →
  ProjectGroup.total_issues g = sum_values (ProjectGroup.severity_counts g)
  ∧ ProjectGroup.fixable_count g ≤ ProjectGroup.total_issues g
  ∧ 1 ≤ ProjectGroup.total_issues g
  ∧ ProjectGroup.total_issues g
    = length (project_members
                (ProjectGroup.project_name g, ProjectGroup.project_url g) issues).
Proof.
  intros ([c w] & d & Hin & ->)%elem_of_prepare_data_project.
  apply project_groups_elem in Hin as [Hne ->]. simpl.
  rewrite project_fold_issues, project_fold_sum, project_fold_fixable. simpl.
  pose proof (length_filter (λ i, is_fixable i = true) (project_members (c, w) issues)).
  destruct (project_members (c, w) issues); [done|]. simpl in *.
  split_and!; lia.
Qed.

(** C10. Every group of the report, in either strategy, has as many issues
    as its severity histogram counts in total, no more fixable issues than
    issues, and at least one issue. *)
Theorem group_counts_invariant (issues : list SnykIssue) (group_by : string) :
  match Report.groups (prepare_data issues group_by) with
  | CveCweGroups gs =>
      Forall (λ g, CveCweGroup.total_issues g
                   = sum_values (CveCweGroup.severity_counts g)
                   ∧ CveCweGroup.fixable_count g ≤ CveCweGroup.total_issues g
                   ∧ 1 ≤ CveCweGroup.total_issues g) gs
  | ProjectGroups gs =>
      Forall (λ g, ProjectGroup.total_issues g
                   = sum_values (ProjectGroup.severity_counts g)
                   ∧ ProjectGroup.fixable_count g ≤ ProjectGroup.total_issues g
                   ∧ 1 ≤ ProjectGroup.total_issues g) gs
  end.
Proof.
  unfold prepare_data. simpl. case_decide.
  - apply Forall_forall. intros g Hg.
    destruct (project_group_counts _ _ Hg) as (? & ? & ? & _). done.
  - apply Forall_forall. intros g Hg.
    destruct (cve_cwe_group_counts _ _ Hg) as (? & ? & ? & _). done.
Qed.

Lemma sorted_groups_order {K I V : Type} `{EqDecision K}
    (fac : V) (step : I → V → V) (visits : list (K * I)) (size : V → nat)
    (i j : nat) (x y : K * V) :
  i < j →
  sorted_by_key_reverse (λ x, size x.2) (dd_run fac step [] visits) !! i = Some x →
  sorted_by_key_reverse (λ x, size x.2) (dd_run fac step [] visits) !! j = Some y →
  size y.2 ≤ size x.2
  ∧ (size x.2 = size y.2 →
     ∃ a b, first_index x.1 visits.*1 = Some a
            ∧ first_index y.1 visits.*1 = Some b ∧ a < b).
Proof.
  intros Hij Hi Hj.
  assert (stands_before x y
            (sorted_by_key_reverse (λ x, size x.2) (dd_run fac step [] visits)))
    as Hxy by (apply stands_before_lookup; eauto).
  split.
  - by apply (sorted_by_key_reverse_ordered (λ x, size x.2)) in Hxy.
  - intros Heq. apply sorted_by_key_reverse_stable in Hxy; [|done].
    apply (stands_before_fmap fst) in Hxy.
    by apply dd_run_keys_order in Hxy.
Qed.

(** C2. In either strategy the groups of the report stand in descending
    order of their issue counts, and of two groups with the same count the
    one whose key was met first in the input stands first: the key of a
    cve-cwe group is met when the loops over the CVEs and CWEs of a record
    visit it, the key of a project group at the first record of the
    project. *)
Theorem groups_sorted_stable (issues : list SnykIssue) (group_by : string)
    (i j : nat) :
  i < j →
  match Report.groups (prepare_data issues group_by) with
  | CveCweGroups gs =>
      ∀ g1 g2, gs !! i = Some g1 → gs !! j = Some g2 →
        CveCweGroup.total_issues g2 ≤ CveCweGroup.total_issues g1
        ∧ (CveCweGroup.total_issues g1 = CveCweGroup.total_issues g2 →
           ∃ a b,
             first_index (CveCweGroup.cve g1, CveCweGroup.cwe g1)
                         (issues ≫= cve_cwe_keys) = Some a
             ∧ first_index (CveCweGroup.cve g2, CveCweGroup.cwe g2)
                           (issues ≫= cve_cwe_keys) = Some b
             ∧ a < b)
  | ProjectGroups gs =>
      ∀ g1 g2, gs !! i = Some g1 → gs !! j = Some g2 →
        ProjectGroup.total_issues g2 ≤ ProjectGroup.total_issues g1
        ∧ (ProjectGroup.total_issues g1 = ProjectGroup.total_issues g2 →
           ∃ a b,
             first_index (ProjectGroup.project_name g1, ProjectGroup.project_url g1)
                         (project_key <$> issues) = Some a
             ∧ first_index (ProjectGroup.project_name g2, ProjectGroup.project_url g2)
                           (project_key <$> issues) = Some b
             ∧ a < b)
  end.
Proof.
  intros Hij. unfold prepare_data. simpl. case_decide.
  - intros g1 g2 H1 H2.
    unfold Project.prepare_data_project, Project.sorted_groups in H1, H2.
    rewrite project_groups_run in H1, H2.
    apply list_lookup_fmap_Some in H1 as ([[n1 u1] d1] & -> & H1).
    apply list_lookup_fmap_Some in H2 as ([[n2 u2] d2] & -> & H2).
    destruct (sorted_groups_order _ _ _ (λ d, length (ProjectAcc.issues d))
                _ _ _ _ Hij H1 H2) as [Hle Hst].
    rewrite project_visits_keys in Hst. done.
  - intros g1 g2 H1 H2.
    unfold CveCwe.prepare_data_cve_cwe, CveCwe.sorted_groups in H1, H2.
    rewrite cve_cwe_groups_run in H1, H2.
    apply list_lookup_fmap_Some in H1 as ([[n1 u1] d1] & -> & H1).
    apply list_lookup_fmap_Some in H2 as ([[n2 u2] d2] & -> & H2).
    destruct (sorted_groups_order _ _ _ (λ d, length (CveCweAcc.issues d))
                _ _ _ _ Hij H1 H2) as [Hle Hst].
    rewrite cve_cwe_visits_keys in Hst. done.
Qed.

Lemma groups_sorted_stable_witness :
  ∃ g1 g2,
    CveCwe.prepare_data_cve_cwe sample_issues !! 1 = Some g1
    ∧ CveCwe.prepare_data_cve_cwe sample_issues !! 2 = Some g2
    ∧ CveCweGroup.cve g1 = "CVE-1" ∧ CveCweGroup.cve g2 = "CVE-3"
    ∧ CveCweGroup.total_issues g1 = 1 ∧ CveCweGroup.total_issues g2 = 1
    ∧ ∃ a b,
        first_index (CveCweGroup.cve g1, CveCweGroup.cwe g1)
                    (sample_issues ≫= cve_cwe_keys) = Some a
        ∧ first_index (CveCweGroup.cve g2, CveCweGroup.cwe g2)
                      (sample_issues ≫= cve_cwe_keys) = Some b
        ∧ a < b.
Proof.
  pose proof (groups_sorted_stable sample_issues "cve-cwe" 1 2 (le_n 2)) as H.
  unfold prepare_data in H. cbn [Report.groups] in H.
  destruct (decide ("cve-cwe" = "project")) as [E|_]; [discriminate E|].
  eexists _, _.
  split; [vm_compute; reflexivity|].
  split; [vm_compute; reflexivity|].
  do 4 (split; [reflexivity|]).
  lazymatch goal with
  | |- ∃ a b, first_index (CveCweGroup.cve ?g1, _) _ = _
              ∧ first_index (CveCweGroup.cve ?g2, _) _ = _ ∧ _ =>
      refine (proj2 (H g1 g2 _ _) eq_refl); vm_compute; reflexivity
  end.
Defined.

(** ** The pairs of a record *)

Lemma cves_of_spec issue :
  cves_of issue = if decide (cve issue = []) then ["No CVE"] else cve issue.
Proof. unfold cves_of. by destruct (cve issue). Qed.

Lemma cwes_of_spec issue :
  cwes_of issue = if decide (cwe issue = []) then ["No CWE"] else cwe issue.
Proof. unfold cwes_of. by destruct (cwe issue). Qed.

Lemma elem_of_cve_cwe_keys issue c w :
  (c, w) ∈ cve_cwe_keys issue ↔ c ∈ cves_of issue ∧ w ∈ cwes_of issue.
Proof.
  unfold cve_cwe_keys. rewrite list_elem_of_bind. split.
  - intros (c' & Hin & Hc). apply list_elem_of_bind in Hin as (w' & Hin & Hw).
    apply list_elem_of_singleton in Hin. by simplify_eq.
  - intros [Hc Hw]. exists c. split; [|done].
    apply list_elem_of_bind. exists w. split; [|done]. by apply list_elem_of_singleton.
Qed.

Lemma cve_cwe_keys_NoDup issue :
  NoDup (cve issue) → NoDup (cwe issue) → NoDup (cve_cwe_keys issue).
Proof.
  intros Hc Hw.
  assert (NoDup (cves_of issue)) as Hcs.
  { rewrite cves_of_spec. case_decide; [apply NoDup_singleton | done]. }
  assert (NoDup (cwes_of issue)) as Hws.
  { rewrite cwes_of_spec. case_decide; [apply NoDup_singleton | done]. }
  unfold cve_cwe_keys. clear Hc Hw.
  induction Hcs as [|c cs Hnin Hcs IH]; [constructor|].
  rewrite bind_cons. apply NoDup_app. split_and!; [| |done].
  - clear -Hws. induction Hws as [|w ws Hnin Hws IH]; [constructor|].
    rewrite bind_cons. simpl. constructor; [|done].
    intros (w' & [= ->]%list_elem_of_singleton & Hw')%list_elem_of_bind. done.
  - intros [c' w'] (w1 & [= -> ->]%list_elem_of_singleton & _)%list_elem_of_bind
      (c2 & (w2 & [= -> ->]%list_elem_of_singleton & _)%list_elem_of_bind & Hc2)%list_elem_of_bind.
    done.
Qed.

Lemma length_filter_NoDup {A} `{EqDecision A} (x : A) l :
  NoDup l → length (filter (λ y, y = x) l) ≤ 1.
Proof.
  induction 1 as [|y l Hnin Hnd IH]; [simpl; lia|].
  rewrite filter_cons. case_decide as E; [|done].
  subst. simpl.
  destruct (filter (λ y, y = x) l) as [|z l'] eqn:E; [simpl; lia|].
  assert (z ∈ filter (λ y, y = x) l) as Hz by (rewrite E; left).
  by apply list_elem_of_filter in Hz as [-> ?].
Qed.

Lemma length_filter_elem {A} `{EqDecision A} (x : A) l :
  x ∈ l ↔ 1 ≤ length (filter (λ y, y = x) l).
Proof.
  split.
  - intros Hx. assert (x ∈ filter (λ y, y = x) l) as H by (by apply list_elem_of_filter).
    destruct (filter (λ y, y = x) l); [by apply elem_of_nil in H | simpl; lia].
  - intros H. destruct (filter (λ y, y = x) l) as [|z l'] eqn:E; [simpl in H; lia|].
    assert (z ∈ filter (λ y, y = x) l) as Hz by (rewrite E; left).
    by apply list_elem_of_filter in Hz as [-> ?].
Qed.

Lemma visits_of_issue_members (issue : SnykIssue) (key : string * string) ks :
  (filter (λ visit, visit.1 = key) ((λ k, (k, issue)) <$> ks)).*2
  = replicate (length (filter (λ k, k = key) ks)) issue.
Proof.
  induction ks as [|k ks IH]; [done|].
  rewrite fmap_cons, !filter_cons. cbn [fst].
  case_decide; [rewrite fmap_cons; simpl|]; by rewrite IH.
Qed.

Lemma filter_replicate {A} (P : A → Prop) `{∀ x, Decision (P x)} n x :
  P x → filter P (replicate n x) = replicate n x.
Proof.
  intros HP. induction n as [|n IH]; [done|].
  simpl. rewrite filter_cons, decide_True by done. by rewrite IH.
Qed.

Lemma cve_cwe_accumulate_issue_get groups issue key :
  dict_get key (CveCwe.accumulate_issue groups issue)
  = match length (filter (λ k, k = key) (cve_cwe_keys issue)) with
    | 0 => dict_get key groups
    | n => Some (cve_cwe_fold (default CveCwe.new_group (dict_get key groups))
                              (replicate n issue))
    end.
Proof.
  rewrite cve_cwe_accumulate_issue_run, dd_run_get, visits_of_issue_members.
  by destruct (length (filter (λ k, k = key) (cve_cwe_keys issue))).
Qed.

Lemma elem_of_pair_labels issue label :
  label ∈ pair_labels issue ↔
  ∃ c w, c ∈ cves_of issue ∧ w ∈ cwes_of issue ∧ label = c +:+ " + " +:+ w.
Proof.
  unfold pair_labels. rewrite list_elem_of_fmap. split.
  - intros ([c w] & -> & [??]%elem_of_cve_cwe_keys). by exists c, w.
  - intros (c & w & ? & ? & ->). exists (c, w). split; [done|].
    by apply elem_of_cve_cwe_keys.
Qed.

(** The examples of the specification: a record with the CVEs CVE-1 and
    CVE-2 and the CWE CWE-A makes two groups with one issue each. *)
Example two_cves_one_cwe :
  (λ g, (CveCweGroup.cve g, CveCweGroup.cwe g, CveCweGroup.total_issues g,
         CveCweGroup.severity_counts g))
    <$> CveCwe.prepare_data_cve_cwe [sample_record]
  = [ ("CVE-1", "CWE-A", 1, [("high", 1)]);
      ("CVE-2", "CWE-A", 1, [("high", 1)]) ].
Proof. vm_compute. reflexivity. Qed.

(** A record with no CVE and no CWE makes the group of the two sentinels. *)
Example no_cve_no_cwe :
  (λ g, (CveCweGroup.cve g, CveCweGroup.cwe g, CveCweGroup.total_issues g))
    <$> CveCwe.prepare_data_cve_cwe [sample_bare_record]
  = [ ("No CVE", "No CWE", 1) ].
Proof. vm_compute. reflexivity. Qed.

(** In the project strategy the record stands in the group of its project,
    with the labels of its pairs. *)
Example project_labels :
  (λ g, (ProjectGroup.project_name g, ProjectGroup.total_issues g,
         ProjectGroup.cve_cwe_pairs g))
    <$> Project.prepare_data_project [sample_record; sample_bare_record]
  = [ ("web", 2, ["CVE-1 + CWE-A"; "CVE-2 + CWE-A"; "No CVE + No CWE"]) ].
Proof. vm_compute. reflexivity. Qed.

(** Groups with 1, 2 and 1 issues come out with the largest first. *)
Example sorted_counts :
  (λ g, (CveCweGroup.cve g, CveCweGroup.total_issues g))
    <$> CveCwe.prepare_data_cve_cwe sample_issues
  = [ ("CVE-2", 2); ("CVE-1", 1); ("CVE-3", 1); ("No CVE", 1) ].
Proof. vm_compute. reflexivity. Qed.

(** Of the four sample records two are fixable: "fixable" and "Partially
    Fixable" are other strings. *)
Example fixable_count_sample :
  Report.fixable_count (prepare_data sample_issues "cve-cwe") = 2
  ∧ Report.fixable_count (prepare_data sample_issues "project") = 2.
Proof. split; vm_compute; reflexivity. Qed.

(** ** The project list of a cve-cwe group *)

Lemma projects_of_snoc ms i :
  projects_of (ms ++ [i])
  = dict_set (project_name i) (project_url i) (projects_of ms).
Proof. unfold projects_of. by rewrite foldl_app. Qed.

Lemma projects_of_NoDup ms : NoDup (projects_of ms).*1.
Proof.
  induction ms as [|i ms IH] using rev_ind; [constructor|].
  rewrite projects_of_snoc. by apply dict_set_NoDup.
Qed.

(** The last record of a name decides the URL the name is bound to. *)
Lemma projects_of_last_write ms n u :
  dict_get n (projects_of ms) = Some u ↔
  ∃ l1 m l2, ms = l1 ++ m :: l2 ∧ project_name m = n ∧ project_url m = u
             ∧ ∀ m', m' ∈ l2 → project_name m' ≠ n.
Proof.
  induction ms as [|i ms IH] using rev_ind.
  - split; [done|]. intros (l1 & m & l2 & E & _). by destruct l1.
  - rewrite projects_of_snoc.
    destruct (decide (project_name i = n)) as [<-|Hne].
    + rewrite dict_set_get. split.
      * intros [= <-]. exists ms, i, []. split_and!; try done.
        intros m' Hm'. by apply elem_of_nil in Hm'.
      * intros (l1 & m & l2 & E & Hn & Hu & Hlast).
        destruct l2 as [|x l2 _] using rev_ind.
        -- apply app_inj_tail in E as [_ ->]. by rewrite Hu.
        -- rewrite app_comm_cons, app_assoc in E.
           apply app_inj_tail in E as [_ <-].
           exfalso. apply (Hlast i); [|done].
           apply elem_of_app. right. left.
    + rewrite dict_set_get_ne by done. rewrite IH. split.
      * intros (l1 & m & l2 & -> & Hn & Hu & Hlast).
        exists l1, m, (l2 ++ [i]). split_and!; try done.
        -- by rewrite <-app_assoc.
        -- intros m' [Hm'| ->%list_elem_of_singleton]%elem_of_app; [by apply Hlast|done].
      * intros (l1 & m & l2 & E & Hn & Hu & Hlast).
        destruct l2 as [|x l2 _] using rev_ind.
        -- apply app_inj_tail in E as [_ ->]. done.
        -- rewrite app_comm_cons, app_assoc in E.
           apply app_inj_tail in E as [-> ->].
           exists l1, m, l2. split_and!; try done.
           intros m' Hm'. apply Hlast. apply elem_of_app. by left.
Qed.

Lemma cve_cwe_group_projects issues g :
  g ∈ CveCwe.prepare_data_cve_cwe issues →
  CveCweGroup.projects g
  = (λ item, {| name := item.1; url := item.2 |})
      <$> sorted_items
            (projects_of (cve_cwe_members (CveCweGroup.cve g, CveCweGroup.cwe g) issues)).
Proof.
  intros ([c w] & d & Hin & ->)%elem_of_prepare_data_cve_cwe.
  apply cve_cwe_groups_elem in Hin as [Hne ->]. simpl.
  by rewrite cve_cwe_fold_projects.
Qed.

Lemma sorted_items_names_increase l i j p q :
  NoDup l.*1 → i < j →
  sorted_items l !! i = Some p → sorted_items l !! j = Some q →
  String.ltb p.1 q.1 = true.
Proof.
  intros Hnd Hij Hi Hj.
  assert (stands_before p q (sorted_items l)) as Hpq
    by (apply stands_before_lookup; eauto).
  apply sorted_with_ordered in Hpq;
    [|apply tuple_ltb_asym|apply tuple_ltb_negtrans].
  assert (p.1 ≠ q.1) as Hne.
  { assert (NoDup (sorted_items l).*1) as Hnd'.
    { unfold sorted_items. by rewrite sorted_with_perm. }
    intros E. assert (i = j); [|lia].
    eapply (NoDup_lookup _ _ _ p.1 Hnd'); rewrite list_lookup_fmap.
    - by rewrite Hi.
    - rewrite Hj. simpl. by rewrite E. }
  unfold tuple_ltb in Hpq. rewrite decide_False in Hpq by done.
  by apply str_ltb_trichotomy.
Qed.

Lemma projects_of_names ms n :
  n ∈ (projects_of ms).*1 ↔ n ∈ project_name <$> ms.
Proof.
  induction ms as [|i ms IH] using rev_ind; [done|].
  rewrite projects_of_snoc, dict_set_keys, fmap_app, elem_of_app, <-IH. simpl.
  rewrite list_elem_of_singleton.
  case_decide as E; [|rewrite elem_of_app, list_elem_of_singleton; tauto].
  split; [tauto | intros [?| ->]; done].
Qed.

Lemma last_of_name ms m :
  m ∈ ms →
  ∃ l1 m' l2, ms = l1 ++ m' :: l2 ∧ project_name m' = project_name m
              ∧ ∀ x, x ∈ l2 → project_name x ≠ project_name m.
Proof.
  intros Hm.
  destruct (dict_get (project_name m) (projects_of ms)) as [u|] eqn:E.
  - apply projects_of_last_write in E as (l1 & m' & l2 & ? & ? & _ & ?).
    by exists l1, m', l2.
  - apply dict_get_None in E. exfalso. apply E, projects_of_names.
    apply list_elem_of_fmap. by exists m.
Qed.

(** C9, as the code has it.  The project list of a cve-cwe group is sorted
    by project name and holds one entry for each project name of the records
    accumulated into the group, with the URL of the last of these records
    that has the name.  When the records of a name agree on its URL, the
    list holds exactly the (name, URL) pairs of the records. *)
Theorem projects_last_url_wins (issues : list SnykIssue) (g : CveCweGroup.t) :
  g ∈ CveCwe.prepare_data_cve_cwe issues →
  let members := cve_cwe_members (CveCweGroup.cve g, CveCweGroup.cwe g) issues in
  (∀ i j p q, i < j →
     CveCweGroup.projects g !! i = Some p → CveCweGroup.projects g !! j = Some q →
     String.ltb (name p) (name q) = true)
  ∧ (∀ p, p ∈ CveCweGroup.projects g ↔
       ∃ l1 m l2, members = l1 ++ m :: l2 ∧ p = project_entry_of m
                  ∧ ∀ m', m' ∈ l2 → project_name m' ≠ project_name m)
  ∧ ((∀ m1 m2, m1 ∈ members → m2 ∈ members →
        project_name m1 = project_name m2 → project_url m1 = project_url m2) →
     ∀ p, p ∈ CveCweGroup.projects g ↔ ∃ m, m ∈ members ∧ p = project_entry_of m).
Proof.
  intros Hg members. rewrite (cve_cwe_group_projects _ _ Hg). fold members.
  assert (∀ p, p ∈ (λ item, {| name := item.1; url := item.2 |})
                     <$> sorted_items (projects_of members) ↔
               ∃ l1 m l2, members = l1 ++ m :: l2 ∧ p = project_entry_of m
                          ∧ ∀ m', m' ∈ l2 → project_name m' ≠ project_name m)
    as Hmem.
  { intros [n u]. rewrite list_elem_of_fmap. split.
    - intros ([n' u'] & [= -> ->] & Hin). unfold sorted_items in Hin.
      rewrite elem_of_sorted_with in Hin.
      apply dict_get_elem in Hin; [|apply projects_of_NoDup].
      apply projects_of_last_write in Hin as (l1 & m & l2 & ? & <- & <- & ?).
      by exists l1, m, l2.
    - intros (l1 & m & l2 & E & [= -> ->] & Hlast). exists (project_name m, project_url m).
      split; [done|]. unfold sorted_items. rewrite elem_of_sorted_with.
      apply dict_get_Some_elem, projects_of_last_write. by exists l1, m, l2. }
  split_and!.
  - intros i j p q Hij Hi Hj.
    apply list_lookup_fmap_Some in Hi as (x & -> & Hi).
    apply list_lookup_fmap_Some in Hj as (y & -> & Hj).
    simpl. eapply sorted_items_names_increase; [apply projects_of_NoDup|done..].
  - done.
  - intros Hfun p. rewrite Hmem. split.
    + intros (l1 & m & l2 & E & -> & _). exists m. split; [|done].
      rewrite E. apply elem_of_app. right. left.
    + intros (m & Hm & ->).
      destruct (last_of_name _ _ Hm) as (l1 & m' & l2 & E & Hn & Hlast).
      exists l1, m', l2. split_and!; [done| |by rewrite Hn].
      unfold project_entry_of. rewrite Hn. f_equal. symmetry. apply Hfun; [|done..].
      rewrite E. apply elem_of_app. right. left.
Qed.

Lemma projects_last_url_wins_witness :
  ∃ g, CveCwe.prepare_data_cve_cwe two_url_issues !! 0 = Some g
       ∧ {| name := "web"; url := "https://snyk.example/new" |}
         ∈ CveCweGroup.projects g.
Proof.
  eexists. split; [vm_compute; reflexivity|].
  lazymatch goal with
  | |- _ ∈ CveCweGroup.projects ?g =>
      assert (g ∈ CveCwe.prepare_data_cve_cwe two_url_issues) as Hg
        by (apply (list_elem_of_lookup_2 _ 0); vm_compute; reflexivity);
      apply (proj1 (proj2 (projects_last_url_wins two_url_issues g Hg)))
  end.
  exists [sample_issue "high" "Injection" ["CVE-1"] ["CWE-A"]
            "web" "https://snyk.example/old" "Fixable"],
         (sample_issue "high" "Injection" ["CVE-1"] ["CWE-A"]
            "web" "https://snyk.example/new" "Fixable"), [].
  split_and!; [vm_compute; reflexivity | reflexivity |].
  intros m' Hm'. by apply elem_of_nil in Hm'.
Defined.

(** C9, as stated, fails: of two records of one group that share a project
    name and differ in the project URL, the first has no entry of its own in
    the project list of the group. *)
Lemma projects_not_all_pairs :
  ∃ g m, CveCwe.prepare_data_cve_cwe two_url_issues = [g]
         ∧ cve_cwe_members (CveCweGroup.cve g, CveCweGroup.cwe g) two_url_issues
           = two_url_issues
         ∧ m ∈ two_url_issues
         ∧ (project_entry_of m ∉ CveCweGroup.projects g)
         ∧ CveCweGroup.projects g
           = [ {| name := "web"; url := "https://snyk.example/new" |} ].
Proof.
  eexists _, (sample_issue "high" "Injection" ["CVE-1"] ["CWE-A"]
                "web" "https://snyk.example/old" "Fixable").
  split_and!.
  - vm_compute. reflexivity.
  - vm_compute. reflexivity.
  - left.
  - intros H. apply list_elem_of_singleton in H. discriminate H.
  - reflexivity.
Qed.

(** * Facts about the JSON decoder *)

Lemma str_app_cons x (a b : string) : String x a +:+ b = String x (a +:+ b).
Proof. reflexivity. Qed.

Lemma str_app_nil (b : string) : "" +:+ b = b.
Proof. reflexivity. Qed.

Lemma str_app_assoc (a b c : string) : (a +:+ b) +:+ c = a +:+ (b +:+ c).
Proof.
  induction a as [|x a IH]; [done|]. rewrite !str_app_cons. by rewrite IH.
Qed.

Lemma str_length_app (a b : string) :
  String.length (a +:+ b) = String.length a + String.length b.
Proof.
  induction a as [|x a IH]; [done|]. rewrite str_app_cons. simpl. by rewrite IH.
Qed.

(** The literal of a character is read back as the character. *)
Lemma scanstring_escape_char c tl :
  Json.scanstring (Json.escape_char c +:+ tl)
  = '(t, rest) ← Json.scanstring tl; Some (String c t, rest).
Proof.
  unfold Json.escape_char.
  repeat (case_decide; [subst c; reflexivity|]).
  destruct (N_of_ascii c <? 32)%N eqn:Hc.
  - destruct c as [[] [] [] [] [] [] [] []];
      first [ discriminate Hc | exfalso; auto; fail | reflexivity ].
  - cbv iota. rewrite str_app_cons, str_app_nil. simpl.
    repeat (rewrite decide_False by done). by rewrite Hc.
Qed.

Lemma scanstring_escape s rest :
  Json.scanstring (Json.escape s +:+ String Json.quote rest) = Some (s, rest).
Proof.
  induction s as [|c s IH].
  - reflexivity.
  - cbn [Json.escape]. rewrite str_app_assoc, scanstring_escape_char, IH. done.
Qed.

Lemma skip_ws_pad pad s :
  Json.skip_ws pad = "" → Json.skip_ws (pad +:+ s) = Json.skip_ws s.
Proof.
  induction pad as [|c pad IH]; [done|]. rewrite str_app_cons. simpl.
  destruct (Json.is_ws c); [done|]. discriminate.
Qed.

Lemma scan_once_quote lim fuel room s :
  Json.scan_once lim (S fuel) room (String Json.quote s)
  = '(str, rest) ← Json.decoded (Json.scanstring s); inr (PStr str, rest).
Proof. reflexivity. Qed.

Lemma skip_ws_quote s : Json.skip_ws (String Json.quote s) = String Json.quote s.
Proof. reflexivity. Qed.

Lemma scan_items_S lim fuel room s :
  Json.scan_items lim (S fuel) room s
  = '(value, r) ← Json.scan_once lim fuel room s;
    match Json.skip_ws r with
    | EmptyString => inl Json.JSONDecodeError
    | String c r1 =>
        if decide (c = ","%char) then
          '(values, rest) ← Json.scan_items lim fuel room (Json.skip_ws r1);
          inr (value :: values, rest)
        else if decide (c = "]"%char) then inr ([value], r1)
        else inl Json.JSONDecodeError
    end.
Proof. reflexivity. Qed.

Lemma join_literals_cons pad x l tl :
  Json.join_literals pad (x :: l) +:+ tl
  = String Json.quote (Json.escape x +:+ String Json.quote (after_first pad l tl)).
Proof.
  destruct l as [|y l].
  - cbn [Json.join_literals after_first]. unfold Json.string_literal.
    by repeat (rewrite str_app_cons || rewrite str_app_assoc || rewrite str_app_nil).
  - change (Json.join_literals pad (x :: y :: l))
      with (Json.string_literal x +:+ "," +:+ pad +:+ Json.join_literals pad (y :: l)).
    cbn [after_first]. unfold Json.string_literal at 1.
    by repeat (rewrite str_app_cons || rewrite str_app_assoc || rewrite str_app_nil).
Qed.

Lemma scan_items_join_literals lim room pad x l rest fuel :
  Json.skip_ws pad = "" → length (x :: l) < fuel →
  Json.scan_items lim fuel room (Json.join_literals pad (x :: l) +:+ String "]"%char rest)
  = inr (PStr <$> (x :: l), rest).
Proof.
  intros Hpad. revert x fuel. induction l as [|y l IH]; intros x fuel Hfuel.
  - destruct fuel as [|[|fuel]]; [simpl in Hfuel; lia..|].
    rewrite scan_items_S, join_literals_cons, scan_once_quote, scanstring_escape.
    reflexivity.
  - destruct fuel as [|[|fuel]]; [simpl in Hfuel; lia..|].
    rewrite scan_items_S, join_literals_cons, scan_once_quote, scanstring_escape.
    cbn [mbind Json.result_bind Json.decoded after_first Json.skip_ws Json.is_ws].
    rewrite decide_True by done.
    rewrite skip_ws_pad by done.
    rewrite (join_literals_cons pad y l), skip_ws_quote.
    rewrite <-(join_literals_cons pad y l).
    rewrite IH by (simpl in *; lia). done.
Qed.

Lemma length_join_literals pad l :
  length l ≤ String.length (Json.join_literals pad l).
Proof.
  induction l as [|x l IH]; [done|].
  destruct l as [|y l].
  - cbn [Json.join_literals]. unfold Json.string_literal. simpl. lia.
  - change (Json.join_literals pad (x :: y :: l))
      with (Json.string_literal x +:+ "," +:+ pad +:+ Json.join_literals pad (y :: l)).
    rewrite !str_length_app. unfold Json.string_literal at 1.
    simpl in *. lia.
Qed.

(** [json.loads] reads the text of a list of strings back as the list,
    whatever the limits of the interpreter. *)
Lemma loads_dumps lim pad l :
  Json.skip_ws pad = "" →
  Json.loads lim (Json.dumps pad l) = inr (PList (PStr <$> l)).
Proof.
  intros Hpad. unfold Json.loads, Json.dumps.
  pose proof (length_join_literals pad l) as Hlen.
  set (fuel := 2 * String.length ("[" +:+ Json.join_literals pad l +:+ "]")).
  assert (length l < fuel) as Hfuel.
  { unfold fuel. rewrite !str_length_app. simpl. lia. }
  clearbody fuel. rewrite str_app_cons, str_app_nil.
  destruct l as [|x l].
  - reflexivity.
  - cbn [Json.skip_ws Json.is_ws Json.scan_once].
    rewrite decide_False by done. rewrite decide_False by done.
    rewrite decide_True by done.
    rewrite join_literals_cons, skip_ws_quote.
    rewrite decide_False by done.
    rewrite <-join_literals_cons.
    rewrite scan_items_join_literals by done. reflexivity.
Qed.

(** ** The fuel of the decoder

    A value is read in fewer calls than twice the length of the text: the
    result of [Json.loads] does not depend on the fuel it gives. *)

Lemma scanstring_cons c r :
  Json.scanstring (String c r)
  = if decide (c = Json.quote) then Some ("", r)
    else if decide (c = Json.backslash) then
      match r with
      | EmptyString => None
      | String e r1 =>
          if decide (e = "u"%char) then
            match r1 with
            | String h1 (String h2 (String h3 (String h4 r'))) =>
                uni ← Json.decode_uXXXX h1 h2 h3 h4;
                let alone :=
                  '(t, rest) ← Json.scanstring r'; Some (Json.chr uni +:+ t, rest) in
                if Json.is_high_surrogate uni then
                  match r' with
                  | String b (String u r2) =>
                      if decide (b = Json.backslash ∧ u = "u"%char) then
                        match r2 with
                        | String g1 (String g2 (String g3 (String g4 r3))) =>
                            uni2 ← Json.decode_uXXXX g1 g2 g3 g4;
                            if Json.is_low_surrogate uni2 then
                              '(t, rest) ← Json.scanstring r3;
                              Some (Json.chr (Json.join_surrogates uni uni2) +:+ t, rest)
                            else alone
                        | _ => None
                        end
                      else alone
                  | _ => alone
                  end
                else alone
            | _ => None
            end
          else
            ch ← Json.simple_escape e;
            '(t, rest) ← Json.scanstring r1;
            Some (String ch t, rest)
      end
    else if (N_of_ascii c <? 32)%N then None
    else
      '(t, rest) ← Json.scanstring r;
      Some (String c t, rest).
Proof. reflexivity. Qed.

Lemma scanstring_shorter s t r :
  Json.scanstring s = Some (t, r) → String.length r < String.length s.
Proof.
  remember (String.length s) as n eqn:Hn.
  assert (String.length s ≤ n) as Hle by lia. clear Hn.
  revert s t r Hle. induction n as [|n IH]; intros s t r Hle.
  - destruct s; [done | simpl in Hle; lia].
  - destruct s as [|c s]; [done|]. rewrite scanstring_cons. simpl in Hle.
    assert (∀ s' (f : string → string) k, String.length s' + k ≤ String.length s →
              ('(t', rest) ← Json.scanstring s'; Some (f t', rest)) = Some (t, r) →
              String.length r < S n) as Hrec.
    { intros s' f k Hk Hs'.
      destruct (Json.scanstring s') as [[t' rest]|] eqn:E; [|done].
      simpl in Hs'. injection Hs' as _ <-. apply IH in E; lia. }
    destruct (decide (c = Json.quote)); [intros [= _ <-]; lia|].
    destruct (decide (c = Json.backslash)).
    + destruct s as [|esc r1]; [done|]. simpl in Hle.
      destruct (decide (esc = "u"%char)).
      * destruct r1 as [|h1 [|h2 [|h3 [|h4 r']]]]; try done. simpl in Hle.
        destruct (Json.decode_uXXXX h1 h2 h3 h4) as [uni|]; [|done].
        cbn [mbind option_bind]. cbv zeta.
        assert (('(t', rest) ← Json.scanstring r'; Some (Json.chr uni +:+ t', rest))
                = Some (t, r) → String.length r < S n) as Halone.
        { apply (Hrec r' (λ t', Json.chr uni +:+ t') 5). simpl. lia. }
        destruct (Json.is_high_surrogate uni); [|done].
        destruct r' as [|b [|u r2]]; try done.
        destruct (decide (b = Json.backslash ∧ u = "u"%char)); [|done].
        destruct r2 as [|g1 [|g2 [|g3 [|g4 r3]]]]; try done.
        destruct (Json.decode_uXXXX g1 g2 g3 g4) as [uni2|]; [|done].
        cbn [mbind option_bind].
        destruct (Json.is_low_surrogate uni2); [|done].
        apply (Hrec r3 (λ t', Json.chr (Json.join_surrogates uni uni2) +:+ t') 11).
        simpl. lia.
      * destruct (Json.simple_escape esc) as [ch|]; [|done]. cbn [mbind option_bind].
        apply (Hrec r1 (String ch) 1). simpl. lia.
    + destruct (N_of_ascii c <? 32)%N; [done|].
      apply (Hrec s (String c) 0). lia.
Qed.

Lemma skip_ws_shorter s : String.length (Json.skip_ws s) ≤ String.length s.
Proof.
  induction s as [|c s IH]; [done|]. simpl.
  destruct (Json.is_ws c); simpl; lia.
Qed.

Lemma strip_prefix_length p s r :
  Json.strip_prefix p s = Some r → String.length s = String.length p + String.length r.
Proof.
  revert s. induction p as [|a p IH]; intros [|b s]; simpl; try done.
  - by intros [= <-].
  - by intros [= <-].
  - case_decide; [|done]. intros ?%IH. lia.
Qed.

Lemma span_digits_length s :
  String.length (Json.span_digits s).2 ≤ String.length s.
Proof.
  induction s as [|c s IH]; [done|]. simpl.
  destruct (Json.is_digit c); [|simpl; lia].
  destruct (Json.span_digits s). simpl in *. lia.
Qed.

Lemma scan_int_shorter s i r :
  Json.scan_int s = Some (i, r) → String.length r < String.length s.
Proof.
  unfold Json.scan_int. destruct s as [|c s]; [done|].
  pose proof (span_digits_length (String c s)) as H1.
  pose proof (span_digits_length s) as H2.
  case_decide.
  - destruct s as [|d r1]; [done|].
    case_decide; [intros [= _ <-]; simpl; lia|].
    destruct (Json.is_digit d); [|done].
    destruct (Json.span_digits (String d r1)). intros [= _ <-]. simpl in *. lia.
  - case_decide; [intros [= _ <-]; simpl; lia|].
    destruct (Json.is_digit c) eqn:Hd; [|done].
    revert H1. simpl. rewrite Hd.
    destruct (Json.span_digits s). simpl in *. intros ? [= _ <-]. lia.
Qed.

Lemma scan_frac_length s : String.length (Json.scan_frac s).2 ≤ String.length s.
Proof.
  unfold Json.scan_frac. destruct s as [|c s]; [done|].
  case_decide; [|done].
  pose proof (span_digits_length s) as Hs.
  destruct (Json.span_digits s) as [[|a d] rest]; simpl in *; lia.
Qed.

Lemma scan_exp_length s : String.length (Json.scan_exp s).2 ≤ String.length s.
Proof.
  unfold Json.scan_exp. destruct s as [|e s]; [done|].
  case_decide; [|done].
  destruct s as [|c r1].
  - simpl. done.
  - pose proof (span_digits_length r1) as H1.
    pose proof (span_digits_length (String c r1)) as H2.
    repeat case_decide.
    + destruct (Json.span_digits r1) as [[|a d] rest]; simpl in *; lia.
    + destruct (Json.span_digits r1) as [[|a d] rest]; simpl in *; lia.
    + destruct (Json.span_digits (String c r1)) as [[|a d] rest]; simpl in *; lia.
Qed.

Lemma scan_number_shorter lim s n r :
  Json.scan_number lim s = inr (n, r) → String.length r < String.length s.
Proof.
  unfold Json.scan_number.
  destruct (Json.scan_int s) as [[i r0]|] eqn:Hi; [|done]. simpl.
  apply scan_int_shorter in Hi.
  pose proof (scan_frac_length r0) as Hf.
  destruct (Json.scan_frac r0) as [f r1].
  pose proof (scan_exp_length r1) as He.
  destruct (Json.scan_exp r1) as [x r2].
  destruct f, x; try destruct (Json.exceeds_int_limit lim i);
    try done; intros [= _ <-]; simpl in *; lia.
Qed.

Lemma scan_atom_shorter lim s v r :
  Json.scan_atom lim s = inr (v, r) → String.length r < String.length s.
Proof.
  unfold Json.scan_atom.
  assert (∀ p r', Json.strip_prefix p s = Some r' → p ≠ "" →
            String.length r' < String.length s) as Hlit.
  { intros p r' E Hp. apply strip_prefix_length in E. destruct p; [done|].
    simpl in E. lia. }
  destruct (Json.strip_prefix "null" s) eqn:E1;
    [intros [= _ <-]; by eapply Hlit|].
  destruct (Json.strip_prefix "true" s) eqn:E2;
    [intros [= _ <-]; by eapply Hlit|].
  destruct (Json.strip_prefix "false" s) eqn:E3;
    [intros [= _ <-]; by eapply Hlit|].
  destruct (Json.scan_number lim s) as [[| |]|[n r0]] eqn:E4; try done;
    [|intros [= _ <-]; by eapply scan_number_shorter].
  destruct (Json.strip_prefix "NaN" s) eqn:E5;
    [intros [= _ <-]; by eapply Hlit|].
  destruct (Json.strip_prefix "Infinity" s) eqn:E6;
    [intros [= _ <-]; by eapply Hlit|].
  destruct (Json.strip_prefix "-Infinity" s) eqn:E7;
    [intros [= _ <-]; by eapply Hlit|].
  done.
Qed.

Lemma scan_once_S lim fuel room s :
  Json.scan_once lim (S fuel) room s
  = match s with
    | EmptyString => inl Json.JSONDecodeError
    | String c r =>
        if decide (c = Json.quote) then
          '(str, rest) ← Json.decoded (Json.scanstring r); inr (PStr str, rest)
        else if decide (c = "{"%char) then
          match room with
          | O => inl Json.RecursionError
          | S room =>
              match Json.skip_ws r with
              | EmptyString => inl Json.JSONDecodeError
              | String c1 r1 =>
                  if decide (c1 = "}"%char) then inr (PDict [], r1)
                  else if decide (c1 = Json.quote) then
                    '(pairs, rest) ← Json.scan_members lim fuel room r1;
                    inr (PDict (Json.dict_of_pairs pairs), rest)
                  else inl Json.JSONDecodeError
              end
          end
        else if decide (c = "["%char) then
          match room with
          | O => inl Json.RecursionError
          | S room =>
              match Json.skip_ws r with
              | EmptyString => inl Json.JSONDecodeError
              | String c1 r1 =>
                  if decide (c1 = "]"%char) then inr (PList [], r1)
                  else
                    '(values, rest) ← Json.scan_items lim fuel room (String c1 r1);
                    inr (PList values, rest)
              end
          end
        else Json.scan_atom lim s
    end.
Proof. reflexivity. Qed.

Lemma scan_members_S lim fuel room s :
  Json.scan_members lim (S fuel) room s
  = '(key, r) ← Json.decoded (Json.scanstring s);
    match Json.skip_ws r with
    | EmptyString => inl Json.JSONDecodeError
    | String c r1 =>
        if decide (c = ":"%char) then
          '(value, r2) ← Json.scan_once lim fuel room (Json.skip_ws r1);
          match Json.skip_ws r2 with
          | EmptyString => inl Json.JSONDecodeError
          | String c2 r3 =>
              if decide (c2 = "}"%char) then inr ([(key, value)], r3)
              else if decide (c2 = ","%char) then
                match Json.skip_ws r3 with
                | EmptyString => inl Json.JSONDecodeError
                | String c4 r4 =>
                    if decide (c4 = Json.quote) then
                      '(pairs, rest) ← Json.scan_members lim fuel room r4;
                      inr ((key, value) :: pairs, rest)
                    else inl Json.JSONDecodeError
                end
              else inl Json.JSONDecodeError
          end
        else inl Json.JSONDecodeError
    end.
Proof. reflexivity. Qed.

(** Every scanner consumes some of its input; the loop of an array
    consumes at least two characters. *)
Lemma scan_shorter lim fuel :
  (∀ room s v r, Json.scan_once lim fuel room s = inr (v, r) →
                 String.length r < String.length s)
  ∧ (∀ room s vs r, Json.scan_items lim fuel room s = inr (vs, r) →
                    S (String.length r) < String.length s)
  ∧ (∀ room s ps r, Json.scan_members lim fuel room s = inr (ps, r) →
                    String.length r < String.length s).
Proof.
  induction fuel as [|fuel (IHonce & IHitems & IHmembers)]; [done|].
  split_and!.
  - intros room s v r. rewrite scan_once_S. destruct s as [|c s]; [done|].
    pose proof (skip_ws_shorter s) as Hws.
    destruct (decide (c = Json.quote)).
    { destruct (Json.scanstring s) as [[str rest]|] eqn:E; [|done].
      apply scanstring_shorter in E. intros [= _ <-]. simpl. lia. }
    destruct (decide (c = "{"%char)).
    { destruct room as [|room]; [done|].
      destruct (Json.skip_ws s) as [|c1 r1]; [done|]. simpl in Hws.
      destruct (decide (c1 = "}"%char)); [intros [= _ <-]; simpl; lia|].
      destruct (decide (c1 = Json.quote)); [|done].
      destruct (Json.scan_members lim fuel room r1) as [err|[pairs rest]] eqn:E; [done|].
      apply IHmembers in E. intros [= _ <-]. simpl. lia. }
    destruct (decide (c = "["%char)).
    { destruct room as [|room]; [done|].
      destruct (Json.skip_ws s) as [|c1 r1]; [done|]. simpl in Hws.
      destruct (decide (c1 = "]"%char)); [intros [= _ <-]; simpl; lia|].
      destruct (Json.scan_items lim fuel room (String c1 r1)) as [err|[values rest]] eqn:E;
        [done|].
      apply IHitems in E. intros [= _ <-]. simpl in *. lia. }
    apply scan_atom_shorter.
  - intros room s vs r. rewrite scan_items_S.
    destruct (Json.scan_once lim fuel room s) as [err|[value r0]] eqn:E; [done|].
    apply IHonce in E. cbn [mbind Json.result_bind].
    pose proof (skip_ws_shorter r0) as Hws.
    destruct (Json.skip_ws r0) as [|c r1]; [done|]. simpl in Hws.
    destruct (decide (c = ","%char)).
    { pose proof (skip_ws_shorter r1) as Hws1.
      destruct (Json.scan_items lim fuel room (Json.skip_ws r1)) as [err|[values rest]] eqn:E1;
        [done|].
      apply IHitems in E1. intros [= _ <-]. lia. }
    destruct (decide (c = "]"%char)); [|done].
    intros [= _ <-]. lia.
  - intros room s ps r. rewrite scan_members_S.
    destruct (Json.scanstring s) as [[key r0]|] eqn:E; [|done].
    apply scanstring_shorter in E. cbn [mbind Json.result_bind Json.decoded].
    pose proof (skip_ws_shorter r0) as Hws.
    destruct (Json.skip_ws r0) as [|c r1]; [done|]. simpl in Hws.
    destruct (decide (c = ":"%char)); [|done].
    pose proof (skip_ws_shorter r1) as Hws1.
    destruct (Json.scan_once lim fuel room (Json.skip_ws r1)) as [err|[value r2]] eqn:E1;
      [done|].
    apply IHonce in E1. cbn [mbind Json.result_bind].
    pose proof (skip_ws_shorter r2) as Hws2.
    destruct (Json.skip_ws r2) as [|c2 r3]; [done|]. simpl in Hws2.
    destruct (decide (c2 = "}"%char)); [intros [= _ <-]; lia|].
    destruct (decide (c2 = ","%char)); [|done].
    pose proof (skip_ws_shorter r3) as Hws3.
    destruct (Json.skip_ws r3) as [|c4 r4]; [done|]. simpl in Hws3.
    destruct (decide (c4 = Json.quote)); [|done].
    destruct (Json.scan_members lim fuel room r4) as [err|[pairs rest]] eqn:E2; [done|].
    apply IHmembers in E2. intros [= _ <-]. lia.
Qed.

(** With more fuel than twice the length of the input, the fuel does not
    matter. *)
Lemma scan_fuel lim fuel1 :
  ∀ fuel2,
  (∀ room s, 2 * String.length s < fuel1 → 2 * String.length s < fuel2 →
        Json.scan_once lim fuel1 room s = Json.scan_once lim fuel2 room s)
  ∧ (∀ room s, 2 * String.length s + 1 < fuel1 → 2 * String.length s + 1 < fuel2 →
          Json.scan_items lim fuel1 room s = Json.scan_items lim fuel2 room s)
  ∧ (∀ room s, 2 * String.length s + 1 < fuel1 → 2 * String.length s + 1 < fuel2 →
          Json.scan_members lim fuel1 room s = Json.scan_members lim fuel2 room s).
Proof.
  induction fuel1 as [|fuel1 IH]; intros fuel2; [split_and!; intros; lia|].
  destruct fuel2 as [|fuel2]; [split_and!; intros; lia|].
  destruct (IH fuel2) as (IHonce & IHitems & IHmembers).
  destruct (scan_shorter lim fuel2) as (Sonce & Sitems & Smembers).
  split_and!.
  - intros room s H1 H2. rewrite !scan_once_S. destruct s as [|c s]; [done|].
    simpl in H1, H2. pose proof (skip_ws_shorter s) as Hws.
    repeat case_decide; try done.
    + destruct room as [|room]; [done|].
      destruct (Json.skip_ws s) as [|c1 r1]; [done|]. simpl in Hws.
      repeat case_decide; try done.
      rewrite IHmembers by lia. done.
    + destruct room as [|room]; [done|].
      destruct (Json.skip_ws s) as [|c1 r1]; [done|]. simpl in Hws.
      repeat case_decide; try done.
      rewrite IHitems by (simpl; lia). done.
  - intros room s H1 H2. rewrite !scan_items_S.
    rewrite IHonce by lia.
    destruct (Json.scan_once lim fuel2 room s) as [err|[value r0]] eqn:E; [done|].
    apply Sonce in E. cbn [mbind Json.result_bind].
    pose proof (skip_ws_shorter r0) as Hws.
    destruct (Json.skip_ws r0) as [|c r1]; [done|]. simpl in Hws.
    repeat case_decide; try done.
    pose proof (skip_ws_shorter r1) as Hws1.
    rewrite IHitems by lia. done.
  - intros room s H1 H2. rewrite !scan_members_S.
    destruct (Json.scanstring s) as [[key r0]|] eqn:E; [|done].
    apply scanstring_shorter in E. cbn [mbind Json.result_bind Json.decoded].
    pose proof (skip_ws_shorter r0) as Hws.
    destruct (Json.skip_ws r0) as [|c r1]; [done|]. simpl in Hws.
    repeat case_decide; try done.
    pose proof (skip_ws_shorter r1) as Hws1.
    rewrite IHonce by lia.
    destruct (Json.scan_once lim fuel2 room (Json.skip_ws r1)) as [err|[value r2]] eqn:E1;
      [done|].
    apply Sonce in E1. cbn [mbind Json.result_bind].
    pose proof (skip_ws_shorter r2) as Hws2.
    destruct (Json.skip_ws r2) as [|c2 r3]; [done|]. simpl in Hws2.
    repeat case_decide; try done.
    pose proof (skip_ws_shorter r3) as Hws3.
    destruct (Json.skip_ws r3) as [|c4 r4]; [done|]. simpl in Hws3.
    repeat case_decide; try done.
    rewrite IHmembers by lia. done.
Qed.

(** [Json.loads] gives the decoder enough fuel: more changes nothing. *)
Lemma loads_fuel lim s extra :
  Json.loads lim s
  = '(obj, r) ← Json.scan_once lim (S (2 * String.length s) + extra)
                  (S (Json.recursion_room lim)) (Json.skip_ws s);
    match Json.skip_ws r with
    | EmptyString => inr obj
    | _ => inl Json.JSONDecodeError
    end.
Proof.
  unfold Json.loads. pose proof (skip_ws_shorter s) as Hws.
  destruct (scan_fuel lim (S (2 * String.length s)) (S (2 * String.length s) + extra))
    as (H & _).
  rewrite (H _ (Json.skip_ws s)) by lia. done.
Qed.

(** ** The limits of the interpreter

    The decoder raises [ValueError] only on a text of more than 640
    characters and of more characters than the limit of [int], which is
    then set, and [RecursionError] only on a text of more characters than
    there are levels to enter: a short text meets no limit. *)









(** * The properties of the record model *)

(** C4. The validator of the list fields reads the JSON text of a list of
    strings back as that list, whatever the limits of the interpreter: the
    text is the bracketed list of the literals of the strings, separated by
    a comma and any whitespace [pad]. *)
Theorem list_field_round_trip (lim : Json.limits) (pad : string) (l : list string) :
  Json.skip_ws pad = "" →
  parse_json_array lim (PStr (Json.dumps pad l)) = inr (PList (PStr <$> l)).
Proof. intros Hpad. unfold parse_json_array. by rewrite loads_dumps. Qed.

Lemma list_field_round_trip_witness :
  Json.dumps "" ["A"; "B"]
  = String "[" (String Json.quote (String "A" (String Json.quote (String ","
      (String Json.quote (String "B" (String Json.quote "]")))))))
  ∧ parse_json_array sample_limits (PStr (Json.dumps "" ["A"; "B"]))
    = inr (PList [PStr "A"; PStr "B"])
  ∧ parse_json_array sample_limits (PStr (Json.dumps " " ["A"; "B"]))
    = inr (PList [PStr "A"; PStr "B"]).
Proof.
  split_and!.
  - reflexivity.
  - exact (list_field_round_trip sample_limits "" ["A"; "B"] eq_refl).
  - exact (list_field_round_trip sample_limits " " ["A"; "B"] eq_refl).
Defined.

(** What the validator of the list fields raises is what [json.loads]
    raises besides [JSONDecodeError]. *)
Lemma parse_json_array_raises lim v e :
  parse_json_array lim v = inl e →
  ∃ s, v = PStr s
    ∧ ((e = RecursionError ∧ Json.loads lim s = inl Json.RecursionError)
       ∨ ∃ msg, e = ValueError msg ∧ Json.loads lim s = inl (Json.ValueError msg)).
Proof.
  unfold parse_json_array. destruct v as [| | |s|items| |]; try done.
  destruct (Json.loads lim s) as [[|msg|]|parsed] eqn:E; try done; intros [= <-];
    exists s; (split; [done|]); [right; by exists msg | by left].
Qed.

Lemma parse_json_array_returns lim v r :
  parse_json_array lim v = inr r → ∃ items, r = PList items.
Proof.
  unfold parse_json_array. destruct v as [| | |s|items| |]; try (intros [= <-]; eauto).
  destruct (Json.loads lim s) as [[|msg|]|[]]; try done; intros [= <-]; eauto.
Qed.



(** ** The constructor: errors and exceptions *)

Lemma ap_raise {A B : Type} (f : validated (A → B)) (x : validated A) :
  raise_of (ap f x)
  = match raise_of f with Some e => Some e | None => raise_of x end.
Proof. by destruct f, x. Qed.

Lemma ap_quiet {A B : Type} (f : validated (A → B)) (x : validated A) :
  raise_of (ap f x) = None →
  raise_of f = None ∧ errors_of (ap f x) = errors_of f ++ errors_of x.
Proof. destruct f, x; simpl; try done; by rewrite ?app_nil_r. Qed.

Lemma ap_Valid {A B : Type} (f : validated (A → B)) (x : validated A) b :
  ap f x = Valid b ↔ ∃ g a, f = Valid g ∧ x = Valid a ∧ b = g a.
Proof.
  destruct f as [g|e|e], x as [a|e'|e']; simpl; split; intros H;
    try discriminate; try (destruct H as (? & ? & ? & ? & ?); discriminate).
  - injection H as <-. eauto.
  - destruct H as (g' & a' & [= <-] & [= <-] & ->). done.
Qed.

Lemma str_items_quiet alias (l : list pyval) : raise_of (str_items alias l) = None.
Proof.
  induction l as [|v l IH]; [done|]. cbn [str_items]. rewrite ap_raise, IH.
  by destruct v.
Qed.

Lemma str_field_quiet alias field kwargs :
  raise_of (str_field alias field kwargs) = None.
Proof. unfold str_field. by destruct (lookup_field alias field kwargs) as [[]|]. Qed.

Lemma optional_str_field_quiet alias field kwargs :
  raise_of (optional_str_field alias field kwargs) = None.
Proof.
  unfold optional_str_field. by destruct (lookup_field alias field kwargs) as [[]|].
Qed.

Lemma int_field_quiet validate_int alias field kwargs :
  raise_of (int_field validate_int alias field kwargs) = None.
Proof.
  unfold int_field. destruct (lookup_field alias field kwargs) as [v|]; [|done].
  by destruct (validate_int v).
Qed.

Lemma datetime_field_quiet strptime validate_datetime alias field kwargs :
  raise_of (datetime_field strptime validate_datetime alias field kwargs) = None.
Proof.
  unfold datetime_field. destruct (lookup_field alias field kwargs) as [v|]; [|done].
  destruct (parse_datetime strptime v) as [msg|v']; [done|].
  destruct v'; try done; by destruct (validate_datetime _).
Qed.

(** A list field raises exactly when its validator raises
    [RecursionError] on the cell. *)
Lemma list_field_raise lim alias field kwargs e :
  raise_of (list_field lim alias field kwargs) = Some e ↔
  e = RecursionError
  ∧ ∃ v, lookup_field alias field kwargs = Some v
         ∧ parse_json_array lim v = inl RecursionError.
Proof.
  unfold list_field. destruct (lookup_field alias field kwargs) as [v|].
  - destruct (parse_json_array lim v) as [e'|r] eqn:E.
    + destruct (parse_json_array_raises _ _ _ E) as (s & -> & [[-> Hl]|(msg & -> & Hl)]);
        simpl.
      * split; [intros [= <-]; eauto | by intros [-> _]].
      * split; [done|]. intros [_ (v & [= <-] & Hv)]. congruence.
    + destruct (parse_json_array_returns _ _ _ E) as [items ->].
      rewrite str_items_quiet. split; [done|]. intros [_ (v' & [= <-] & Hv)].
      congruence.
  - simpl. split; [done|]. by intros [_ (v & ? & _)].
Qed.

Lemma list_cell_overflows_raise lim kwargs :
  list_cell_overflows lim kwargs ↔
  raise_of (list_field lim "CVE" "cve" kwargs) = Some RecursionError
  ∨ raise_of (list_field lim "CVE_URL" "cve_url" kwargs) = Some RecursionError
  ∨ raise_of (list_field lim "CWE" "cwe" kwargs) = Some RecursionError.
Proof.
  rewrite !list_field_raise. unfold list_cell_overflows, list_columns. split.
  - intros (alias & field & v & Hcol & Hl & Hp).
    repeat (apply elem_of_cons in Hcol as [[= -> ->]|Hcol]);
      [..|by apply elem_of_nil in Hcol]; eauto 10.
  - intros [[_ (v & Hl & Hp)]|[[_ (v & Hl & Hp)]|[_ (v & Hl & Hp)]]].
    + exists "CVE", "cve", v. split_and!; [|done..]. left.
    + exists "CVE_URL", "cve_url", v. split_and!; [|done..]. right. left.
    + exists "CWE", "cwe", v. split_and!; [|done..]. do 2 right. left.
Qed.

Ltac chain_errors H :=
  lazymatch type of H with
  | raise_of (ap ?f ?x) = None =>
      let H' := fresh "Hq" in
      destruct (ap_quiet f x H) as [H' ->]; chain_errors H'
  | _ => idtac
  end.

Section ConstructorFacts.
Variable strptime : string → string → option datetime.
Variable validate_int : pyval → string + Z.
Variable validate_datetime : pyval → string + datetime.
Variable lim : Json.limits.

(** The constructor raises [RecursionError] exactly when a list cell makes
    its validator raise it; otherwise it rejects the row with the errors
    of all the fields, or accepts it when no field has one. *)
Lemma SnykIssue_init_outcome row kwargs :
  keywords row = Some kwargs →
  (list_cell_overflows lim kwargs ∧ SnykIssue_init strptime validate_int validate_datetime lim row = inl RecursionError)
  ∨ (¬ list_cell_overflows lim kwargs
     ∧ ((∃ issue, SnykIssue_init strptime validate_int validate_datetime lim row = inr issue ∧ field_errors strptime validate_int validate_datetime lim kwargs = [])
        ∨ SnykIssue_init strptime validate_int validate_datetime lim row = inl (ValidationError (field_errors strptime validate_int validate_datetime lim kwargs)))).
Proof.
  intros Hkw. unfold SnykIssue_init. rewrite Hkw. cbv zeta.
  rewrite list_cell_overflows_raise.
  match goal with |- context [match ?f with Valid _ => _ | _ => _ end] =>
    set (fields := f)
  end.
  assert (raise_of fields
          = match raise_of (list_field lim "CVE" "cve" kwargs) with
            | Some e => Some e
            | None =>
                match raise_of (list_field lim "CVE_URL" "cve_url" kwargs) with
                | Some e => Some e
                | None => raise_of (list_field lim "CWE" "cwe" kwargs)
                end
            end) as Hraise.
  { unfold fields. rewrite !ap_raise.
    rewrite !str_field_quiet, !int_field_quiet, !optional_str_field_quiet,
      datetime_field_quiet. cbn [raise_of].
    by destruct (raise_of (list_field lim "CVE" "cve" kwargs)),
      (raise_of (list_field lim "CVE_URL" "cve_url" kwargs)),
      (raise_of (list_field lim "CWE" "cwe" kwargs)). }
  assert (∀ alias field e,
            raise_of (list_field lim alias field kwargs) = Some e →
            e = RecursionError) as Hrec.
  { intros alias field e H. by apply list_field_raise in H as [-> _]. }
  destruct (raise_of (list_field lim "CVE" "cve" kwargs)) as [e1|] eqn:E1.
  { pose proof (Hrec _ _ _ E1) as ->. left. split; [by left|].
    destruct fields; try done. simpl in Hraise. by injection Hraise as ->. }
  destruct (raise_of (list_field lim "CVE_URL" "cve_url" kwargs)) as [e2|] eqn:E2.
  { pose proof (Hrec _ _ _ E2) as ->. left. split; [by right; left|].
    destruct fields; try done. simpl in Hraise. by injection Hraise as ->. }
  destruct (raise_of (list_field lim "CWE" "cwe" kwargs)) as [e3|] eqn:E3.
  { pose proof (Hrec _ _ _ E3) as ->. left. split; [by right; right|].
    destruct fields; try done. simpl in Hraise. by injection Hraise as ->. }
  right. split; [by intros [?|[?|?]]|].
  assert (errors_of fields = field_errors strptime validate_int validate_datetime lim kwargs) as Herr.
  { unfold fields in Hraise |- *. chain_errors Hraise.
    unfold field_errors. cbn [errors_of app]. by rewrite <- !app_assoc. }
  destruct fields as [issue|es|e]; simpl in *; [|right; by subst|done].
  left. eauto.
Qed.


Lemma SnykIssue_init_rejected row kwargs es :
  keywords row = Some kwargs →
  SnykIssue_init strptime validate_int validate_datetime lim row = inl (ValidationError es) →
  es = field_errors strptime validate_int validate_datetime lim kwargs ∧ ¬ list_cell_overflows lim kwargs.
Proof.
  intros Hkw.
  destruct (SnykIssue_init_outcome row kwargs Hkw)
    as [[Ho ->]|[Hno [(issue & -> & _)| ->]]]; try done.
  by intros [= <-].
Qed.

Lemma SnykIssue_init_field_error row kwargs error :
  keywords row = Some kwargs →
  ¬ list_cell_overflows lim kwargs →
  error ∈ field_errors strptime validate_int validate_datetime lim kwargs →
  SnykIssue_init strptime validate_int validate_datetime lim row = inl (ValidationError (field_errors strptime validate_int validate_datetime lim kwargs)).
Proof.
  intros Hkw Hquiet Hin.
  destruct (SnykIssue_init_outcome row kwargs Hkw)
    as [[Ho _]|[_ [(issue & _ & Hnil)| ->]]]; try done.
  rewrite Hnil in Hin. by apply elem_of_nil in Hin.
Qed.

Lemma SnykIssue_init_accepted row kwargs issue :
  keywords row = Some kwargs →
  SnykIssue_init strptime validate_int validate_datetime lim row = inr issue →
  int_field validate_int "ISSUE_SEVERITY_RANK" "issue_severity_rank" kwargs
    = Valid (issue_severity_rank issue)
  ∧ str_field "ISSUE_SEVERITY" "issue_severity" kwargs = Valid (issue_severity issue)
  ∧ int_field validate_int "SCORE" "score" kwargs = Valid (score issue)
  ∧ str_field "PROBLEM_TITLE" "problem_title" kwargs = Valid (problem_title issue)
  ∧ list_field lim "CVE" "cve" kwargs = Valid (cve issue)
  ∧ list_field lim "CVE_URL" "cve_url" kwargs = Valid (cve_url issue)
  ∧ list_field lim "CWE" "cwe" kwargs = Valid (cwe issue)
  ∧ str_field "PROJECT_NAME" "project_name" kwargs = Valid (project_name issue)
  ∧ str_field "PROJECT_URL" "project_url" kwargs = Valid (project_url issue)
  ∧ optional_str_field "EXPLOIT_MATURITY" "exploit_maturity" kwargs
    = Valid (exploit_maturity issue)
  ∧ str_field "COMPUTED_FIXABILITY" "computed_fixability" kwargs
    = Valid (computed_fixability issue)
  ∧ datetime_field strptime validate_datetime "FIRST_INTRODUCED" "first_introduced" kwargs
    = Valid (first_introduced issue)
  ∧ optional_str_field "PRODUCT_NAME" "product_name" kwargs
    = Valid (product_name issue)
  ∧ str_field "ISSUE_URL" "issue_url" kwargs = Valid (issue_url issue)
  ∧ str_field "ISSUE_STATUS_INDICATOR" "issue_status_indicator" kwargs
    = Valid (issue_status_indicator issue)
  ∧ str_field "ISSUE_TYPE" "issue_type" kwargs = Valid (issue_type issue).
Proof.
  intros Hkw. unfold SnykIssue_init. rewrite Hkw. cbv zeta.
  match goal with |- context [match ?f with Valid _ => _ | _ => _ end] =>
    destruct f as [issue'|es|e] eqn:E
  end; [|done..]. intros [= ->].
  repeat match type of E with
  | ap _ _ = Valid _ =>
      let g := fresh "g" in let a := fresh "a" in
      let Ea := fresh "Ea" in let Eg := fresh "Eg" in
      apply ap_Valid in E as (g & a & E & Ea & Eg); rewrite Ea; clear Ea
  end.
  injection E as <-. subst. simpl. split_and!; reflexivity.
Qed.
End ConstructorFacts.





(** * The properties of the ingestor *)

Section IngestorFacts.
Context {Row Exn : Type}.
Variable construct : Row → Exn + SnykIssue.
Variable str_of_exn : Exn → string.

Lemma enumerate_app start (rows1 rows2 : list Row) :
  enumerate start (rows1 ++ rows2)
  = enumerate start rows1 ++ enumerate (start + length rows1) rows2.
Proof.
  revert start. induction rows1 as [|row rows1 IH]; intros start; simpl.
  - by rewrite Nat.add_0_r.
  - rewrite IH. do 3 f_equal. lia.
Qed.

Lemma enumerate_lookup start (rows : list Row) k :
  enumerate start rows !! k = (λ row, (start + k, row)) <$> rows !! k.
Proof.
  revert start k. induction rows as [|row rows IH]; intros start [|k]; simpl; try done.
  - by rewrite Nat.add_0_r.
  - rewrite IH. destruct (rows !! k); simpl; [|done]. do 3 f_equal. lia.
Qed.

Lemma read_rows_from issues stderr start rows :
  foldl (read_row construct str_of_exn) (issues, stderr) (enumerate start rows)
  = (issues ++ omap (λ row, match construct row with
                            | inr issue => Some issue
                            | inl _ => None
                            end) rows,
     stderr ++ omap (λ item, match construct item.2 with
                             | inl e => Some (warning item.1 (str_of_exn e))
                             | inr _ => None
                             end) (enumerate start rows)).
Proof.
  revert issues stderr start.
  induction rows as [|row rows IH]; intros issues stderr start; simpl.
  - by rewrite !app_nil_r.
  - destruct (construct row) as [e|issue]; rewrite IH; by rewrite <-!app_assoc.
Qed.
End IngestorFacts.

(** C7. The ingestor returns the records of the rows the constructor
    accepts, in the order of the rows, and prints one warning for each row
    the constructor rejects, with the number of the row counted from 2 and
    the text of the exception.  A rejected row does not end the loop: the
    rows before it and after it give the records they give without it. *)
Theorem ingestion_skips_bad_rows {Row Exn : Type}
    (construct : Row → Exn + SnykIssue) (str_of_exn : Exn → string)
    (rows : list Row) :
  (read_csv_to_models construct str_of_exn rows).1
  = omap (λ row, match construct row with
                 | inr issue => Some issue
                 | inl _ => None
                 end) rows
  ∧ (read_csv_to_models construct str_of_exn rows).2
    = omap (λ item, match construct item.2 with
                    | inl e => Some (warning item.1 (str_of_exn e))
                    | inr _ => None
                    end) (enumerate 2 rows)
  ∧ (∀ k, enumerate 2 rows !! k = (λ row, (k + 2, row)) <$> rows !! k)
  ∧ (∀ before bad after e,
       rows = before ++ bad :: after → construct bad = inl e →
       (read_csv_to_models construct str_of_exn rows).1
       = (read_csv_to_models construct str_of_exn before).1
         ++ (read_csv_to_models construct str_of_exn after).1
       ∧ warning (length before + 2) (str_of_exn e)
         ∈ (read_csv_to_models construct str_of_exn rows).2).
Proof.
  unfold read_csv_to_models. split_and!.
  - by rewrite read_rows_from.
  - by rewrite read_rows_from.
  - intros k. rewrite enumerate_lookup. destruct (rows !! k); simpl; [|done].
    do 3 f_equal. lia.
  - intros before bad after e -> Hbad. rewrite !read_rows_from. simpl. split.
    + rewrite omap_app. simpl. by rewrite Hbad.
    + rewrite enumerate_app, omap_app. simpl. rewrite Hbad.
      apply elem_of_app. right. rewrite Nat.add_comm. left.
Qed.

Lemma ingestion_skips_bad_rows_witness :
  length (read_csv_to_models (SnykIssue_init sample_strptime decimal_int no_datetime sample_limits)
            sample_str_of_exn sample_rows).1 = 2
  ∧ issue_url <$> (read_csv_to_models (SnykIssue_init sample_strptime decimal_int no_datetime sample_limits)
                     sample_str_of_exn sample_rows).1
    = ["https://snyk.example/issue/1"; "https://snyk.example/issue/3"]
  ∧ "Warning: Failed to parse row 3: ISSUE_URL: Field required; "
    ∈ (read_csv_to_models (SnykIssue_init sample_strptime decimal_int no_datetime sample_limits)
         sample_str_of_exn sample_rows).2.
Proof.
  destruct (ingestion_skips_bad_rows (SnykIssue_init sample_strptime decimal_int no_datetime sample_limits)
              sample_str_of_exn sample_rows) as (_ & _ & _ & Hskip).
  destruct (Hskip
    [sample_row (Json.dumps "" ["CVE-1"; "CVE-2"]) "2024-03-01 10:20:30"
       (Some "https://snyk.example/issue/1")]
    (sample_row "[]" "" None)
    [sample_row "[]" "2024-03-01 10:20:30.500000" (Some "https://snyk.example/issue/3")]
    (ValidationError [("ISSUE_URL", "Field required")])
    eq_refl eq_refl) as [Hissues Hwarning].
  split_and!.
  - rewrite Hissues. vm_compute. reflexivity.
  - rewrite Hissues. vm_compute. reflexivity.
  - exact Hwarning.
Defined.

(** * Further properties of the aggregator *)

(** ** Sums over a dictionary of groups *)

Section RunSums.
Context {K I V : Type} `{EqDecision K} (fac : V) (step : I → V → V).
Variables (size : V → nat) (weight : I → nat).
Hypothesis size_fac : size fac = 0.
Hypothesis size_step : ∀ i v, size (step i v) = size v + weight i.

Lemma dd_modify_sum i k (d : list (K * V)) :
  sum_list ((λ p, size p.2) <$> dd_modify fac (step i) k d)
  = sum_list ((λ p, size p.2) <$> d) + weight i.
Proof.
  induction d as [|[k' v] d IH]; cbn [dd_modify].
  - rewrite !fmap_cons. cbn. rewrite size_step, size_fac. lia.
  - case_decide; rewrite !fmap_cons; cbn [sum_list_with fst snd id].
    + rewrite size_step. lia.
    + rewrite IH. lia.
Qed.

Lemma dd_run_sum (d : list (K * V)) visits :
  sum_list ((λ p, size p.2) <$> dd_run fac step d visits)
  = sum_list ((λ p, size p.2) <$> d) + sum_list ((λ visit, weight visit.2) <$> visits).
Proof.
  revert d. induction visits as [|[k i] visits IH]; intros d.
  - cbn. lia.
  - change (dd_run fac step d ((k, i) :: visits))
      with (dd_run fac step (dd_modify fac (step i) k d) visits).
    rewrite IH, dd_modify_sum, fmap_cons. cbn [sum_list_with fst snd id]. lia.
Qed.
End RunSums.

Lemma sum_list_sorted_with {A : Type} (lt : A → A → bool) (f : A → nat) l :
  sum_list (f <$> sorted_with lt l) = sum_list (f <$> l).
Proof. by rewrite (sorted_with_perm lt l). Qed.

Lemma sum_list_indicator {A : Type} (P : A → Prop) `{∀ x, Decision (P x)} (l : list A) :
  sum_list ((λ x, if decide (P x) then 1 else 0) <$> l) = length (filter P l).
Proof.
  induction l as [|x l IH]; [done|]. rewrite filter_cons, fmap_cons.
  cbn [sum_list_with id]. rewrite IH. case_decide; simpl; lia.
Qed.

Lemma sum_list_ones {A : Type} (l : list A) :
  sum_list ((λ _, 1) <$> l) = length l.
Proof.
  induction l as [|x l IH]; [done|]. rewrite fmap_cons.
  cbn [sum_list_with id length]. by rewrite IH.
Qed.

Lemma sum_list_bind_length {A B : Type} (f : A → list B) (l : list A) :
  length (l ≫= f) = sum_list ((λ x, length (f x)) <$> l).
Proof.
  induction l as [|x l IH]; [done|]. by rewrite bind_cons, length_app, IH, fmap_cons.
Qed.

(** ** Strings in increasing order *)

Lemma sorted_str_increasing (l : list string) a b :
  NoDup l → stands_before a b (sorted_str l) → String.ltb a b = true.
Proof.
  intros Hl Hab. unfold sorted_str in *.
  assert (String.ltb b a = false) as Hba.
  { revert Hab. apply sorted_with_ordered;
      [apply str_ltb_asym | apply str_ltb_negtrans]. }
  apply str_ltb_trichotomy; [done|]. intros ->.
  assert (NoDup (sorted_with String.ltb l)) as Hs
    by (by rewrite (sorted_with_perm String.ltb l)).
  destruct Hab as (l1 & l2 & l3 & Heq). rewrite Heq in Hs.
  apply NoDup_app in Hs as (_ & _ & Hs). apply NoDup_cons in Hs as [Hs _].
  apply Hs. set_solver.
Qed.

Lemma sorted_elements_increasing (s : gset string) a b :
  stands_before a b (sorted_str (elements s)) → String.ltb a b = true.
Proof. apply sorted_str_increasing, NoDup_elements. Qed.

Lemma elem_of_sorted_elements (s : gset string) a :
  a ∈ sorted_str (elements s) ↔ a ∈ s.
Proof. unfold sorted_str. by rewrite elem_of_sorted_with, elem_of_elements. Qed.

(** ** The histogram of a dictionary of counts *)

Lemma count_severity_NoDup sev (d : list (string * nat)) :
  NoDup d.*1 → NoDup (count_severity sev d).*1.
Proof. apply dd_modify_NoDup. Qed.

Lemma count_severity_positive sev (d : list (string * nat)) :
  Forall (λ p, 1 ≤ p.2) d → Forall (λ p, 1 ≤ p.2) (count_severity sev d).
Proof.
  unfold count_severity. induction d as [|[k n] d IH]; simpl; intros Hd.
  - repeat constructor.
  - apply Forall_cons in Hd as [Hn Hd]. case_decide; constructor; simpl in *; auto; lia.
Qed.

Lemma count_of_elem sev n (d : list (string * nat)) :
  NoDup d.*1 → (sev, n) ∈ d → count_of sev d = n.
Proof. intros Hd Hin. unfold count_of. by rewrite (dict_get_elem sev n d). Qed.

Section Histogram.
Context {A : Type} (label : A → string).

Lemma histogram_snoc d (l : list A) x :
  foldl (λ d x, count_severity (label x) d) d (l ++ [x])
  = count_severity (label x) (foldl (λ d x, count_severity (label x) d) d l).
Proof. by rewrite foldl_app. Qed.

Lemma histogram_NoDup d (l : list A) :
  NoDup d.*1 → NoDup (foldl (λ d x, count_severity (label x) d) d l).*1.
Proof.
  intros Hd. induction l as [|x l IH] using rev_ind; [done|].
  rewrite histogram_snoc. by apply count_severity_NoDup.
Qed.

Lemma histogram_positive d (l : list A) :
  Forall (λ p, 1 ≤ p.2) d →
  Forall (λ p, 1 ≤ p.2) (foldl (λ d x, count_severity (label x) d) d l).
Proof.
  intros Hd. induction l as [|x l IH] using rev_ind; [done|].
  rewrite histogram_snoc. by apply count_severity_positive.
Qed.

Lemma histogram_count d (l : list A) sev :
  count_of sev (foldl (λ d x, count_severity (label x) d) d l)
  = count_of sev d + length (filter (λ x, label x = sev) l).
Proof.
  induction l as [|x l IH] using rev_ind; [simpl; lia|].
  rewrite histogram_snoc, count_of_count_severity, IH, filter_app, length_app,
    filter_cons, filter_nil.
  case_decide; simpl; lia.
Qed.

Lemma histogram_sum d (l : list A) :
  sum_values (foldl (λ d x, count_severity (label x) d) d l)
  = sum_values d + length l.
Proof.
  induction l as [|x l IH] using rev_ind; [simpl; lia|].
  rewrite histogram_snoc, sum_values_count_severity, IH, length_app. simpl. lia.
Qed.
End Histogram.

Lemma project_fold_count (d : ProjectAcc.t) (ms : list SnykIssue) sev :
  count_of sev (ProjectAcc.severity_counts (project_fold d ms))
  = count_of sev (ProjectAcc.severity_counts d)
    + length (filter (λ i, issue_severity i = sev) ms).
Proof.
  induction ms as [|i ms IH] using rev_ind; [simpl; lia|].
  rewrite project_fold_snoc, project_add_issue_severity,
    count_of_count_severity, IH, filter_app, length_app, filter_cons, filter_nil.
  case_decide; simpl; lia.
Qed.

Lemma project_fold_titles (d : ProjectAcc.t) (ms : list SnykIssue) :
  ProjectAcc.problem_titles (project_fold d ms)
  = ProjectAcc.problem_titles d ∪ list_to_set (problem_title <$> ms).
Proof.
  induction ms as [|i ms IH] using rev_ind.
  - simpl. set_solver.
  - rewrite project_fold_snoc, project_add_issue_titles, IH, fmap_app,
      list_to_set_app_L. simpl. set_solver.
Qed.

Lemma cve_cwe_fold_histogram_NoDup (d : CveCweAcc.t) (ms : list SnykIssue) :
  NoDup (CveCweAcc.severity_counts d).*1 →
  NoDup (CveCweAcc.severity_counts (cve_cwe_fold d ms)).*1.
Proof.
  intros Hd. induction ms as [|i ms IH] using rev_ind; [done|].
  rewrite cve_cwe_fold_snoc, cve_cwe_add_issue_severity.
  by apply count_severity_NoDup.
Qed.

Lemma project_fold_histogram_NoDup (d : ProjectAcc.t) (ms : list SnykIssue) :
  NoDup (ProjectAcc.severity_counts d).*1 →
  NoDup (ProjectAcc.severity_counts (project_fold d ms)).*1.
Proof.
  intros Hd. induction ms as [|i ms IH] using rev_ind; [done|].
  rewrite project_fold_snoc, project_add_issue_severity.
  by apply count_severity_NoDup.
Qed.

Lemma filter_is_fixable (l : list SnykIssue) :
  filter (λ i, is_fixable i = true) l
  = filter (λ i, computed_fixability i = "Fixable") l.
Proof.
  induction l as [|i l IH]; [done|]. rewrite !filter_cons, IH.
  unfold is_fixable. repeat case_decide; done.
Qed.

(** ** The keys of the groups *)

Lemma cve_cwe_group_keys issues :
  (λ g, (CveCweGroup.cve g, CveCweGroup.cwe g)) <$> CveCwe.prepare_data_cve_cwe issues
  ≡ₚ (CveCwe.cve_cwe_groups issues).*1.
Proof.
  unfold CveCwe.prepare_data_cve_cwe, CveCwe.sorted_groups, sorted_by_key_reverse.
  rewrite <- list_fmap_compose, sorted_with_perm.
  apply eq_subrelation; [apply _|]. apply list_fmap_ext. by intros ? [[c w] d].
Qed.

Lemma project_group_keys issues :
  (λ g, (ProjectGroup.project_name g, ProjectGroup.project_url g))
    <$> Project.prepare_data_project issues
  ≡ₚ (Project.project_groups issues).*1.
Proof.
  unfold Project.prepare_data_project, Project.sorted_groups, sorted_by_key_reverse.
  rewrite <- list_fmap_compose, sorted_with_perm.
  apply eq_subrelation; [apply _|]. apply list_fmap_ext. by intros ? [[c w] d].
Qed.

Lemma elem_of_cve_cwe_group_keys issues key :
  key ∈ (CveCwe.cve_cwe_groups issues).*1 ↔ key ∈ issues ≫= cve_cwe_keys.
Proof. by rewrite cve_cwe_groups_run, dd_run_keys_elem, cve_cwe_visits_keys. Qed.

Lemma elem_of_project_group_keys issues key :
  key ∈ (Project.project_groups issues).*1 ↔ key ∈ project_key <$> issues.
Proof. by rewrite project_groups_run, dd_run_keys_elem, project_visits_keys. Qed.

Lemma length_NoDup_remove_dups {A : Type} `{EqDecision A} (l k : list A) :
  NoDup l → (∀ x, x ∈ l ↔ x ∈ k) → length l = length (remove_dups k).
Proof.
  intros Hl Hlk. apply Permutation_length, NoDup_Permutation;
    [done | apply NoDup_remove_dups |].
  intros x. by rewrite elem_of_remove_dups.
Qed.

(** X1. The groups of the cve-cwe report have pairwise distinct (cve, cwe)
    keys; a pair is the key of a group exactly when some record has the cve
    among its CVEs and the cwe among its CWEs (the placeholders standing in
    for an empty list); so the report has as many groups as the records
    have distinct pairs, and that number is its [total_groups] for every
    strategy name other than 'project'. *)
Theorem cve_cwe_report_keys (issues : list SnykIssue) :
  let gs := CveCwe.prepare_data_cve_cwe issues in
  let keys := (λ g, (CveCweGroup.cve g, CveCweGroup.cwe g)) <$> gs in
  NoDup keys
  ∧ (∀ c w, (c, w) ∈ keys ↔
       ∃ issue, issue ∈ issues ∧ c ∈ cves_of issue ∧ w ∈ cwes_of issue)
  ∧ length gs = length (remove_dups (issues ≫= cve_cwe_keys))
  ∧ (∀ group_by, group_by ≠ "project" →
       Report.total_groups (prepare_data issues group_by)
       = length (remove_dups (issues ≫= cve_cwe_keys))).
Proof.
  intros gs keys.
  assert (NoDup keys) as Hnd.
  { unfold keys, gs. rewrite cve_cwe_group_keys. apply cve_cwe_groups_NoDup. }
  assert (∀ k, k ∈ keys ↔ k ∈ issues ≫= cve_cwe_keys) as Hin.
  { intros k. unfold keys, gs.
    by rewrite cve_cwe_group_keys, elem_of_cve_cwe_group_keys. }
  assert (length gs = length (remove_dups (issues ≫= cve_cwe_keys))) as Hlen.
  { rewrite <- (length_fmap (λ g, (CveCweGroup.cve g, CveCweGroup.cwe g)) gs).
    by apply length_NoDup_remove_dups. }
  split_and!; [done| |done|].
  - intros c w. rewrite Hin, list_elem_of_bind. split.
    + intros (issue & H1 & H2). exists issue. by rewrite <- elem_of_cve_cwe_keys.
    + intros (issue & H1 & H2). exists issue. by rewrite elem_of_cve_cwe_keys.
  - intros group_by Hg. unfold prepare_data. simpl. by case_decide.
Qed.

(** X2. The groups of the project report have pairwise distinct
    (project name, project URL) keys; a pair is the key of a group exactly
    when it is the name and URL of some record; so the report has as many
    groups as the records have distinct (name, URL) pairs, and that number
    is its [total_groups]. *)
Theorem project_report_keys (issues : list SnykIssue) :
  let gs := Project.prepare_data_project issues in
  let keys := (λ g, (ProjectGroup.project_name g, ProjectGroup.project_url g)) <$> gs in
  NoDup keys
  ∧ (∀ n u, (n, u) ∈ keys ↔
       ∃ issue, issue ∈ issues ∧ project_name issue = n ∧ project_url issue = u)
  ∧ length gs = length (remove_dups (project_key <$> issues))
  ∧ Report.total_groups (prepare_data issues "project")
    = length (remove_dups (project_key <$> issues)).
Proof.
  intros gs keys.
  assert (NoDup keys) as Hnd.
  { unfold keys, gs. rewrite project_group_keys. apply project_groups_NoDup. }
  assert (∀ k, k ∈ keys ↔ k ∈ project_key <$> issues) as Hin.
  { intros k. unfold keys, gs.
    by rewrite project_group_keys, elem_of_project_group_keys. }
  assert (length gs = length (remove_dups (project_key <$> issues))) as Hlen.
  { rewrite <- (length_fmap
      (λ g, (ProjectGroup.project_name g, ProjectGroup.project_url g)) gs).
    by apply length_NoDup_remove_dups. }
  split_and!; [done| |done|done].
  intros n u. rewrite Hin, list_elem_of_fmap. unfold project_key. split.
  - intros (issue & [= -> ->] & H). eauto.
  - intros (issue & H & <- & <-). eauto.
Qed.

(** X3. The severity histogram of the report has one entry per severity
    label that occurs among the records, each with the number of records of
    that label (never zero); a label that does not occur has no entry; the
    counts add up to [total_issues]. *)
Theorem report_severity_histogram (issues : list SnykIssue) (group_by : string) :
  let h := Report.severity_counts (prepare_data issues group_by) in
  NoDup h.*1
  ∧ (∀ sev, sev ∈ h.*1 ↔ ∃ issue, issue ∈ issues ∧ issue_severity issue = sev)
  ∧ (∀ sev n, (sev, n) ∈ h →
       1 ≤ n ∧ n = length (filter (λ i, issue_severity i = sev) issues))
  ∧ sum_values h = Report.total_issues (prepare_data issues group_by).
Proof.
  unfold prepare_data. cbn [Report.severity_counts Report.total_issues].
  set (h := foldl _ [] issues).
  assert (NoDup h.*1) as Hnd by (apply histogram_NoDup; constructor).
  assert (∀ sev, count_of sev h = length (filter (λ i, issue_severity i = sev) issues))
    as Hcount by (intros sev; unfold h; by rewrite histogram_count).
  assert (Forall (λ p, 1 ≤ p.2) h) as Hpos by (apply histogram_positive; constructor).
  split_and!; [done| | |].
  - intros sev. split.
    + intros Hin. apply list_elem_of_fmap in Hin as ([sev' n] & -> & Hin).
      pose proof (count_of_elem _ _ _ Hnd Hin) as Hn. rewrite Hcount in Hn.
      rewrite Forall_forall in Hpos. specialize (Hpos _ Hin). simpl in *.
      destruct (filter (λ i, issue_severity i = sev') issues) as [|i l] eqn:E;
        [simpl in Hn; lia|].
      assert (i ∈ filter (λ i, issue_severity i = sev') issues) as Hi
        by (rewrite E; left).
      apply list_elem_of_filter in Hi as [? ?]. eauto.
    + intros (issue & Hin & Hsev).
      destruct (decide (sev ∈ h.*1)) as [|Hno]; [done|].
      apply dict_get_None in Hno.
      specialize (Hcount sev). unfold count_of in Hcount. rewrite Hno in Hcount.
      assert (issue ∈ filter (λ i, issue_severity i = sev) issues) as Hi
        by (by apply list_elem_of_filter).
      destruct (filter (λ i, issue_severity i = sev) issues); [|done].
      by apply elem_of_nil in Hi.
  - intros sev n Hin. rewrite Forall_forall in Hpos. split; [apply (Hpos _ Hin)|].
    rewrite <- Hcount. symmetry. by apply count_of_elem.
  - unfold h. by rewrite histogram_sum.
Qed.

(** ** The members of a group *)

Lemma elem_of_cve_cwe_members key issues issue :
  issue ∈ cve_cwe_members key issues ↔ issue ∈ issues ∧ key ∈ cve_cwe_keys issue.
Proof.
  unfold cve_cwe_members. rewrite list_elem_of_bind. split.
  - intros (i & Hin & Hi). apply list_elem_of_bind in Hin as (k & Hk & Hin).
    case_decide; [|by apply elem_of_nil in Hk].
    apply list_elem_of_singleton in Hk. by subst.
  - intros [Hi Hk]. exists issue. split; [|done].
    apply list_elem_of_bind. exists key. split; [|done].
    rewrite decide_True by done. by apply list_elem_of_singleton.
Qed.

Lemma elem_of_project_members key issues issue :
  issue ∈ project_members key issues ↔ issue ∈ issues ∧ project_key issue = key.
Proof. unfold project_members. rewrite list_elem_of_filter. tauto. Qed.

Lemma elem_of_list_to_set_titles (ms : list SnykIssue) t :
  t ∈ (list_to_set (problem_title <$> ms) : gset string)
  ↔ ∃ issue, issue ∈ ms ∧ problem_title issue = t.
Proof.
  rewrite elem_of_list_to_set, list_elem_of_fmap. split.
  - intros (i & -> & H). eauto.
  - intros (i & H & <-). eauto.
Qed.

(** X4. Every group of the report, in either strategy, counts its members
    by severity: its histogram has distinct labels and holds for each label
    the number of the group's records with that severity, and its fixable
    count is the number of its records whose fixability is exactly
    "Fixable".  The members of a cve-cwe group are the records accumulated
    at its pair, once per visit of the pair; those of a project group are
    the records with its name and URL. *)
Theorem group_histograms (issues : list SnykIssue) (group_by : string) :
  match Report.groups (prepare_data issues group_by) with
  | CveCweGroups gs =>
      Forall (λ g,
        let members :=
          cve_cwe_members (CveCweGroup.cve g, CveCweGroup.cwe g) issues in
        NoDup (CveCweGroup.severity_counts g).*1
        ∧ (∀ sev, count_of sev (CveCweGroup.severity_counts g)
                  = length (filter (λ i, issue_severity i = sev) members))
        ∧ CveCweGroup.fixable_count g
          = length (filter (λ i, computed_fixability i = "Fixable") members)) gs
  | ProjectGroups gs =>
      Forall (λ g,
        let members :=
          project_members
            (ProjectGroup.project_name g, ProjectGroup.project_url g) issues in
        NoDup (ProjectGroup.severity_counts g).*1
        ∧ (∀ sev, count_of sev (ProjectGroup.severity_counts g)
                  = length (filter (λ i, issue_severity i = sev) members))
        ∧ ProjectGroup.fixable_count g
          = length (filter (λ i, computed_fixability i = "Fixable") members)) gs
  end.
Proof.
  unfold prepare_data. cbn [Report.groups]. case_decide.
  - apply Forall_forall. intros g ([n u] & d & Hin & ->)%elem_of_prepare_data_project.
    apply project_groups_elem in Hin as [_ ->]. simpl.
    split_and!.
    + apply project_fold_histogram_NoDup. constructor.
    + intros sev. by rewrite project_fold_count.
    + by rewrite project_fold_fixable, filter_is_fixable.
  - apply Forall_forall. intros g ([c w] & d & Hin & ->)%elem_of_prepare_data_cve_cwe.
    apply cve_cwe_groups_elem in Hin as [_ ->]. simpl.
    split_and!.
    + apply cve_cwe_fold_histogram_NoDup. constructor.
    + intros sev. by rewrite cve_cwe_fold_count.
    + by rewrite cve_cwe_fold_fixable, filter_is_fixable.
Qed.

(** X5. In every group of either strategy the list of problem titles is in
    strictly increasing order (so it has no repeats) and holds exactly the
    titles of the group's records; the list of pair labels of a project
    group is in strictly increasing order too and holds exactly the labels
    "cve + cwe" of the pairs of the project's records. *)
Theorem group_titles_sorted (issues : list SnykIssue) (group_by : string) :
  match Report.groups (prepare_data issues group_by) with
  | CveCweGroups gs =>
      Forall (λ g,
        (∀ a b, stands_before a b (CveCweGroup.problem_titles g) →
                String.ltb a b = true)
        ∧ (∀ t, t ∈ CveCweGroup.problem_titles g ↔
             ∃ issue, issue ∈ issues
                      ∧ CveCweGroup.cve g ∈ cves_of issue
                      ∧ CveCweGroup.cwe g ∈ cwes_of issue
                      ∧ problem_title issue = t)) gs
  | ProjectGroups gs =>
      Forall (λ g,
        (∀ a b, stands_before a b (ProjectGroup.problem_titles g) →
                String.ltb a b = true)
        ∧ (∀ t, t ∈ ProjectGroup.problem_titles g ↔
             ∃ issue, issue ∈ issues
                      ∧ project_name issue = ProjectGroup.project_name g
                      ∧ project_url issue = ProjectGroup.project_url g
                      ∧ problem_title issue = t)
        ∧ (∀ a b, stands_before a b (ProjectGroup.cve_cwe_pairs g) →
                  String.ltb a b = true)
        ∧ (∀ label, label ∈ ProjectGroup.cve_cwe_pairs g ↔
             ∃ issue c w, issue ∈ issues
                      ∧ project_name issue = ProjectGroup.project_name g
                      ∧ project_url issue = ProjectGroup.project_url g
                      ∧ c ∈ cves_of issue ∧ w ∈ cwes_of issue
                      ∧ label = c +:+ " + " +:+ w)) gs
  end.
Proof.
  unfold prepare_data. cbn [Report.groups]. case_decide.
  - apply Forall_forall. intros g ([n u] & d & Hin & ->)%elem_of_prepare_data_project.
    apply project_groups_elem in Hin as [_ ->]. simpl.
    split_and!.
    + apply sorted_elements_increasing.
    + intros t. rewrite elem_of_sorted_elements, project_fold_titles.
      cbn. rewrite (left_id_L ∅ (∪)), elem_of_list_to_set_titles. split.
      * intros (i & [Hi Hk]%elem_of_project_members & Ht).
        injection Hk as Hn Hu. exists i. done.
      * intros (i & Hi & Hn & Hu & Ht). exists i. split; [|done].
        apply elem_of_project_members. split; [done|].
        unfold project_key. by rewrite Hn, Hu.
    + apply sorted_elements_increasing.
    + intros label. rewrite elem_of_sorted_elements, project_fold_pairs.
      cbn. rewrite (left_id_L ∅ (∪)), elem_of_list_to_set, list_elem_of_bind. split.
      * intros (i & Hl & [Hi Hk]%elem_of_project_members).
        injection Hk as Hn Hu.
        apply elem_of_pair_labels in Hl as (c & w & Hc & Hw & ->).
        exists i, c, w. done.
      * intros (i & c & w & Hi & Hn & Hu & Hc & Hw & ->). exists i. split.
        -- apply elem_of_pair_labels. eauto.
        -- apply elem_of_project_members. split; [done|].
           unfold project_key. by rewrite Hn, Hu.
  - apply Forall_forall. intros g ([c w] & d & Hin & ->)%elem_of_prepare_data_cve_cwe.
    apply cve_cwe_groups_elem in Hin as [_ ->]. simpl.
    split.
    + apply sorted_elements_increasing.
    + intros t. rewrite elem_of_sorted_elements, cve_cwe_fold_titles.
      cbn. rewrite (left_id_L ∅ (∪)), elem_of_list_to_set_titles. split.
      * intros (i & [Hi Hk]%elem_of_cve_cwe_members & Ht).
        apply elem_of_cve_cwe_keys in Hk as [Hc Hw]. exists i. done.
      * intros (i & Hi & Hc & Hw & Ht). exists i. split; [|done].
        apply elem_of_cve_cwe_members. split; [done|].
        by apply elem_of_cve_cwe_keys.
Qed.

(** ** The groups of a strategy, taken together *)

Lemma length_pairs {A B : Type} (cs : list A) (ws : list B) :
  length (c ← cs; w ← ws; [(c, w)]) = length cs * length ws.
Proof.
  induction cs as [|c cs IH]; [done|].
  rewrite bind_cons, length_app, IH. cbn [length Nat.mul]. f_equal.
  clear. induction ws as [|w ws IH]; [done|].
  rewrite bind_cons, length_app, IH. done.
Qed.

Lemma length_cve_cwe_keys issue :
  length (cve_cwe_keys issue) = length (cves_of issue) * length (cwes_of issue).
Proof. apply length_pairs. Qed.

Lemma length_cves_of issue : 1 ≤ length (cves_of issue).
Proof. unfold cves_of. destruct (cve issue); simpl; lia. Qed.

Lemma length_cwes_of issue : 1 ≤ length (cwes_of issue).
Proof. unfold cwes_of. destruct (cwe issue); simpl; lia. Qed.

Lemma length_cve_cwe_visits issues :
  length (cve_cwe_visits issues)
  = sum_list ((λ i, length (cves_of i) * length (cwes_of i)) <$> issues).
Proof.
  unfold cve_cwe_visits. rewrite sum_list_bind_length. f_equal.
  apply list_fmap_ext. intros _ i _. by rewrite length_fmap, length_cve_cwe_keys.
Qed.

Lemma sum_list_le_pointwise {A : Type} (f g : A → nat) (l : list A) :
  (∀ x, x ∈ l → f x ≤ g x) → sum_list (f <$> l) ≤ sum_list (g <$> l).
Proof.
  induction l as [|x l IH]; intros H; [done|]. rewrite !fmap_cons.
  cbn [sum_list_with id].
  pose proof (H x (list_elem_of_here _ _)).
  assert (sum_list (f <$> l) ≤ sum_list (g <$> l))
    by (apply IH; intros y Hy; apply H; by right).
  lia.
Qed.

Lemma sum_list_eq_pointwise {A : Type} (f g : A → nat) (l : list A) :
  (∀ x, x ∈ l → f x = g x) → sum_list (f <$> l) = sum_list (g <$> l).
Proof.
  induction l as [|x l IH]; intros H; [done|]. rewrite !fmap_cons.
  cbn [sum_list_with id]. rewrite (H x (list_elem_of_here _ _)), IH; [done|].
  intros y Hy. apply H. by right.
Qed.

(** X6. The project strategy partitions the records: the issue counts of
    the project groups add up to the report's [total_issues], their fixable
    counts to the report's [fixable_count], and for every severity label
    their histogram counts to the count of the report's severity
    histogram. *)
Theorem project_groups_partition (issues : list SnykIssue) :
  let gs := Project.prepare_data_project issues in
  let report := prepare_data issues "project" in
  sum_list (ProjectGroup.total_issues <$> gs) = Report.total_issues report
  ∧ sum_list (ProjectGroup.fixable_count <$> gs) = Report.fixable_count report
  ∧ ∀ sev, sum_list ((λ g, count_of sev (ProjectGroup.severity_counts g)) <$> gs)
           = count_of sev (Report.severity_counts report).
Proof.
  intros gs report. unfold report, prepare_data.
  cbn [Report.total_issues Report.fixable_count Report.severity_counts].
  unfold gs, Project.prepare_data_project, Project.sorted_groups, sorted_by_key_reverse.
  rewrite <- !list_fmap_compose.
  split_and!; [| |intros sev; rewrite <- list_fmap_compose].
  - rewrite sum_list_sorted_with, project_groups_run.
    erewrite (list_fmap_ext _ (λ p, length (ProjectAcc.issues p.2)));
      [|by intros ? [[n u] d]].
    rewrite (dd_run_sum _ _ (λ d, length (ProjectAcc.issues d)) (λ _, 1)); first last.
    { intros i v. by rewrite project_add_issue_issues, length_app. }
    { done. }
    rewrite <- list_fmap_compose. cbn. by rewrite sum_list_ones.
  - rewrite sum_list_sorted_with, project_groups_run.
    erewrite (list_fmap_ext _ (λ p, ProjectAcc.fixable_count p.2));
      [|by intros ? [[n u] d]].
    rewrite (dd_run_sum _ _ ProjectAcc.fixable_count
               (λ i, if decide (computed_fixability i = "Fixable") then 1 else 0));
      first last.
    { intros i v. rewrite project_add_issue_fixable. unfold is_fixable.
      case_bool_decide; case_decide; try done; lia. }
    { done. }
    rewrite <- list_fmap_compose. cbn.
    unfold sum_fixable. rewrite sum_fixable_from.
    by rewrite <- (sum_list_indicator (λ i, computed_fixability i = "Fixable")).
  - rewrite sum_list_sorted_with, project_groups_run.
    erewrite (list_fmap_ext _ (λ p, count_of sev (ProjectAcc.severity_counts p.2)));
      [|by intros ? [[n u] d]].
    rewrite (dd_run_sum _ _ (λ d, count_of sev (ProjectAcc.severity_counts d))
               (λ i, if decide (issue_severity i = sev) then 1 else 0));
      first last.
    { intros i v. rewrite project_add_issue_severity, count_of_count_severity.
      case_decide; lia. }
    { done. }
    rewrite <- list_fmap_compose. cbn.
    rewrite histogram_count. cbn.
    by rewrite <- (sum_list_indicator (λ i, issue_severity i = sev)).
Qed.

(** X7. In the cve-cwe strategy a record is counted in one group per pair
    of its CVEs and CWEs: the issue counts of the groups add up to the sum,
    over the records, of the number of CVEs times the number of CWEs (each
    at least one, the placeholder standing in for an empty list); the sum
    is never below [total_issues], and equals it when no record has more
    than one CVE or more than one CWE. *)
Theorem cve_cwe_groups_cover (issues : list SnykIssue) :
  let gs := CveCwe.prepare_data_cve_cwe issues in
  sum_list (CveCweGroup.total_issues <$> gs)
  = sum_list ((λ i, length (cves_of i) * length (cwes_of i)) <$> issues)
  ∧ Report.total_issues (prepare_data issues "cve-cwe")
    ≤ sum_list (CveCweGroup.total_issues <$> gs)
  ∧ ((∀ i, i ∈ issues → length (cve i) ≤ 1 ∧ length (cwe i) ≤ 1) →
     sum_list (CveCweGroup.total_issues <$> gs)
     = Report.total_issues (prepare_data issues "cve-cwe")).
Proof.
  intros gs.
  assert (sum_list (CveCweGroup.total_issues <$> gs)
          = sum_list ((λ i, length (cves_of i) * length (cwes_of i)) <$> issues))
    as Hsum.
  { unfold gs, CveCwe.prepare_data_cve_cwe, CveCwe.sorted_groups, sorted_by_key_reverse.
    rewrite <- list_fmap_compose, sum_list_sorted_with, cve_cwe_groups_run.
    erewrite (list_fmap_ext _ (λ p, length (CveCweAcc.issues p.2)));
      [|by intros ? [[c w] d]].
    rewrite (dd_run_sum _ _ (λ d, length (CveCweAcc.issues d)) (λ _, 1)); first last.
    { intros i v. by rewrite cve_cwe_add_issue_issues, length_app. }
    { done. }
    cbn. by rewrite sum_list_ones, length_cve_cwe_visits. }
  rewrite Hsum. unfold prepare_data. cbn [Report.total_issues].
  rewrite <- (sum_list_ones issues). split_and!; [done| |].
  - apply sum_list_le_pointwise. intros i _.
    pose proof (length_cves_of i). pose proof (length_cwes_of i). nia.
  - intros Hone. apply sum_list_eq_pointwise. intros i Hi.
    destruct (Hone i Hi) as [Hc Hw]. unfold cves_of, cwes_of.
    destruct (cve i) as [|? [|]], (cwe i) as [|? [|]]; simpl in *; lia.
Qed.

(** ** The expansion of a record into pairs *)

Lemma occurrences_pairs {A B : Type} `{EqDecision A} `{EqDecision B}
    (cs : list A) (ws : list B) (c : A) (w : B) :
  occurrences (c, w) (c' ← cs; w' ← ws; [(c', w')])
  = occurrences c cs * occurrences w ws.
Proof.
  unfold occurrences. induction cs as [|c' cs IH]; [done|].
  rewrite bind_cons, filter_app, length_app, IH, (filter_cons _ c').
  assert (length (filter (λ y, y = (c, w)) (w' ← ws; [(c', w')]))
          = if decide (c' = c) then length (filter (λ y, y = w) ws) else 0) as ->.
  { clear. induction ws as [|w' ws IH]; [by case_decide|].
    rewrite bind_cons, filter_app, length_app, IH, (filter_cons _ w').
    rewrite filter_cons, filter_nil.
    repeat case_decide; simplify_eq; simpl; try done; lia. }
  case_decide; simpl; lia.
Qed.

Lemma list_bind_nil {A B : Type} (f : A → list B) : [] ≫= f = [].
Proof. reflexivity. Qed.

Lemma occurrences_cve_cwe_keys issue c w :
  occurrences (c, w) (cve_cwe_keys issue)
  = occurrences c (cves_of issue) * occurrences w (cwes_of issue).
Proof. apply occurrences_pairs. Qed.

Lemma occurrences_elem {A : Type} `{EqDecision A} (x : A) l :
  x ∈ l ↔ 1 ≤ occurrences x l.
Proof. apply length_filter_elem. Qed.

Lemma cve_cwe_members_app key l1 l2 :
  cve_cwe_members key (l1 ++ l2)
  = cve_cwe_members key l1 ++ cve_cwe_members key l2.
Proof. unfold cve_cwe_members. by rewrite bind_app. Qed.

Lemma cve_cwe_members_one key issue :
  cve_cwe_members key [issue]
  = replicate (occurrences key (cve_cwe_keys issue)) issue.
Proof.
  unfold cve_cwe_members, occurrences. rewrite bind_cons, list_bind_nil, app_nil_r.
  induction (cve_cwe_keys issue) as [|k ks IH]; [done|].
  rewrite bind_cons, filter_cons, IH. by case_decide.
Qed.

Lemma cve_cwe_members_insert key before after issue :
  cve_cwe_members key (before ++ issue :: after)
  = cve_cwe_members key before
    ++ replicate (occurrences key (cve_cwe_keys issue)) issue
    ++ cve_cwe_members key after.
Proof.
  change (issue :: after) with ([issue] ++ after).
  by rewrite !cve_cwe_members_app, cve_cwe_members_one.
Qed.

Lemma project_members_insert key before after issue :
  project_members key (before ++ issue :: after)
  = project_members key before
    ++ (if decide (project_key issue = key) then [issue] else [])
    ++ project_members key after.
Proof.
  unfold project_members. rewrite filter_app, filter_cons. by case_decide.
Qed.

Lemma dict_get_perm {K V : Type} `{EqDecision K} (l l' : list (K * V)) k :
  NoDup l.*1 → l ≡ₚ l' → dict_get k l = dict_get k l'.
Proof.
  intros Hnd Hp. assert (NoDup l'.*1) as Hnd' by (by rewrite <- Hp).
  destruct (dict_get k l) as [v|] eqn:E.
  - apply dict_get_Some_elem in E. rewrite Hp in E.
    symmetry. by apply dict_get_elem.
  - apply dict_get_None in E. symmetry. apply dict_get_None. by rewrite <- Hp.
Qed.

Lemma head_filter_key {K V B : Type} `{EqDecision K} (key_of : B → K)
    (f : K * V → B) (l : list (K * V)) (k : K) :
  (∀ p, key_of (f p) = p.1) →
  head (filter (λ b, key_of b = k) (f <$> l)) = (λ v, f (k, v)) <$> dict_get k l.
Proof.
  intros Hf. induction l as [|[k' v] l IH]; [done|].
  rewrite fmap_cons, filter_cons, Hf. cbn [fst dict_get].
  repeat case_decide; simplify_eq; done.
Qed.

(** The group of a key in the report of a strategy is made of the records
    accumulated at the key. *)
Lemma cve_cwe_group_at_members key issues :
  cve_cwe_group_at key (CveCwe.prepare_data_cve_cwe issues)
  = match cve_cwe_members key issues with
    | [] => None
    | ms => Some (CveCwe.make_group (key, cve_cwe_fold CveCwe.new_group ms))
    end.
Proof.
  unfold cve_cwe_group_at, CveCwe.prepare_data_cve_cwe.
  rewrite (head_filter_key (λ g, (CveCweGroup.cve g, CveCweGroup.cwe g))
             CveCwe.make_group) by (by intros [[c w] d]).
  unfold CveCwe.sorted_groups, sorted_by_key_reverse.
  rewrite <- (dict_get_perm (CveCwe.cve_cwe_groups issues))
    by (apply cve_cwe_groups_NoDup || by rewrite sorted_with_perm).
  rewrite cve_cwe_groups_get. by destruct (cve_cwe_members key issues).
Qed.

Lemma project_group_at_members key issues :
  project_group_at key (Project.prepare_data_project issues)
  = match project_members key issues with
    | [] => None
    | ms => Some (Project.make_group (key, project_fold Project.new_group ms))
    end.
Proof.
  unfold project_group_at, Project.prepare_data_project.
  rewrite (head_filter_key
             (λ g, (ProjectGroup.project_name g, ProjectGroup.project_url g))
             Project.make_group) by (by intros [[c w] d]).
  unfold Project.sorted_groups, sorted_by_key_reverse.
  rewrite <- (dict_get_perm (Project.project_groups issues))
    by (apply project_groups_NoDup || by rewrite sorted_with_perm).
  rewrite project_groups_get. by destruct (project_members key issues).
Qed.

Lemma cve_cwe_group_at_total key issues :
  from_option CveCweGroup.total_issues 0
    (cve_cwe_group_at key (CveCwe.prepare_data_cve_cwe issues))
  = length (cve_cwe_members key issues).
Proof.
  rewrite cve_cwe_group_at_members. destruct key as [c w].
  destruct (cve_cwe_members (c, w) issues) as [|m ms] eqn:E; [done|].
  cbn [from_option CveCwe.make_group CveCweGroup.total_issues].
  by rewrite cve_cwe_fold_issues.
Qed.

Lemma cve_cwe_group_at_count key issues sev :
  from_option (λ g, count_of sev (CveCweGroup.severity_counts g)) 0
    (cve_cwe_group_at key (CveCwe.prepare_data_cve_cwe issues))
  = length (filter (λ i, issue_severity i = sev) (cve_cwe_members key issues)).
Proof.
  rewrite cve_cwe_group_at_members. destruct key as [c w].
  destruct (cve_cwe_members (c, w) issues) as [|m ms] eqn:E; [done|].
  cbn [from_option CveCwe.make_group CveCweGroup.severity_counts].
  by rewrite cve_cwe_fold_count.
Qed.

Lemma project_group_at_total key issues :
  from_option ProjectGroup.total_issues 0
    (project_group_at key (Project.prepare_data_project issues))
  = length (project_members key issues).
Proof.
  rewrite project_group_at_members. destruct key as [n u].
  destruct (project_members (n, u) issues) as [|m ms] eqn:E; [done|].
  cbn [from_option Project.make_group ProjectGroup.total_issues].
  by rewrite project_fold_issues.
Qed.

Lemma project_group_at_pairs key issues label :
  label ∈ from_option ProjectGroup.cve_cwe_pairs []
            (project_group_at key (Project.prepare_data_project issues))
  ↔ label ∈ project_members key issues ≫= pair_labels.
Proof.
  rewrite project_group_at_members. destruct key as [n u].
  destruct (project_members (n, u) issues) as [|m ms] eqn:E; [done|].
  cbn [from_option Project.make_group ProjectGroup.cve_cwe_pairs].
  rewrite elem_of_sorted_elements, project_fold_pairs. cbn.
  by rewrite (left_id_L ∅ (∪)), elem_of_list_to_set.
Qed.

Lemma filter_severity_replicate sev n (issue : SnykIssue) :
  length (filter (λ i, issue_severity i = sev) (replicate n issue))
  = if decide (sev = issue_severity issue) then n else 0.
Proof.
  induction n as [|n IH]; [by case_decide|].
  cbn [replicate]. rewrite filter_cons.
  repeat case_decide; simplify_eq; cbn [length]; rewrite IH;
    repeat case_decide; simplify_eq; done.
Qed.

(** C1. A record is expanded into the pairs of the Cartesian product of
    its CVE list (or of the list holding only "No CVE" when that list is
    empty) with its CWE list (or the list holding only "No CWE").  In the
    report of the cve-cwe strategy the record is counted in the groups of
    exactly these pairs: compared with the report of the same records
    without it, the group of such a pair has the record's severity counted,
    and its issues counted, once more for each occurrence of the pair in
    the product (the occurrences of the cve in the one list times those of
    the cwe in the other, which is once when no list repeats an entry), and
    the group of every other pair is the same, or as absent.  In the report
    of the project strategy the record is counted once in the group of its
    project, whose labels are those it has without the record and the
    labels "cve + cwe" of these pairs; every other project group is the
    same. *)
Theorem cartesian_expansion (before after : list SnykIssue) (issue : SnykIssue) :
  let with_record := before ++ issue :: after in
  let without := before ++ after in
  cves_of issue = (if decide (cve issue = []) then ["No CVE"] else cve issue)
  ∧ cwes_of issue = (if decide (cwe issue = []) then ["No CWE"] else cwe issue)
  ∧ (∀ c w,
       let n := occurrences c (cves_of issue) * occurrences w (cwes_of issue) in
       let g1 := cve_cwe_group_at (c, w) (CveCwe.prepare_data_cve_cwe with_record) in
       let g0 := cve_cwe_group_at (c, w) (CveCwe.prepare_data_cve_cwe without) in
       (1 ≤ n ↔ c ∈ cves_of issue ∧ w ∈ cwes_of issue)
       ∧ (n = 0 → g1 = g0)
       ∧ (1 ≤ n →
          ∃ g, g1 = Some g
            ∧ CveCweGroup.total_issues g
              = from_option CveCweGroup.total_issues 0 g0 + n
            ∧ ∀ sev,
                count_of sev (CveCweGroup.severity_counts g)
                = from_option (λ g, count_of sev (CveCweGroup.severity_counts g)) 0 g0
                  + (if decide (sev = issue_severity issue) then n else 0)))
  ∧ (∀ key,
       let g1 := project_group_at key (Project.prepare_data_project with_record) in
       let g0 := project_group_at key (Project.prepare_data_project without) in
       (key ≠ (project_name issue, project_url issue) → g1 = g0)
       ∧ (key = (project_name issue, project_url issue) →
          ∃ g, g1 = Some g
            ∧ ProjectGroup.total_issues g
              = from_option ProjectGroup.total_issues 0 g0 + 1
            ∧ ∀ label,
                label ∈ ProjectGroup.cve_cwe_pairs g ↔
                label ∈ from_option ProjectGroup.cve_cwe_pairs [] g0
                ∨ ∃ c w, c ∈ cves_of issue ∧ w ∈ cwes_of issue
                         ∧ label = c +:+ " + " +:+ w)).
Proof.
  intros with_record without. split_and!.
  - apply cves_of_spec.
  - apply cwes_of_spec.
  - intros c w n g1 g0.
    assert (n = occurrences (c, w) (cve_cwe_keys issue)) as Hn
      by (by rewrite occurrences_cve_cwe_keys).
    assert (cve_cwe_members (c, w) with_record
            = cve_cwe_members (c, w) before ++ replicate n issue
              ++ cve_cwe_members (c, w) after) as Hwith
      by (rewrite Hn; apply cve_cwe_members_insert).
    assert (cve_cwe_members (c, w) without
            = cve_cwe_members (c, w) before ++ cve_cwe_members (c, w) after)
      as Hwithout by apply cve_cwe_members_app.
    split_and!.
    + rewrite Hn, <- occurrences_elem. apply elem_of_cve_cwe_keys.
    + intros H0. unfold g1, g0. rewrite !cve_cwe_group_at_members, Hwith, Hwithout.
      by rewrite H0.
    + intros Hpos. unfold g1, g0.
      assert (∃ g, cve_cwe_group_at (c, w) (CveCwe.prepare_data_cve_cwe with_record)
                   = Some g) as [g Eg].
      { rewrite cve_cwe_group_at_members, Hwith. destruct n as [|n']; [lia|].
        destruct (cve_cwe_members (c, w) before); simpl; eauto. }
      exists g. split; [done|].
      pose proof (cve_cwe_group_at_total (c, w) with_record) as Ht.
      rewrite Eg in Ht. cbn [from_option] in Ht.
      split.
      * rewrite Ht, cve_cwe_group_at_total, Hwith, Hwithout, !length_app,
          length_replicate. lia.
      * intros sev.
        pose proof (cve_cwe_group_at_count (c, w) with_record sev) as Hc.
        rewrite Eg in Hc. cbn [from_option] in Hc.
        rewrite Hc, cve_cwe_group_at_count, Hwith, Hwithout, !filter_app,
          !length_app, filter_severity_replicate. lia.
  - intros key g1 g0.
    pose proof (project_members_insert key before after issue) as Hwith.
    assert (project_members key without
            = project_members key before ++ project_members key after)
      as Hwithout by apply filter_app.
    unfold project_key in Hwith. split.
    + intros Hne. unfold g1, g0.
      rewrite !project_group_at_members. fold with_record in Hwith.
      rewrite Hwith, Hwithout. by rewrite decide_False.
    + intros ->. rewrite decide_True in Hwith by done. unfold g1, g0.
      set (key := (project_name issue, project_url issue)) in *.
      assert (∃ g, project_group_at key (Project.prepare_data_project with_record)
                   = Some g) as [g Eg].
      { rewrite project_group_at_members. fold with_record in Hwith. rewrite Hwith.
        destruct (project_members key before); simpl; eauto. }
      exists g. split; [done|]. fold with_record in Hwith. split.
      * pose proof (project_group_at_total key with_record) as Ht.
        rewrite Eg in Ht. cbn [from_option] in Ht.
        rewrite Ht, project_group_at_total, Hwith, Hwithout, !length_app.
        simpl. lia.
      * intros label.
        pose proof (project_group_at_pairs key with_record label) as Hp.
        rewrite Eg in Hp. cbn [from_option] in Hp.
        rewrite Hp, project_group_at_pairs, Hwith, Hwithout, !bind_app,
          !elem_of_app, bind_cons, list_bind_nil, app_nil_r, elem_of_pair_labels.
        tauto.
Qed.

Lemma cartesian_expansion_witness :
  (∃ g, cve_cwe_group_at ("CVE-2", "CWE-A")
          (CveCwe.prepare_data_cve_cwe [sample_bare_record; sample_record])
        = Some g
      ∧ CveCweGroup.total_issues g = 1
      ∧ count_of "high" (CveCweGroup.severity_counts g) = 1)
  ∧ cve_cwe_group_at ("CVE-2", "CWE-B")
      (CveCwe.prepare_data_cve_cwe [sample_bare_record; sample_record])
    = None
  ∧ cve_cwe_group_at ("No CVE", "No CWE")
      (CveCwe.prepare_data_cve_cwe [sample_bare_record; sample_record])
    = cve_cwe_group_at ("No CVE", "No CWE")
        (CveCwe.prepare_data_cve_cwe [sample_bare_record]).
Proof.
  destruct (cartesian_expansion [sample_bare_record] [] sample_record)
    as (_ & _ & H & _).
  split_and!.
  - destruct (H "CVE-2" "CWE-A") as (_ & _ & Hin).
    destruct Hin as (g & Hg & Htotal & Hcount); [vm_compute; lia|].
    exists g. split_and!; [exact Hg | exact Htotal | exact (Hcount "high")].
  - destruct (H "CVE-2" "CWE-B") as (_ & Hout & _).
    etransitivity; [apply Hout; vm_compute; reflexivity|]. vm_compute. reflexivity.
  - destruct (H "No CVE" "No CWE") as (_ & Hout & _).
    apply Hout. vm_compute. reflexivity.
Defined.

(** A record whose CVE list names one CVE twice has two CVEs and one CWE:
    it makes one group, not two, and is counted twice in it. *)
Theorem repeated_cve_counted_twice :
  length (cve repeated_cve_record) = 2
  ∧ length (cwe repeated_cve_record) = 1
  ∧ (λ g, (CveCweGroup.cve g, CveCweGroup.cwe g, CveCweGroup.total_issues g,
           CveCweGroup.severity_counts g))
      <$> CveCwe.prepare_data_cve_cwe [repeated_cve_record]
    = [ ("CVE-1", "CWE-A", 2, [("high", 2)]) ].
Proof. split_and!; vm_compute; reflexivity. Qed.

(** * Further properties of the ingestor *)

Lemma length_omap_split {A B C : Type} (f : A → B + C) (l : list A) :
  length (omap (λ x, match f x with inr c => Some c | inl _ => None end) l)
  + length (omap (λ x, match f x with inl b => Some b | inr _ => None end) l)
  = length l.
Proof.
  induction l as [|x l IH]; [done|]. cbn [omap list_omap].
  destruct (f x); cbn [length]; lia.
Qed.

Lemma length_warnings {Row Exn : Type} (construct : Row → Exn + SnykIssue)
    (str_of_exn : Exn → string) (start : nat) (rows : list Row) :
  length (omap (λ item : nat * Row,
                  match construct item.2 with
                  | inl e => Some (warning item.1 (str_of_exn e))
                  | inr _ => None
                  end) (enumerate start rows))
  = length (omap (λ row, match construct row with
                         | inl e => Some e
                         | inr _ => None
                         end) rows).
Proof.
  revert start. induction rows as [|row rows IH]; intros start; [done|].
  cbn [enumerate omap list_omap]. cbn [snd]. destruct (construct row); cbn [length]; auto.
Qed.

(** X8. Every row ends up as exactly one record or exactly one warning:
    the number of records the ingestor returns plus the number of lines it
    prints is the number of rows; it prints nothing exactly when the
    constructor accepts every row, and then there are as many records as
    rows. *)
Theorem ingestion_conserves_rows {Row Exn : Type}
    (construct : Row → Exn + SnykIssue) (str_of_exn : Exn → string)
    (rows : list Row) :
  let result := read_csv_to_models construct str_of_exn rows in
  length result.1 + length result.2 = length rows
  ∧ (result.2 = [] ↔ ∀ row, row ∈ rows → ∃ issue, construct row = inr issue)
  ∧ (result.2 = [] → length result.1 = length rows).
Proof.
  intros result.
  assert (length result.1 + length result.2 = length rows) as Hlen.
  { unfold result, read_csv_to_models. rewrite read_rows_from. cbn [fst snd app].
    rewrite length_warnings. apply (length_omap_split construct). }
  split_and!; [done| |].
  - unfold result, read_csv_to_models. rewrite read_rows_from. cbn [fst snd app].
    clear. generalize 2. induction rows as [|row rows IH]; intros start.
    + split; [|done]. by intros _ row ?%elem_of_nil.
    + cbn [enumerate omap list_omap]. cbn [snd fst].
      destruct (construct row) as [e|issue] eqn:E.
      * split; [done|]. intros H. destruct (H row) as [issue Hi]; [left|].
        congruence.
      * rewrite (IH (S start)). split.
        -- intros H row' [->|Hin]%elem_of_cons; eauto.
        -- intros H row' Hin. apply H. by right.
  - intros Hnil. rewrite Hnil in Hlen. simpl in Hlen. lia.
Qed.

(** X9. Reading is compositional in the rows: the records of [rows1]
    followed by [rows2] are the records of [rows1] followed by those of
    [rows2], and the warnings are those of [rows1] followed by those of
    [rows2] with the row numbers continuing after [rows1]. *)
Theorem ingestion_appends {Row Exn : Type}
    (construct : Row → Exn + SnykIssue) (str_of_exn : Exn → string)
    (rows1 rows2 : list Row) :
  (read_csv_to_models construct str_of_exn (rows1 ++ rows2)).1
  = (read_csv_to_models construct str_of_exn rows1).1
    ++ (read_csv_to_models construct str_of_exn rows2).1
  ∧ (read_csv_to_models construct str_of_exn (rows1 ++ rows2)).2
    = (read_csv_to_models construct str_of_exn rows1).2
      ++ (foldl (read_row construct str_of_exn) ([], [])
                (enumerate (2 + length rows1) rows2)).2.
Proof.
  unfold read_csv_to_models. rewrite !read_rows_from. cbn [fst snd app].
  by rewrite enumerate_app, !omap_app.
Qed.

(** * Further properties of the record model *)


(** ** The column an error names *)

Lemma str_items_alias alias (l : list pyval) error :
  error ∈ errors_of (str_items alias l) → error.1 = alias.
Proof.
  induction l as [|v l IH]; [by intros ?%elem_of_nil|].
  pose proof (str_items_quiet alias (v :: l)) as Hq. cbn [str_items] in Hq |- *.
  destruct (ap_quiet _ _ Hq) as [_ ->].
  intros [H|H]%elem_of_app; [|by apply IH].
  destruct v; simpl in H; try (by apply elem_of_nil in H);
    by apply list_elem_of_singleton in H as ->.
Qed.


Lemma str_field_alias alias field kwargs error :
  error ∈ errors_of (str_field alias field kwargs) → error.1 = alias.
Proof.
  unfold str_field. destruct (lookup_field alias field kwargs) as [[]|]; simpl;
    intros H; try (by apply elem_of_nil in H);
    by apply list_elem_of_singleton in H as ->.
Qed.

Lemma optional_str_field_alias alias field kwargs error :
  error ∈ errors_of (optional_str_field alias field kwargs) → error.1 = alias.
Proof.
  unfold optional_str_field. destruct (lookup_field alias field kwargs) as [[]|]; simpl;
    intros H; try (by apply elem_of_nil in H);
    by apply list_elem_of_singleton in H as ->.
Qed.

Lemma int_field_alias validate_int alias field kwargs error :
  error ∈ errors_of (int_field validate_int alias field kwargs) → error.1 = alias.
Proof.
  unfold int_field. destruct (lookup_field alias field kwargs) as [v|]; simpl.
  - destruct (validate_int v); simpl; intros H; [|by apply elem_of_nil in H].
    by apply list_elem_of_singleton in H as ->.
  - intros H. by apply list_elem_of_singleton in H as ->.
Qed.

Lemma list_field_alias lim alias field kwargs error :
  error ∈ errors_of (list_field lim alias field kwargs) → error.1 = alias.
Proof.
  unfold list_field. destruct (lookup_field alias field kwargs) as [v|]; simpl;
    [|by intros ?%elem_of_nil].
  destruct (parse_json_array lim v) as [[]|[]]; simpl; try apply str_items_alias;
    intros H; try (by apply elem_of_nil in H);
    by apply list_elem_of_singleton in H as ->.
Qed.

Lemma datetime_field_alias strptime validate_datetime alias field kwargs error :
  error ∈ errors_of (datetime_field strptime validate_datetime alias field kwargs) →
  error.1 = alias.
Proof.
  unfold datetime_field. destruct (lookup_field alias field kwargs) as [v|]; simpl;
    [|by intros ?%elem_of_nil].
  destruct (parse_datetime strptime v) as [msg|v']; simpl.
  { intros H. by apply list_elem_of_singleton in H as ->. }
  destruct v'; simpl; try destruct (validate_datetime _); simpl; intros H;
    try (by apply elem_of_nil in H);
    by apply list_elem_of_singleton in H as ->.
Qed.

(** An error of the constructor names the column of the field it comes
    from: with the alias [alias] it is an error of the field of that
    column. *)
Lemma field_errors_alias strptime validate_int validate_datetime lim kwargs error :
  error ∈ field_errors strptime validate_int validate_datetime lim kwargs →
  (error.1 = "ISSUE_SEVERITY_RANK"
   ∧ error ∈ errors_of (int_field validate_int "ISSUE_SEVERITY_RANK"
                           "issue_severity_rank" kwargs))
  ∨ (error.1 = "ISSUE_SEVERITY"
     ∧ error ∈ errors_of (str_field "ISSUE_SEVERITY" "issue_severity" kwargs))
  ∨ (error.1 = "SCORE"
     ∧ error ∈ errors_of (int_field validate_int "SCORE" "score" kwargs))
  ∨ (error.1 = "PROBLEM_TITLE"
     ∧ error ∈ errors_of (str_field "PROBLEM_TITLE" "problem_title" kwargs))
  ∨ (error.1 = "CVE" ∧ error ∈ errors_of (list_field lim "CVE" "cve" kwargs))
  ∨ (error.1 = "CVE_URL"
     ∧ error ∈ errors_of (list_field lim "CVE_URL" "cve_url" kwargs))
  ∨ (error.1 = "CWE" ∧ error ∈ errors_of (list_field lim "CWE" "cwe" kwargs))
  ∨ (error.1 = "PROJECT_NAME"
     ∧ error ∈ errors_of (str_field "PROJECT_NAME" "project_name" kwargs))
  ∨ (error.1 = "PROJECT_URL"
     ∧ error ∈ errors_of (str_field "PROJECT_URL" "project_url" kwargs))
  ∨ (error.1 = "EXPLOIT_MATURITY"
     ∧ error ∈ errors_of (optional_str_field "EXPLOIT_MATURITY"
                             "exploit_maturity" kwargs))
  ∨ (error.1 = "COMPUTED_FIXABILITY"
     ∧ error ∈ errors_of (str_field "COMPUTED_FIXABILITY"
                             "computed_fixability" kwargs))
  ∨ (error.1 = "FIRST_INTRODUCED"
     ∧ error ∈ errors_of (datetime_field strptime validate_datetime
                             "FIRST_INTRODUCED" "first_introduced" kwargs))
  ∨ (error.1 = "PRODUCT_NAME"
     ∧ error ∈ errors_of (optional_str_field "PRODUCT_NAME" "product_name" kwargs))
  ∨ (error.1 = "ISSUE_URL"
     ∧ error ∈ errors_of (str_field "ISSUE_URL" "issue_url" kwargs))
  ∨ (error.1 = "ISSUE_STATUS_INDICATOR"
     ∧ error ∈ errors_of (str_field "ISSUE_STATUS_INDICATOR"
                             "issue_status_indicator" kwargs))
  ∨ (error.1 = "ISSUE_TYPE"
     ∧ error ∈ errors_of (str_field "ISSUE_TYPE" "issue_type" kwargs)).
Proof.
  unfold field_errors. rewrite !elem_of_app.
  intros [H|[H|[H|[H|[H|[H|[H|[H|[H|[H|[H|[H|[H|[H|[H|H]]]]]]]]]]]]]]];
    [ pose proof (int_field_alias _ _ _ _ _ H)
    | pose proof (str_field_alias _ _ _ _ H)
    | pose proof (int_field_alias _ _ _ _ _ H)
    | pose proof (str_field_alias _ _ _ _ H)
    | pose proof (list_field_alias _ _ _ _ _ H)
    | pose proof (list_field_alias _ _ _ _ _ H)
    | pose proof (list_field_alias _ _ _ _ _ H)
    | pose proof (str_field_alias _ _ _ _ H)
    | pose proof (str_field_alias _ _ _ _ H)
    | pose proof (optional_str_field_alias _ _ _ _ H)
    | pose proof (str_field_alias _ _ _ _ H)
    | pose proof (datetime_field_alias _ _ _ _ _ _ H)
    | pose proof (optional_str_field_alias _ _ _ _ H)
    | pose proof (str_field_alias _ _ _ _ H)
    | pose proof (str_field_alias _ _ _ _ H)
    | pose proof (str_field_alias _ _ _ _ H) ]; tauto.
Qed.


Ltac split_field_error Hin :=
  destruct Hin as [[Heq Hm]|[[Heq Hm]|[[Heq Hm]|[[Heq Hm]|[[Heq Hm]|[[Heq Hm]|
                  [[Heq Hm]|[[Heq Hm]|[[Heq Hm]|[[Heq Hm]|[[Heq Hm]|[[Heq Hm]|
                  [[Heq Hm]|[[Heq Hm]|[[Heq Hm]|[Heq Hm]]]]]]]]]]]]]]]];
  try discriminate Heq.



(** X11. The six columns the record model declares with a default can be
    left out: a missing one never adds an error to a rejection, and in an
    accepted record its field has the default, the empty list for the
    three list fields and None for the three others. *)
Theorem absent_optional_column_defaults
    (strptime : string → string → option datetime)
    (validate_int : pyval → string + Z)
    (validate_datetime : pyval → string + datetime) (lim : Json.limits)
    (row : list (option string * pyval)) (kwargs : list (string * pyval)) :
  keywords row = Some kwargs →
  (∀ alias field errors msg,
     (alias, field) ∈ optional_columns →
     lookup_field alias field kwargs = None →
     SnykIssue_init strptime validate_int validate_datetime lim row
     = inl (ValidationError errors) →
     (alias, msg) ∉ errors)
  ∧ (∀ issue,
       SnykIssue_init strptime validate_int validate_datetime lim row = inr issue →
       (lookup_field "CVE" "cve" kwargs = None → cve issue = [])
       ∧ (lookup_field "CVE_URL" "cve_url" kwargs = None → cve_url issue = [])
       ∧ (lookup_field "CWE" "cwe" kwargs = None → cwe issue = [])
       ∧ (lookup_field "EXPLOIT_MATURITY" "exploit_maturity" kwargs = None →
          exploit_maturity issue = None)
       ∧ (lookup_field "FIRST_INTRODUCED" "first_introduced" kwargs = None →
          first_introduced issue = None)
       ∧ (lookup_field "PRODUCT_NAME" "product_name" kwargs = None →
          product_name issue = None)).
Proof.
  intros Hkw. split.
  - intros alias field errors msg Hopt Hl Hrej Hin.
    apply (SnykIssue_init_rejected _ _ _ _ _ _ _ Hkw) in Hrej as [-> _].
    apply field_errors_alias in Hin. cbn [fst] in Hin.
    unfold optional_columns in Hopt.
    repeat (apply elem_of_cons in Hopt as [[= -> ->]|Hopt]);
      [..|by apply elem_of_nil in Hopt];
      split_field_error Hin;
      unfold list_field, optional_str_field, datetime_field in Hm;
      rewrite Hl in Hm; by apply elem_of_nil in Hm.
  - intros issue Hacc.
    destruct (SnykIssue_init_accepted _ _ _ _ _ _ _ Hkw Hacc)
      as (_ & _ & _ & _ & Hcve & Hurl & Hcwe & _ & _ & Hexp & _ & Hdt & Hprod & _).
    unfold list_field in Hcve, Hurl, Hcwe. unfold optional_str_field in Hexp, Hprod.
    unfold datetime_field in Hdt.
    split_and!; intros Hl; rewrite Hl in *; congruence.
Qed.

Lemma absent_optional_column_defaults_witness :
  ∃ issue,
    SnykIssue_init sample_strptime decimal_int no_datetime sample_limits minimal_row
    = inr issue
    ∧ cve issue = [] ∧ cve_url issue = [] ∧ cwe issue = []
    ∧ exploit_maturity issue = None ∧ first_introduced issue = None
    ∧ product_name issue = None.
Proof.
  destruct (absent_optional_column_defaults sample_strptime decimal_int
              no_datetime sample_limits minimal_row _ eq_refl) as [_ Hdef].
  destruct (SnykIssue_init sample_strptime decimal_int no_datetime sample_limits
              minimal_row)
    as [e|issue] eqn:E; [vm_compute in E; discriminate E|].
  exists issue. destruct (Hdef issue eq_refl) as (H1 & H2 & H3 & H4 & H5 & H6).
  split_and!; [reflexivity | apply H1 | apply H2 | apply H3 | apply H4
              | apply H5 | apply H6]; vm_compute; reflexivity.
Defined.



(** X13. The two validators are idempotent: each returns a value it
    returned (without raising) unchanged.  A value that was validated once
    can be validated again. *)
Theorem validators_idempotent (strptime : string → string → option datetime)
    (lim : Json.limits) (v : pyval) :
  (∀ r, parse_json_array lim v = inr r → parse_json_array lim r = inr r)
  ∧ (∀ r, parse_datetime strptime v = inr r → parse_datetime strptime r = inr r).
Proof.
  split.
  - intros r Hr. by destruct (parse_json_array_returns _ _ _ Hr) as [items ->].
  - intros r. unfold parse_datetime at 1. destruct v as [| | |s|items| |];
      try (by intros [= <-]).
    case_decide; [by intros [= <-]|].
    destruct (strptime s _); [by intros [= <-]|].
    destruct (strptime s _); [by intros [= <-]|done].
Qed.

(** ** Rows of the wrong length *)

Lemma keywords_None (row : list (option string * pyval)) v :
  (None, v) ∈ row → keywords row = None.
Proof.
  induction row as [|[[k|] v'] row IH]; [by intros ?%elem_of_nil| |done].
  intros [[=]|Hin]%elem_of_cons. cbn [keywords]. by rewrite (IH Hin).
Qed.

(** X18. A row with more cells than the header has columns, which the CSV
    reader hands over with the surplus cells under the key None, is
    rejected as a whole with a TypeError, whatever its other cells hold;
    the ingestor then prints a warning for it and returns no record for
    it. *)
Theorem surplus_cells_rejected
    (strptime : string → string → option datetime)
    (validate_int : pyval → string + Z)
    (validate_datetime : pyval → string + datetime) (lim : Json.limits)
    (str_of_exn : exn → string)
    (row : list (option string * pyval)) (v : pyval) :
  (None, v) ∈ row →
  (∃ msg, SnykIssue_init strptime validate_int validate_datetime lim row
          = inl (TypeError msg))
  ∧ ∀ before after,
      (read_csv_to_models
         (SnykIssue_init strptime validate_int validate_datetime lim) str_of_exn
         (before ++ row :: after)).1
      = (read_csv_to_models
           (SnykIssue_init strptime validate_int validate_datetime lim) str_of_exn
           (before ++ after)).1.
Proof.
  intros Hin.
  assert (SnykIssue_init strptime validate_int validate_datetime lim row
          = inl (TypeError "keywords must be strings")) as Hrej.
  { unfold SnykIssue_init. by rewrite (keywords_None row v Hin). }
  split; [eauto|].
  intros before after. unfold read_csv_to_models. rewrite !read_rows_from.
  cbn [fst app]. rewrite !omap_app. cbn [omap list_omap]. by rewrite Hrej.
Qed.

Lemma surplus_cells_rejected_witness :
  (∃ msg, SnykIssue_init sample_strptime decimal_int no_datetime sample_limits
            (minimal_row ++ [(None, PList [PStr "surplus"])])
          = inl (TypeError msg))
  ∧ (read_csv_to_models
       (SnykIssue_init sample_strptime decimal_int no_datetime sample_limits)
       sample_str_of_exn
       ([minimal_row] ++ (minimal_row ++ [(None, PList [PStr "surplus"])]) :: [])).1
    = (read_csv_to_models
         (SnykIssue_init sample_strptime decimal_int no_datetime sample_limits)
         sample_str_of_exn ([minimal_row] ++ [])).1.
Proof.
  assert ((None, PList [PStr "surplus"])
          ∈ minimal_row ++ [(None, PList [PStr "surplus"])]) as Hin.
  { apply elem_of_app. right. left. }
  destruct (surplus_cells_rejected sample_strptime decimal_int no_datetime
              sample_limits sample_str_of_exn
              (minimal_row ++ [(None, PList [PStr "surplus"])])
              (PList [PStr "surplus"]) Hin) as [Hrej Hskip].
  split; [exact Hrej | exact (Hskip [minimal_row] [])].
Defined.

(** * Properties of the command line program *)

Section ProgramFacts.
Context {Path Row Exn : Type} (o : outside Path Row Exn).

(** The default output path is the output directory joined with the name
    of the template. *)
Lemma resolve_output_run (args : arguments Path) :
  resolve_output o args
  = match mkdir_error o (output_dir_of o args).1 (output_dir_of o args).2 with
    | Some e => ([], inl (Raised e))
    | None =>
        ([Mkdir (output_dir_of o args).1 (output_dir_of o args).2],
         inr (output_path_of o args))
    end.
Proof.
  unfold resolve_output, output_dir_of, output_path_of, template_name, effect,
    io_bind, io_ret.
  destruct (output_file args) as [p|]; cbn [fst snd].
  - by destruct (mkdir_error o (parent o p) true).
  - destruct (mkdir_error o (path_of o "output") false); [done|].
    by case_decide.
Qed.

Lemma generate_run (issues : list SnykIssue) (output_path : Path) (group_by : string) :
  generate o issues output_path group_by
  = match get_template_error o (template_name group_by) with
    | Some e => ([], inl (Raised e))
    | None =>
        let loaded := [LoadTemplate (template_name group_by)] in
        match render_template o (template_name group_by)
                (prepare_data issues group_by) with
        | inl e => (loaded, inl (Raised e))
        | inr html =>
            match open_error o output_path with
            | Some e => (loaded, inl (Raised e))
            | None =>
                match write_error o output_path html with
                | Some e => (loaded ++ [OpenWrite output_path], inl (Raised e))
                | None =>
                    (loaded ++ [OpenWrite output_path; WriteFile output_path html],
                     inr tt)
                end
            end
        end
    end.
Proof.
  unfold generate, effect, io_bind.
  destruct (get_template_error o _); [done|].
  destruct (render_template o _ _) as [e|html]; [done|].
  destruct (open_error o output_path); [done|].
  by destruct (write_error o output_path html).
Qed.

Lemma generate_html_report_run (issues : list SnykIssue) (output_path : Path)
    (group_by : string) :
  generate_html_report o issues output_path group_by
  = match import_error o "html_report" with
    | Some e => ([], inl (Raised e))
    | None =>
        (Import "html_report" :: (generate o issues output_path group_by).1,
         (generate o issues output_path group_by).2)
    end.
Proof.
  unfold generate_html_report, effect, io_bind.
  destruct (import_error o _); [done|].
  by destruct (generate o issues output_path group_by).
Qed.

(** The runs of [main], by what the outside answers *)
Lemma main_run (args : arguments Path) :
  main o args
  = if path_exists o (csv_file args) then
      match mkdir_error o (output_dir_of o args).1 (output_dir_of o args).2 with
      | Some e => ([], inl (Raised e))
      | None =>
          let head :=
            [Mkdir (output_dir_of o args).1 (output_dir_of o args).2;
             Stdout ("Reading CSV file: " +:+ str_of_path o (csv_file args))] in
          match read_csv o (csv_file args) with
          | inl e => (head, inl (Raised e))
          | inr (rows, Some e) =>
              (head ++ OpenRead (csv_file args) :: (Stderr <$> warnings_of o rows),
               inl (Raised e))
          | inr (rows, None) =>
              let parsed :=
                head ++ OpenRead (csv_file args) :: (Stderr <$> warnings_of o rows)
                ++ [Stdout ("Successfully parsed "
                            +:+ str_of_nat (length (records_of o rows))
                            +:+ " issues")] in
              match import_error o "html_report" with
              | Some e => (parsed, inl (Raised e))
              | None =>
              match get_template_error o (template_name (group_by args)) with
              | Some e => (parsed ++ [Import "html_report"], inl (Raised e))
              | None =>
              let loaded :=
                parsed ++ [Import "html_report";
                           LoadTemplate (template_name (group_by args))] in
              match render_template o (template_name (group_by args))
                      (prepare_data (records_of o rows) (group_by args)) with
              | inl e => (loaded, inl (Raised e))
              | inr html =>
                  match open_error o (output_path_of o args) with
                  | Some e => (loaded, inl (Raised e))
                  | None =>
                      match write_error o (output_path_of o args) html with
                      | Some e =>
                          (loaded ++ [OpenWrite (output_path_of o args)],
                           inl (Raised e))
                      | None =>
                          (loaded
                           ++ [OpenWrite (output_path_of o args);
                               WriteFile (output_path_of o args) html;
                               Stdout ("HTML report generated: "
                                       +:+ str_of_path o (output_path_of o args))],
                           inr tt)
                      end
                  end
              end
              end
              end
          end
      end
    else
      ([Stderr ("Error: File not found: " +:+ str_of_path o (csv_file args))],
       inl (Exit 1)).
Proof.
  unfold main. destruct (path_exists o (csv_file args)); [|done]. cbn [negb].
  rewrite resolve_output_run.
  destruct (mkdir_error o _ _); [done|].
  unfold read_csv_file, print, records_of, warnings_of.
  cbn [io_bind app]. cbv zeta.
  destruct (read_csv o (csv_file args)) as [e|[rows [e|]]]; cbn [io_bind app fst snd].
  - done.
  - done.
  - rewrite generate_html_report_run.
    destruct (import_error o _); cbn [app].
    { by rewrite ?app_nil_r. }
    rewrite generate_run.
    destruct (get_template_error o _); cbn [app fst snd].
    { by rewrite <- ?app_assoc. }
    destruct (render_template o _ _) as [e|html]; cbn [app fst snd].
    { by rewrite <- ?app_assoc. }
    destruct (open_error o _); cbn [app fst snd]; [by rewrite <- ?app_assoc|].
    destruct (write_error o _ _); cbn [app fst snd]; by rewrite <- ?app_assoc.
Qed.

Lemma filter_stderr (P : event Path → bool) (ws : list string) :
  (∀ w, P (Stderr w) = false) →
  filter (λ ev : event Path, P ev = true) (Stderr <$> ws) = [].
Proof.
  intros HP. induction ws as [|w ws IH]; [done|].
  rewrite fmap_cons, filter_cons_False; [done|]. by rewrite HP.
Qed.
End ProgramFacts.

(** X14. Once the command line is parsed, [main] ends with an exit code
    in one case only: the input file does not exist.  The code is then 1,
    the only thing the run did is to print the line "Error: File not
    found: " with the path to the error stream, and no directory was made
    and no file opened. *)
Theorem main_exits_only_for_missing_file {Path Row Exn : Type}
    (o : outside Path Row Exn) (args : arguments Path) :
  (∀ code, (main o args).2 = inl (Exit code) →
     code = 1%Z ∧ path_exists o (csv_file args) = false)
  ∧ (path_exists o (csv_file args) = false →
     main o args
     = ([Stderr ("Error: File not found: " +:+ str_of_path o (csv_file args))],
        inl (Exit 1))).
Proof.
  rewrite main_run. split.
  - intros code. destruct (path_exists o (csv_file args)); [|by intros [= <-]].
    destruct (mkdir_error o _ _); [done|]. cbv zeta.
    destruct (read_csv o _) as [e|[rows [e|]]]; [done..|].
    destruct (import_error o _); [done|].
    destruct (get_template_error o _); [done|].
    destruct (render_template o _ _); [done|].
    destruct (open_error o _); [done|].
    by destruct (write_error o _ _).
  - by intros ->.
Qed.

Lemma main_exits_only_for_missing_file_witness :
  main sample_outside
    {| csv_file := "missing.csv"; output_file := None; group_by := "cve-cwe" |}
  = ([Stderr "Error: File not found: missing.csv"], inl (Exit 1)).
Proof.
  exact (proj2 (main_exits_only_for_missing_file sample_outside
                  {| csv_file := "missing.csv"; output_file := None;
                     group_by := "cve-cwe" |}) eq_refl).
Defined.

(** X15. Whatever the outside answers, the calls a run of [main] makes to
    the file system, the import system and the template engine are these
    and no others: it makes the directory of the output path (the
    directory output, or the parent of the path given with -o, with its
    parents); it opens the input file for reading; it imports html_report;
    it asks for the template of the strategy; it opens the output path for
    writing and writes to it.  It makes, opens for writing and writes at
    most three times in all and writes at most once, and a write happens
    only after the input was read to its end and the template was
    rendered: what is written is the rendering of the data prepared from
    the accepted rows. *)
Theorem main_file_accesses {Path Row Exn : Type}
    (o : outside Path Row Exn) (args : arguments Path) :
  let trace := (main o args).1 in
  (∀ p parents, Mkdir p parents ∈ trace → (p, parents) = output_dir_of o args)
  ∧ (∀ p, OpenRead p ∈ trace → p = csv_file args)
  ∧ (∀ module, Import module ∈ trace → module = "html_report")
  ∧ (∀ name, LoadTemplate name ∈ trace → name = template_name (group_by args))
  ∧ (∀ p, OpenWrite p ∈ trace → p = output_path_of o args)
  ∧ (∀ p content, WriteFile p content ∈ trace →
       p = output_path_of o args
       ∧ path_exists o (csv_file args) = true
       ∧ ∃ rows,
           read_csv o (csv_file args) = inr (rows, None)
           ∧ render_template o (template_name (group_by args))
               (prepare_data (records_of o rows) (group_by args))
             = inr content)
  ∧ length (filter (λ ev, is_change ev = true) trace) ≤ 3
  ∧ length (filter (λ ev, is_write ev = true) trace) ≤ 1.
Proof.
  cbv zeta. rewrite main_run.
  assert (∀ ws : list string, ∀ ev : event Path,
            ev ∈ Stderr <$> ws → ∃ w, ev = Stderr w) as Hst.
  { intros ws ev (w & -> & _)%list_elem_of_fmap. eauto. }
  pose proof (filter_stderr (Path := Path) is_change) as Hfc.
  pose proof (filter_stderr (Path := Path) is_write) as Hfw.
  destruct (output_dir_of o args) as [dir parents] eqn:Edir. cbn [fst snd].
  destruct (path_exists o (csv_file args)); cbv zeta;
    [destruct (mkdir_error o _ _);
     [|destruct (read_csv o _) as [e|[rows [e|]]];
       [| |destruct (import_error o _);
           [|destruct (get_template_error o _);
             [|destruct (render_template o _ _) as [e|html] eqn:Er;
               [|destruct (open_error o _);
                 [|destruct (write_error o _ _)]]]]]]|];
    cbn [fst snd];
    (split_and!;
     [ intros p b H
     | intros p H
     | intros p H
     | intros p H
     | intros p H
     | intros p content H
     | rewrite ?filter_app, ?filter_cons, ?Hfc, ?filter_app, ?Hfc, ?length_app,
         ?filter_cons, ?filter_nil by done;
       repeat case_decide; try discriminate; cbn [length app]; lia
     | rewrite ?filter_app, ?filter_cons, ?Hfw, ?filter_app, ?Hfw, ?length_app,
         ?filter_cons, ?filter_nil by done;
       repeat case_decide; try discriminate; cbn [length app]; lia ]);
    rewrite ?elem_of_app, ?elem_of_cons, ?elem_of_app, ?elem_of_cons,
      ?elem_of_nil in H;
    repeat match goal with
    | H : _ ∨ _ |- _ => destruct H as [H|H]
    | H : False |- _ => destruct H
    | H : _ ∈ Stderr <$> _ |- _ => apply Hst in H as [? H]
    | H : _ ∈ [] |- _ => apply elem_of_nil in H
    | H : @eq (event _) _ _ |- _ =>
        first [discriminate H | injection H as -> -> | injection H as ->]
    end; eauto.
Qed.

Lemma main_file_accesses_witness :
  WriteFile "output/report_project.html" "report_project.html: 2 issues in 1 groups"
    ∈ (main sample_outside sample_arguments).1
  ∧ output_path_of sample_outside sample_arguments = "output/report_project.html"
  ∧ ∃ rows,
      read_csv sample_outside "issues.csv" = inr (rows, None)
      ∧ render_template sample_outside (template_name "project")
          (prepare_data (records_of sample_outside rows) "project")
        = inr "report_project.html: 2 issues in 1 groups".
Proof.
  assert (WriteFile "output/report_project.html"
            "report_project.html: 2 issues in 1 groups"
            ∈ (main sample_outside sample_arguments).1) as Hin.
  { apply (list_elem_of_lookup_2 _ 8). vm_compute. reflexivity. }
  destruct (main_file_accesses sample_outside sample_arguments)
    as (_ & _ & _ & _ & _ & Hwrite & _).
  destruct (Hwrite _ _ Hin) as (Hpath & _ & Hrows).
  split_and!; [exact Hin | by rewrite <- Hpath | exact Hrows].
Defined.

(** X16. A run of [main] that ends normally did all of this, in this order
    and nothing else: it made the output directory, printed the line
    "Reading CSV file: " with the input path, opened the input file,
    printed one warning to the error stream for each row the constructor
    rejected, printed "Successfully parsed N issues" with N the number of
    accepted rows, imported html_report, asked for the template of the
    strategy, opened the output path, wrote the rendering of the data
    prepared from the accepted rows to it, and printed "HTML report
    generated: " with the output path. *)
Theorem main_success {Path Row Exn : Type}
    (o : outside Path Row Exn) (args : arguments Path) :
  (main o args).2 = inr tt →
  ∃ rows html,
    path_exists o (csv_file args) = true
    ∧ read_csv o (csv_file args) = inr (rows, None)
    ∧ render_template o (template_name (group_by args))
        (prepare_data (records_of o rows) (group_by args)) = inr html
    ∧ (main o args).1
      = [Mkdir (output_dir_of o args).1 (output_dir_of o args).2;
         Stdout ("Reading CSV file: " +:+ str_of_path o (csv_file args));
         OpenRead (csv_file args)]
        ++ (Stderr <$> warnings_of o rows)
        ++ [Stdout ("Successfully parsed "
                    +:+ str_of_nat (length (records_of o rows)) +:+ " issues");
            Import "html_report";
            LoadTemplate (template_name (group_by args));
            OpenWrite (output_path_of o args);
            WriteFile (output_path_of o args) html;
            Stdout ("HTML report generated: "
                    +:+ str_of_path o (output_path_of o args))].
Proof.
  rewrite main_run.
  destruct (path_exists o (csv_file args)); [|done].
  destruct (mkdir_error o _ _); [done|]. cbv zeta.
  destruct (read_csv o _) as [e|[rows [e|]]]; [done..|].
  destruct (import_error o _); [done|].
  destruct (get_template_error o _); [done|].
  destruct (render_template o _ _) as [e|html] eqn:Er; [done|].
  destruct (open_error o _); [done|].
  destruct (write_error o _ _); [done|].
  intros _. exists rows, html. split_and!; try done.
  cbn [fst app]. by rewrite <- !app_assoc.
Qed.

Lemma main_success_witness :
  (main sample_outside sample_arguments).1
  = [ Mkdir "output" false;
      Stdout "Reading CSV file: issues.csv";
      OpenRead "issues.csv";
      Stderr "Warning: Failed to parse row 3: ISSUE_URL: Field required; ";
      Stdout "Successfully parsed 2 issues";
      Import "html_report";
      LoadTemplate "report_project.html";
      OpenWrite "output/report_project.html";
      WriteFile "output/report_project.html"
        "report_project.html: 2 issues in 1 groups";
      Stdout "HTML report generated: output/report_project.html" ].
Proof.
  destruct (main_success sample_outside sample_arguments eq_refl)
    as (rows & html & _ & Hread & Hrender & Htrace).
  rewrite Htrace. injection Hread as <-.
  vm_compute in Hrender. injection Hrender as <-.
  vm_compute. reflexivity.
Defined.

(** X17. The strategy name selects the template, the shape of the groups
    and the default file name by one and the same test: the template
    report_project.html is always rendered with project groups and the
    template report_cve_cwe.html with cve-cwe groups, for every strategy
    name, the data records the name it was prepared for, and without -o the
    report is written to the directory output under the name of the
    template. *)
Theorem strategy_selects_template {Path Row Exn : Type}
    (o : outside Path Row Exn) (issues : list SnykIssue) (args : arguments Path) :
  match Report.groups (prepare_data issues (group_by args)) with
  | ProjectGroups gs =>
      group_by args = "project"
      ∧ template_name (group_by args) = "report_project.html"
      ∧ gs = Project.prepare_data_project issues
  | CveCweGroups gs =>
      group_by args ≠ "project"
      ∧ template_name (group_by args) = "report_cve_cwe.html"
      ∧ gs = CveCwe.prepare_data_cve_cwe issues
  end
  ∧ Report.group_by (prepare_data issues (group_by args)) = group_by args
  ∧ (output_file args = None →
     output_path_of o args
     = joinpath o (path_of o "output") (template_name (group_by args))
     ∧ ((resolve_output o args).2 = inr (output_path_of o args)
        ∨ ∃ e, resolve_output o args = ([], inl (Raised e)))).
Proof.
  split_and!.
  - unfold prepare_data, template_name. cbn [Report.groups]. by case_decide.
  - done.
  - intros Hnone. split.
    + unfold output_path_of. by rewrite Hnone.
    + rewrite resolve_output_run. destruct (mkdir_error o _ _); eauto.
Qed.
